(** * copt.stochastic: the sparse (A)SAGA solver

    A shallow embedding of [copt/stochastic.py]: the block-support builder
    [_support_matrix], the kernel factory [_factory_sparse_SAGA], the epoch
    kernel [epoch_iteration_template] and the orchestrator [minimize_SAGA].

    Conventions of the embedding.
    - numpy arrays are lists; [l !!! i] reads an entry and [<[i:=v]> l]
      writes one.  The two jitted functions are compiled by numba without
      bounds checks, so an access outside an array has no defined meaning in
      the source: the model reads a default there and ignores the write, and
      every statement that depends on array contents assumes a well-formed
      CSR structure ([csr_wfb], [kernel_wfb]).
    - index arrays ([indices], [indptr], [g_blocks]) hold natural numbers,
      as scipy's CSR index arrays do.
    - float64 arithmetic is kept abstract: the class [FloatOps] lists the
      operations the source uses, and no algebraic law is assumed unless a
      statement says so.  The theorems therefore speak about which
      operations are applied to which operands, in which order. *)

From Stdlib Require Import ZArith QArith Qabs Lia.
From stdpp Require Import base list relations.

Local Open Scope nat_scope.

(** ** Arithmetic interface *)

Class FloatOps (F : Type) := {
  fzero : F;                      (* 0. *)
  fone : F;                       (* 1. *)
  finf : F;                       (* np.inf *)
  fadd : F -> F -> F;
  fsub : F -> F -> F;
  fmul : F -> F -> F;
  fdiv : F -> F -> F;
  flt : F -> F -> bool;           (* a < b *)
  fne : F -> F -> bool;           (* a != b *)
  of_nat : nat -> F;              (* a non-negative Python int used as a float *)
  norm : list F -> F              (* np.linalg.norm of a vector *)
}.

#[global] Instance FloatOps_inhabited `{FloatOps F} : Inhabited F := populate fzero.

(** Counting in floats is exact: what holds of float64 as long as the counts
    stay below 2^53.  Only the statements about the degree vector use it. *)
Class CountLaws (F : Type) `{FloatOps F} : Prop := {
  of_nat_zero : of_nat 0 = fzero;
  of_nat_succ : forall k, fadd (of_nat k) fone = of_nat (S k);
  fne_zero : fne fzero fzero = false;
  fne_count : forall k, fne (of_nat (S k)) fzero = true;
  fne_ratio : forall n c, 0 < c -> c <= n -> fne (fdiv (of_nat n) (of_nat c)) fzero = true
}.

(** The comparison [inf < t] is false for every float [t]. *)
Class InfLaws (F : Type) `{FloatOps F} : Prop := {
  flt_inf : forall t, flt finf t = false
}.

(** [range(lo, hi)] *)
Definition range (lo hi : nat) : list nat := seq lo (hi - lo).

(** [l[lo:hi]] *)
Definition slice {A} (l : list A) (lo hi : nat) : list A := take (hi - lo) (drop lo l).

(** ** Block-support builder: [_support_matrix] *)

Module Support.

(** The local arrays of [_support_matrix] while the row loop runs. *)
Record state := mk_state {
  BS_indices : list nat;
  BS_indptr : list nat;
  seen_blocks : list nat;
  counter_indptr : nat
}.

Section Builder.
Variables (A_indices A_indptr g_blocks : list nat).

(** Body of [for j in range(low, high)], lines 122-128. *)
Definition scan_entry (st : state) (j : nat) : state :=
  let g_idx := g_blocks !!! (A_indices !!! j) in
  if Nat.eqb (seen_blocks st !!! g_idx) 0 then
    {| BS_indices := <[counter_indptr st := g_idx]> (BS_indices st);
       BS_indptr := BS_indptr st;
       seen_blocks := <[g_idx := 1]> (seen_blocks st);
       counter_indptr := counter_indptr st + 1 |}
  else st.

(** Body of the cleanup loop, line 132. *)
Definition cleanup_entry (st : state) (j : nat) : state :=
  {| BS_indices := BS_indices st;
     BS_indptr := BS_indptr st;
     seen_blocks := <[BS_indices st !!! j := 0]> (seen_blocks st);
     counter_indptr := counter_indptr st |}.

(** Lines 119-129: scan one row and record its end in [BS_indptr]. *)
Definition scan_row (st : state) (i : nat) : state :=
  let low := A_indptr !!! i in
  let high := A_indptr !!! (i + 1) in
  let st1 := fold_left scan_entry (range low high) st in
  {| BS_indices := BS_indices st1;
     BS_indptr := <[i + 1 := counter_indptr st1]> (BS_indptr st1);
     seen_blocks := seen_blocks st1;
     counter_indptr := counter_indptr st1 |}.

(** Lines 131-132. *)
Definition cleanup_row (st : state) (i : nat) : state :=
  fold_left cleanup_entry (range (BS_indptr st !!! i) (counter_indptr st)) st.

(** Body of [for i in range(A_indptr.size - 1)]. *)
Definition row_step (st : state) (i : nat) : state :=
  cleanup_row (scan_row st i) i.

(** Lines 113-117. *)
Definition init (n_blocks : nat) : state :=
  {| BS_indices := replicate (length A_indices) 0;
     BS_indptr := <[0 := 0]> (replicate (length A_indptr) 0);
     seen_blocks := replicate n_blocks 0;
     counter_indptr := 0 |}.

(** The state after the first [k] rows. *)
Definition after_rows (n_blocks k : nat) : state :=
  fold_left row_step (range 0 k) (init n_blocks).

Definition final (n_blocks : nat) : state :=
  after_rows n_blocks (length A_indptr - 1).
End Builder.

End Support.

Definition _support_matrix `{FloatOps F}
    (A_indices A_indptr g_blocks : list nat) (n_blocks : nat)
    : list F * list nat * list nat :=
  let st := Support.final A_indices A_indptr g_blocks n_blocks in
  let counter_indptr := Support.counter_indptr st in
  let BS_data := replicate counter_indptr fone in
  (BS_data, take counter_indptr (Support.BS_indices st), Support.BS_indptr st).

(** ** CSR structure and the rows it stores *)

(** Row [i] of a CSR index structure: the stored column indices, in storage
    order. *)
Definition csr_row (indices indptr : list nat) (i : nat) : list nat :=
  slice indices (indptr !!! i) (indptr !!! (i + 1)).

(** A well-formed CSR index structure with [n_rows] rows and [n_cols]
    columns: one row pointer per row boundary, non-decreasing, inside the
    index array, and every column index below [n_cols]. *)
Definition csr_wfb (indices indptr : list nat) (n_rows n_cols : nat) : bool :=
  Nat.eqb (length indptr) (n_rows + 1)
  && forallb (fun i => indptr !!! i <=? indptr !!! (i + 1)) (range 0 n_rows)
  && (indptr !!! n_rows <=? length indices)
  && forallb (fun c => c <? n_cols) indices.

(** A block mapping for [n_cols] features into [n_blocks] blocks. *)
Definition blocks_wfb (g_blocks : list nat) (n_cols n_blocks : nat) : bool :=
  (n_cols <=? length g_blocks) && forallb (fun blk => blk <? n_blocks) g_blocks.

(** Keep the first occurrence of every element, in order. *)
Fixpoint dedup_first (l : list nat) : list nat :=
  match l with
  | [] => []
  | a :: l' => a :: filter (fun b => b ≠ a) (dedup_first l')
  end.

(** The blocks of row [i] under the block mapping [g_blocks], duplicates
    removed, in order of first occurrence. *)
Definition block_row (indices indptr g_blocks : list nat) (i : nat) : list nat :=
  dedup_first (map (fun c => g_blocks !!! c) (csr_row indices indptr i)).

(** How often [j] occurs in [l]. *)
Definition occurrences (j : nat) (l : list nat) : nat :=
  length (filter (fun c => c = j) l).

(** The rows (samples) that store column [j]. *)
Definition samples_touching (indices indptr : list nat) (n_rows j : nat) : list nat :=
  filter (fun i => j ∈ csr_row indices indptr i) (range 0 n_rows).

(** Number of rows whose stored columns are mapped to block [j]. *)
Definition touch_count (indices indptr g_blocks : list nat) (n_rows j : nat) : nat :=
  length (filter (fun i => j ∈ map (fun c => g_blocks !!! c) (csr_row indices indptr i))
                 (range 0 n_rows)).

(** ** Collaborators: the loss [f] and the penalty [g] *)

(** A scipy CSR matrix: [A.data], [A.indices], [A.indptr], [A.shape]. *)
Record csr_matrix (F : Type) := mk_csr {
  data : list F;
  indices : list nat;
  indptr : list nat;
  shape : nat * nat
}.
Arguments mk_csr {F}. Arguments data {F}. Arguments indices {F}.
Arguments indptr {F}. Arguments shape {F}.

(** What the solver uses of a loss object.  [f.A] is taken in CSR form
    already ([sparse.csr_matrix(f.A)] is scipy's conversion). *)
Record Loss (F : Type) := mk_loss {
  loss_A : csr_matrix F;
  loss_b : list F;
  loss_alpha : F;
  loss_n_features : nat;
  lipschitz_constant : F;                (* value of f.lipschitz_constant() *)
  partial_gradient_factory : F -> F -> F;
  loss_call : list F -> F                (* f(x) *)
}.
Arguments mk_loss {F}. Arguments loss_A {F}. Arguments loss_b {F}.
Arguments loss_alpha {F}. Arguments loss_n_features {F}.
Arguments lipschitz_constant {F}. Arguments partial_gradient_factory {F}.
Arguments loss_call {F}.

Record Penalty (F : Type) := mk_penalty {
  is_separable : bool;
  prox_factory : F -> F -> F;
  penalty_call : list F -> F             (* g(x) *)
}.
Arguments mk_penalty {F}. Arguments is_separable {F}.
Arguments prox_factory {F}. Arguments penalty_call {F}.

(** Modelled from the spec: [utils.DummyProx], the default penalty, whose
    source is not part of this module: "A no penalty default behaves as the
    identity proximal operator and contributes zero to the objective"; it is
    accepted by the factory, hence separable. *)
Definition DummyProx `{FloatOps F} : Penalty F :=
  {| is_separable := true;
     prox_factory := fun v _ => v;
     penalty_call := fun _ => fzero |}.

Inductive exn := NotImplementedError | AssertionError | IndexError | ValueError.

(** ** Kernel factory: [_factory_sparse_SAGA] *)

(** [BS.sum(0)] for [BS = csr_matrix((data, indices, indptr), (_, n_cols))]:
    the sum of the stored values of every column. *)
Definition csr_sum0 `{FloatOps F} (n_cols : nat) (dat : list F) (ind : list nat) : list F :=
  fold_left (fun acc k => let j := ind !!! k in <[j := fadd (acc !!! j) (dat !!! k)]> acc)
            (range 0 (length ind)) (replicate n_cols fzero).

(** Lines 165-167: [d[idx] = n_samples / d[idx]; d[~idx] = 0.] *)
Definition degree `{FloatOps F} (n_samples : nat) (sums : list F) : list F :=
  map (fun s => if fne s fzero then fdiv (of_nat n_samples) s else fzero) sums.

(** What the closure [epoch_iteration_template] captures. *)
Record closure (F : Type) := mk_closure {
  A_data : list F;
  A_indices : list nat;
  A_indptr : list nat;
  b : list F;
  f_alpha : F;
  d : list F;
  n_samples : nat;
  n_features : nat;
  partial_gradient : F -> F -> F;
  prox : F -> F -> F
}.
Arguments mk_closure {F}. Arguments A_data {F}. Arguments A_indices {F}.
Arguments A_indptr {F}. Arguments b {F}. Arguments f_alpha {F}. Arguments d {F}.
Arguments n_samples {F}. Arguments n_features {F}.
Arguments partial_gradient {F}. Arguments prox {F}.

(** The degree vector of lines 156-167 for a block mapping [g_blocks]. *)
Definition degree_vector `{FloatOps F} (A : csr_matrix F) (g_blocks : list nat)
    (n_blocks : nat) : list F :=
  let '(BS_data, BS_indices, BS_indptr) :=
    _support_matrix (F:=F) (indices A) (indptr A) g_blocks n_blocks in
  degree (fst (shape A)) (csr_sum0 n_blocks BS_data BS_indices).

Definition _factory_sparse_SAGA `{FloatOps F} (f : Loss F) (g : Penalty F)
    : exn + closure F :=
  let A := loss_A f in
  let '(n_samples, n_features) := shape A in
  if is_separable g then
    let g_blocks := seq 0 n_features in           (* np.arange(n_features) *)
    (* np.unique also sorts; g_blocks is increasing already *)
    let unique_blocks := remove_dups g_blocks in
    let n_blocks := length unique_blocks in
    if bool_decide (unique_blocks = seq 0 n_blocks) then
      inr {| A_data := data A; A_indices := indices A; A_indptr := indptr A;
             b := loss_b f; f_alpha := loss_alpha f;
             d := degree_vector A g_blocks n_blocks;
             n_samples := n_samples; n_features := n_features;
             partial_gradient := partial_gradient_factory f;
             prox := prox_factory g |}
    else inl AssertionError
  else inl NotImplementedError.

(** ** Epoch kernel: [epoch_iteration_template] *)

(** The buffers every worker shares. *)
Record shared (F : Type) := mk_shared {
  x : list F;
  memory_gradient : list F;
  gradient_average : list F;
  stop_flag : bool;                       (* stop_flag[0] *)
  trace_x : list (list F)
}.
Arguments mk_shared {F}. Arguments x {F}. Arguments memory_gradient {F}.
Arguments gradient_average {F}. Arguments stop_flag {F}. Arguments trace_x {F}.

(** The local variables of one call.  [epochs_run] is a ghost counter, not
    a variable of the source: it is incremented once per executed body of
    the loop [for it in range(1, max_iter)]. *)
Record locals (F : Type) := mk_locals {
  it : nat;
  cert : F;
  x_old : list F;
  sample_indices : list nat;
  epochs_run : nat
}.
Arguments mk_locals {F}. Arguments it {F}. Arguments cert {F}.
Arguments x_old {F}. Arguments sample_indices {F}. Arguments epochs_run {F}.

(** [range(1, max_iter)] for a Python int [max_iter]. *)
Definition epoch_range (max_iter : Z) : list nat := seq 1 (Z.to_nat (max_iter - 1)).

Section Kernel.
Context `{FloatOps F}.
Variable K : closure F.
(** [np.random.shuffle] of this worker: the epoch number and the array
    give the shuffled array. *)
Variable shuffle : nat -> list nat -> list nat.
Variables (step_size : F) (max_iter : Z) (job_id : nat) (tol : F) (trace : bool).

(** [range(A_indptr[i], A_indptr[i+1])] *)
Definition row_positions (i : nat) : list nat :=
  range (A_indptr K !!! i) (A_indptr K !!! (i + 1)).

(** Lines 187-190. *)
Definition predict (x : list F) (i : nat) : F :=
  fold_left (fun p j => let j_idx := A_indices K !!! j in
                        fadd p (fmul (x !!! j_idx) (A_data K !!! j)))
            (row_positions i) fzero.

(** Lines 197-200, one column of the row. *)
Definition update_coefficient (grad_i mem_i : F) (gradient_average x : list F)
    (j : nat) : list F :=
  let j_idx := A_indices K !!! j in
  let incr := fadd (fmul (fsub grad_i mem_i) (A_data K !!! j))
                   (fmul (d K !!! j_idx)
                         (fadd (gradient_average !!! j_idx)
                               (fmul (f_alpha K) (x !!! j_idx)))) in
  <[j_idx := prox K (fsub (x !!! j_idx) (fmul step_size incr))
                    (fmul step_size (d K !!! j_idx))]> x.

(** Lines 204-205, one column of the row; [m] is [memory_gradient[i]]. *)
Definition update_average (grad_i m : F) (gradient_average : list F) (j : nat)
    : list F :=
  let j_idx := A_indices K !!! j in
  <[j_idx := fadd (gradient_average !!! j_idx)
                  (fdiv (fmul (fsub grad_i m) (A_data K !!! j))
                        (of_nat (n_samples K)))]> gradient_average.

(** Lines 187-206: the body of [for i in sample_indices]. *)
Definition sample_update (s : shared F) (i : nat) : shared F :=
  let p := predict (x s) i in
  let grad_i := partial_gradient K p (b K !!! i) in
  let mem_i := memory_gradient s !!! i in
  let x' := fold_left (update_coefficient grad_i mem_i (gradient_average s))
                      (row_positions i) (x s) in
  let ga' := fold_left (update_average grad_i (memory_gradient s !!! i))
                       (row_positions i) (gradient_average s) in
  {| x := x';
     memory_gradient := <[i := grad_i]> (memory_gradient s);
     gradient_average := ga';
     stop_flag := stop_flag s;
     trace_x := trace_x s |}.

(** Lines 209-215, the branch [job_id == 0]. *)
Definition check_convergence (s : shared F) (l : locals F) : shared F * locals F :=
  let trace_x' := if trace then <[it l := x s]> (trace_x s) else trace_x s in
  let cert' := fdiv (norm (zip_with fsub (x s) (x_old l))) step_size in
  ({| x := x s; memory_gradient := memory_gradient s;
      gradient_average := gradient_average s;
      stop_flag := if flt cert' tol then true else stop_flag s;
      trace_x := trace_x' |},
   {| it := it l; cert := cert'; x_old := x s;
      sample_indices := sample_indices l; epochs_run := epochs_run l |}).

(** Lines 218-222: [grad_tmp] after the double loop. *)
Definition recompute_average (memory_gradient : list F) (order : list nat) : list F :=
  fold_left
    (fun grad_tmp i =>
       fold_left (fun gt j => let j_idx := A_indices K !!! j in
                    <[j_idx := fadd (gt !!! j_idx)
                                    (fdiv (fmul (memory_gradient !!! i) (A_data K !!! j))
                                          (of_nat (n_samples K)))]> gt)
                 (row_positions i) grad_tmp)
    order (replicate (n_features K) fzero).

(** Lines 217-224, the branch [job_id == 1]. *)
Definition resynchronize (s : shared F) (l : locals F) : shared F :=
  {| x := x s; memory_gradient := memory_gradient s;
     gradient_average := recompute_average (memory_gradient s) (sample_indices l);
     stop_flag := stop_flag s; trace_x := trace_x s |}.

(** Lines 208-224. *)
Definition role_action (s : shared F) (l : locals F) : shared F * locals F :=
  if Nat.eqb job_id 0 then check_convergence s l
  else if Nat.eqb job_id 1 then (resynchronize s l, l)
  else (s, l).

(** Line 184-185: the loop variable is bound and the order shuffled. *)
Definition begin_epoch (k : nat) (l : locals F) : locals F :=
  {| it := k; cert := cert l; x_old := x_old l;
     sample_indices := shuffle k (sample_indices l);
     epochs_run := S (epochs_run l) |}.

(** Lines 185-224: one body of the epoch loop, up to the stop test. *)
Definition epoch_body (k : nat) (st : shared F * locals F) : shared F * locals F :=
  let l1 := begin_epoch k (snd st) in
  let s1 := fold_left sample_update (sample_indices l1) (fst st) in
  role_action s1 l1.

(** Lines 184-227: the loop with its [break]. *)
Fixpoint epoch_loop (its : list nat) (st : shared F * locals F)
    : shared F * locals F :=
  match its with
  | [] => st
  | k :: rest =>
      let st' := epoch_body k st in
      if stop_flag (fst st') then st' else epoch_loop rest st'
  end.

(** Lines 175-181.  The store [trace_x[0, :] = x] is described for a
    trace buffer that has a row 0.  The kernel is compiled without bounds
    checks: on a buffer without rows the source stores outside the buffer,
    and what follows is not defined by the source; here the buffer is then
    left as it is, and [entry_store_in_bounds] below tells the two cases
    apart. *)
Definition kernel_entry (s : shared F) : shared F * locals F :=
  ({| x := x s; memory_gradient := memory_gradient s;
      gradient_average := gradient_average s; stop_flag := stop_flag s;
      trace_x := if Nat.eqb job_id 0 && trace then <[0 := x s]> (trace_x s)
                 else trace_x s |},
   {| it := 0; cert := finf; x_old := x s;
      sample_indices := seq 0 (n_samples K); epochs_run := 0 |}).

(** The state in which the call returns. *)
Definition kernel_run (s : shared F) : shared F * locals F :=
  epoch_loop (epoch_range max_iter) (kernel_entry s).

(** The call: the buffers as it leaves them, and [(it, cert)]. *)
Definition epoch_iteration_template (s : shared F) : shared F * (nat * F) :=
  let '(s', l') := kernel_run s in (s', (it l', cert l')).
End Kernel.

(** ** The matrix view of the kernel's arrays *)

(** The stored entries of row [i] of [A]: the pairs [(j, A[i,j])], in
    storage order. *)
Definition row_entries {F} (K : closure F) (i : nat) : list (nat * F) :=
  zip (csr_row (A_indices K) (A_indptr K) i)
      (slice (A_data K) (A_indptr K !!! i) (A_indptr K !!! (i + 1))).

(** The store of line 181 is inside the trace buffer: it is executed by
    job 0 with tracing on, and then the buffer needs a row 0. *)
Definition entry_store_in_bounds {F} (job_id : nat) (trace : bool) (s : shared F)
    : bool :=
  negb (Nat.eqb job_id 0 && trace) || (0 <? length (trace_x s)).

(** The arrays captured by the kernel form a CSR matrix of shape
    [(n_samples, n_features)]. *)
Definition kernel_wfb {F} (K : closure F) : bool :=
  csr_wfb (A_indices K) (A_indptr K) (n_samples K) (n_features K)
  && Nat.eqb (length (A_data K)) (length (A_indices K)).

(** The buffers have the sizes the orchestrator allocates. *)
Definition buffers_okb {F} (K : closure F) (s : shared F) : bool :=
  Nat.eqb (length (x s)) (n_features K)
  && Nat.eqb (length (gradient_average s)) (n_features K)
  && Nat.eqb (length (memory_gradient s)) (n_samples K).

(** The new value of [x[j]] in lines 198-200, from its old value [v]. *)
Definition prox_step `{FloatOps F} (K : closure F) (step_size grad_i mem_i : F)
    (gradient_average : list F) (j : nat) (a v : F) : F :=
  let incr := fadd (fmul (fsub grad_i mem_i) a)
                   (fmul (d K !!! j) (fadd (gradient_average !!! j) (fmul (f_alpha K) v))) in
  prox K (fsub v (fmul step_size incr)) (fmul step_size (d K !!! j)).

(** The prediction [p]: the sum of [x[j] * A[i,j]] over the stored entries
    of row [i], added from left to right starting from zero. *)
Definition row_dot `{FloatOps F} (K : closure F) (x : list F) (i : nat) : F :=
  fold_left (fun p '(j, a) => fadd p (fmul (x !!! j) a)) (row_entries K i) fzero.

(** The terms [memory_gradient[i] * A[i,j] / n_samples] of column [j],
    for the samples [i] of [order] and the stored entries of their rows. *)
Definition average_terms `{FloatOps F} (K : closure F) (memory_gradient : list F)
    (order : list nat) (j : nat) : list F :=
  map snd
    (filter (fun e => fst e = j)
       (flat_map (fun i => map (fun '(j', a) =>
                                  (j', fdiv (fmul (memory_gradient !!! i) a)
                                            (of_nat (n_samples K))))
                               (row_entries K i))
                 order)).

(** ** Workers running concurrently

    [minimize_SAGA] submits [n_jobs] calls of the kernel to a thread pool;
    they run on the same buffers without locks.  A worker is modelled by its
    program point and its locals, and the pool by an interleaving of worker
    steps.  A step is one of: entering the call, taking the next value of
    the epoch loop, one body of [for i in sample_indices], the role
    bookkeeping after the sample loop, the test of the stop flag.

    The executor has a bounded number of threads, so a submitted job may
    have to wait for one.  A waiting job is a worker at [Start] that the
    interleaving has not yet picked: the relation says which steps a worker
    may take, not when the executor lets it take them.  What holds of every
    interleaving holds of those the executor allows; which worker is able
    to run at a given time is not described. *)

Inductive pc (F : Type) :=
| Start                                       (* submitted, not yet running *)
| Head (rest : list nat)                      (* at the loop header, line 184 *)
| Sample (pending rest : list nat)            (* inside the sample loop *)
| Check (rest : list nat)                     (* before line 226 *)
| Returned (n_iter : nat) (certificate : F).  (* line 228 *)
Arguments Start {F}. Arguments Head {F}. Arguments Sample {F}.
Arguments Check {F}. Arguments Returned {F}.

Record worker (F : Type) := mk_worker {
  w_job_id : nat;
  w_pc : pc F;
  w_locals : locals F
}.
Arguments mk_worker {F}. Arguments w_job_id {F}. Arguments w_pc {F}.
Arguments w_locals {F}.

Record pool (F : Type) := mk_pool {
  p_shared : shared F;
  p_workers : list (worker F)               (* futures, by job_id *)
}.
Arguments mk_pool {F}. Arguments p_shared {F}. Arguments p_workers {F}.

Section Async.
Context `{FloatOps F}.
Variable K : closure F.
(** The shuffles of each worker: job, epoch number, array. *)
Variable shuffle : nat -> nat -> list nat -> list nat.
Variables (step_size : F) (max_iter : Z) (tol : F) (trace : bool).

Definition worker_step (s : shared F) (w : worker F) : option (shared F * worker F) :=
  let j := w_job_id w in
  let l := w_locals w in
  match w_pc w with
  | Start =>
      let '(s', l') := kernel_entry K j trace s in
      Some (s', mk_worker j (Head (epoch_range max_iter)) l')
  | Head [] => Some (s, mk_worker j (Returned (it l) (cert l)) l)
  | Head (k :: rest) =>
      let l' := begin_epoch (shuffle j) k l in
      Some (s, mk_worker j (Sample (sample_indices l') rest) l')
  | Sample (i :: pending) rest =>
      Some (sample_update K step_size s i, mk_worker j (Sample pending rest) l)
  | Sample [] rest =>
      let '(s', l') := role_action K step_size j tol trace s l in
      Some (s', mk_worker j (Check rest) l')
  | Check rest =>
      if stop_flag s then Some (s, mk_worker j (Returned (it l) (cert l)) l)
      else Some (s, mk_worker j (Head rest) l)
  | Returned _ _ => None
  end.

Definition is_returned (w : worker F) : bool :=
  match w_pc w with Returned _ _ => true | _ => false end.

(** Some worker takes a step. *)
Inductive pool_step (p : pool F) : pool F -> Prop :=
| step_worker k w s' w' :
    p_workers p !! k = Some w ->
    worker_step (p_shared p) w = Some (s', w') ->
    pool_step p (mk_pool s' (<[k := w']> (p_workers p))).

(** The workers are scheduled in the order of the list [sched]. *)
Definition schedule_step (p : pool F) (k : nat) : pool F :=
  match p_workers p !! k with
  | Some w =>
      match worker_step (p_shared p) w with
      | Some (s', w') => mk_pool s' (<[k := w']> (p_workers p))
      | None => p
      end
  | None => p
  end.

(** Worker [k] exists and has not returned. *)
Definition enabled (p : pool F) (k : nat) : bool :=
  match p_workers p !! k with
  | Some w => negb (is_returned w)
  | None => false
  end.

Definition run_schedule (sched : list nat) (p : pool F) : pool F :=
  fold_left schedule_step sched p.

(** Worker [k] of the pool runs job [k]. *)
Definition jobs_by_index (p : pool F) : Prop :=
  forall k w, p_workers p !! k = Some w -> w_job_id w = k.

(** A worker that has executed no epoch: it is submitted, or at the
    header of an exhausted loop, or has returned [(0, inf)]. *)
Definition idle (w : worker F) : Prop :=
  epochs_run (w_locals w) = 0
  /\ (w_pc w = Start
      \/ (w_pc w = Head [] /\ it (w_locals w) = 0 /\ cert (w_locals w) = finf)
      \/ w_pc w = Returned 0 finf).

(** An upper bound on the number of steps a worker can still take: an
    epoch costs one step at the loop header, one per sample, one for the
    role bookkeeping and one for the test of the flag. *)
Definition worker_fuel (w : worker F) : nat :=
  let n := length (sample_indices (w_locals w)) in
  match w_pc w with
  | Start => length (epoch_range max_iter) * (n_samples K + 3) + 2
  | Head rest => length rest * (n + 3) + 1
  | Sample pending rest => length pending + 3 + length rest * (n + 3)
  | Check rest => 2 + length rest * (n + 3)
  | Returned _ _ => 0
  end.

Definition pool_fuel (p : pool F) : nat := sum_list (map worker_fuel (p_workers p)).

(** The bookkeeping of a running worker: [it] counts the epochs begun, the
    loop has the values after [it] left, a worker other than worker 0 has
    never computed a certificate, and a worker returns its [it] and
    [cert]. *)
Definition counted (w : worker F) : Prop :=
  let l := w_locals w in
  let m := Z.to_nat (max_iter - 1) in
  let rest_ok rest :=
    it l = epochs_run l /\ epochs_run l <= m
    /\ rest = seq (S (epochs_run l)) (m - epochs_run l)
    /\ (w_job_id w <> 0 -> cert l = finf) in
  match w_pc w with
  | Start => True
  | Head rest => rest_ok rest
  | Sample _ rest => rest_ok rest /\ 1 <= epochs_run l
  | Check rest => rest_ok rest /\ 1 <= epochs_run l
  | Returned n c =>
      n = epochs_run l /\ n <= m /\ c = cert l
      /\ (w_job_id w <> 0 -> c = finf)
  end.

(** [concurrent.futures.wait(futures)] has returned. *)
Definition all_returned (p : pool F) : bool := forallb is_returned (p_workers p).
End Async.

(** ** Orchestrator: [minimize_SAGA] *)

Inductive buffer := Buf_x | Buf_memory_gradient | Buf_gradient_average
                  | Buf_trace_x | Buf_stop_flag.

(** What the orchestrator has done so far: the shared arrays it has
    allocated and the jobs it has submitted (a ghost log). *)
Inductive event := Alloc (buf : buffer) | Submit (job_id : nat).

(** Computations that log events and may raise. *)
Definition M (A : Type) : Type := list event * (exn + A).
Definition ret {A} (a : A) : M A := ([], inr a).
Definition raise {A} (e : exn) : M A := ([], inl e).
Definition tell (ev : event) : M unit := ([ev], inr tt).
Definition bind {A B} (m : M A) (k : A -> M B) : M B :=
  match m with
  | (log, inl e) => (log, inl e)
  | (log, inr a) => let '(log', r) := k a in (log ++ log', r)
  end.
Definition lift {A} (r : exn + A) : M A := ([], r).

Declare Scope orch_scope.
Delimit Scope orch_scope with orch.
Notation "'let*' a := m 'in' k" := (bind m (fun a => k))
  (at level 10, a name, m at level 100, k at level 200) : orch_scope.
Notation "m ;; k" := (bind m (fun _ => k))
  (at level 100, k at level 200, right associativity) : orch_scope.

Record OptimizeResult (F : Type) := mk_result {
  res_x : list F;
  success : bool;
  nit : nat;
  trace_func : list F;
  trace_time : list F;
  certificate : F
}.
Arguments mk_result {F}. Arguments res_x {F}. Arguments success {F}.
Arguments nit {F}. Arguments trace_func {F}. Arguments trace_time {F}.
Arguments certificate {F}.

(** What the orchestrator has when the jobs are submitted. *)
Record launch (F : Type) := mk_launch {
  l_kernel : closure F;
  l_step_size : F;
  l_penalty : Penalty F;
  l_pool : pool F
}.
Arguments mk_launch {F}. Arguments l_kernel {F}. Arguments l_step_size {F}.
Arguments l_penalty {F}. Arguments l_pool {F}.

Section Orchestrator.
Context `{FloatOps F}.
(** Library and clock: [np.linspace(0, delta, n)] and the elapsed time. *)
Variable linspace : F -> nat -> list F.
Variable delta : F.
Variable shuffle : nat -> nat -> list nat -> list nat.

Variables (f : Loss F) (g : option (Penalty F)) (x0 : option (list F)).
Variables (step_size : F) (n_jobs max_iter : Z) (tol : F) (trace : bool).

(** Lines 47-82: everything up to the submission of the jobs. *)
Definition setup : M (launch F) :=
  (let* x := (tell (Alloc Buf_x);;
            ret (match x0 with
                 | None => replicate (loss_n_features f) fzero
                 | Some v => v
                 end)) in
   let step_size := if flt step_size fzero
                    then fdiv fone (fmul (of_nat 3) (lipschitz_constant f))
                    else step_size in
   let g := match g with None => DummyProx | Some g => g end in
   let* epoch_iteration := lift (_factory_sparse_SAGA f g) in
   let '(n_samples, n_features) := shape (loss_A f) in
   let* memory_gradient := (tell (Alloc Buf_memory_gradient);;
                          ret (replicate n_samples fzero)) in
   let* gradient_average := (tell (Alloc Buf_gradient_average);;
                           ret (replicate n_features fzero)) in
   let* trace_x := (if trace then
                    if (max_iter <? 0)%Z then raise ValueError
                    else tell (Alloc Buf_trace_x);;
                         ret (replicate (Z.to_nat max_iter)
                                        (replicate n_features fzero))
                  else tell (Alloc Buf_trace_x);; ret []) in
   let* stop_flag := (tell (Alloc Buf_stop_flag);; ret false) in
   let jobs := seq 0 (Z.to_nat n_jobs) in
   (map Submit jobs,
    inr {| l_kernel := epoch_iteration; l_step_size := step_size; l_penalty := g;
           l_pool := {| p_shared := mk_shared x memory_gradient gradient_average
                                              stop_flag trace_x;
                        p_workers := map (fun j => mk_worker j Start
                                            (mk_locals 0 finf [] [] 0)) jobs |} |})
  )%orch.

(** The initial point: [x0] when given, the zero vector otherwise. *)
Definition initial_point : list F :=
  match x0 with
  | None => replicate (loss_n_features f) fzero
  | Some v => v
  end.

(** Lines 85-102, once every future is done. *)
Definition collect (L : launch F) (p : pool F) : exn + OptimizeResult F :=
  match p_workers p !! 0 with
  | Some (mk_worker _ (Returned n_iter certificate) _) =>
      let s := p_shared p in
      let trace_time := if trace then linspace delta n_iter else [] in
      let trace_func :=
        if trace then
          map (fun i => fadd (loss_call f (trace_x s !!! i))
                             (penalty_call (l_penalty L) (trace_x s !!! i)))
              (range 0 n_iter)
        else [] in
      inr {| res_x := x s;
             success := if flt certificate tol then true else false;
             nit := n_iter; trace_func := trace_func; trace_time := trace_time;
             certificate := certificate |}
  | _ => inl IndexError                       (* futures[0] *)
  end.

(** The runs of the pool between submission and join. *)
Definition pool_run (L : launch F) (p : pool F) : Prop :=
  rtc (pool_step (l_kernel L) shuffle (l_step_size L) max_iter tol trace)
      (l_pool L) p
  /\ all_returned p = true.

(** The outcomes of a call: the log of allocations and submissions, and
    the exception or the result. *)
Inductive minimize_SAGA : list event * (exn + OptimizeResult F) -> Prop :=
| solve_raises log e :
    setup = (log, inl e) -> minimize_SAGA (log, inl e)
| solve_joins log L p :
    setup = (log, inr L) -> pool_run L p -> minimize_SAGA (log, collect L p).
End Orchestrator.

(** ** A concrete arithmetic, for running the model

    Exact rationals extended with one point [Inf] standing for [np.inf];
    the 1-norm stands in for the Euclidean norm, which has no rational
    square root in general. *)

Module QFloat.
Inductive t : Type :=
| Fin (r : Q)
| Inf.

Definition lift2 (op : Q -> Q -> Q) (a c : t) : t :=
  match a, c with
  | Fin p, Fin r => Fin (op p r)
  | _, _ => Inf
  end.

Definition qdiv (a c : t) : t :=
  match a, c with
  | Fin p, Fin r => if Qeq_bool r 0 then Inf else Fin (Qdiv p r)
  | _, _ => Inf
  end.

Definition qlt (a c : t) : bool :=
  match a, c with
  | Fin p, Fin r => negb (Qle_bool r p)
  | Fin _, Inf => true
  | Inf, _ => false
  end.

Definition qne (a c : t) : bool :=
  match a, c with
  | Fin p, Fin r => negb (Qeq_bool p r)
  | Inf, Inf => false
  | _, _ => true
  end.

Definition qabs (a : t) : t :=
  match a with
  | Fin p => Fin (Qabs p)
  | Inf => Inf
  end.

Definition qnorm (v : list t) : t :=
  fold_left (fun acc a => lift2 Qplus acc (qabs a)) v (Fin 0%Q).

#[global] Instance ops : FloatOps t := {|
  fzero := Fin 0%Q;
  fone := Fin 1%Q;
  finf := Inf;
  fadd := lift2 Qplus;
  fsub := lift2 Qminus;
  fmul := lift2 Qmult;
  fdiv := qdiv;
  flt := qlt;
  fne := qne;
  of_nat := fun n => Fin (inject_Z (Z.of_nat n));
  norm := qnorm
|}.

Definition q (n : Z) (m : positive) : t := Fin (Qmake n m).

(** Least squares: [partial_gradient(p, b_i) = p - b_i]. *)
Definition squared_loss (A : csr_matrix t) (bs : list t) : Loss t :=
  {| loss_A := A; loss_b := bs; loss_alpha := q 0 1;
     loss_n_features := snd (shape A);
     lipschitz_constant := q 1 1;
     partial_gradient_factory := fun p bi => fsub p bi;
     loss_call := fun _ => q 0 1 |}.

(** A penalty that declares itself non-separable. *)
Definition group_penalty : Penalty t :=
  {| is_separable := false; prox_factory := fun v _ => v;
     penalty_call := fun _ => q 0 1 |}.

(** The 2 x 3 matrix [[1, 0, 2], [0, 3, 0]] in CSR form. *)
Definition A23 : csr_matrix t :=
  {| data := [q 1 1; q 2 1; q 3 1]; indices := [0; 2; 1]; indptr := [0; 2; 3];
     shape := (2, 3) |}.

Definition f23 : Loss t := squared_loss A23 [q 1 1; q 1 1].

(** The shuffle that leaves the order as it is. *)
Definition keep : nat -> list nat -> list nat := fun _ l => l.

Definition K23 : closure t :=
  match _factory_sparse_SAGA f23 DummyProx with
  | inr K => K
  | inl _ => mk_closure [] [] [] [] (q 0 1) [] 0 0 (fun p _ => p) (fun v _ => v)
  end.

Definition s23 : shared t :=
  mk_shared [q 0 1; q 0 1; q 0 1] [q 0 1; q 0 1] [q 0 1; q 0 1; q 0 1] false [].

(** A call on this instance: two jobs, no penalty, zero initial point. *)
Definition demo_setup (max_iter : Z) : M (launch t) :=
  setup f23 None None (q 1 10) 2 max_iter false.

Definition demo_launch (max_iter : Z) : launch t :=
  match snd (demo_setup max_iter) with
  | inr L => L
  | inl _ => mk_launch K23 (q 1 10) DummyProx (mk_pool s23 [])
  end.

(** The pool after the workers have been scheduled in the order [sched]. *)
Definition demo_pool (max_iter : Z) (sched : list nat) : pool t :=
  let L := demo_launch max_iter in
  run_schedule (l_kernel L) (fun _ => keep) (l_step_size L) max_iter (q 1 100) false
               sched (l_pool L).

(** The 2 x 4 matrix [[1, 0, 2, 0], [0, 3, 0, 0]]: no sample stores
    column 3. *)
Definition A24 : csr_matrix t :=
  {| data := [q 1 1; q 2 1; q 3 1]; indices := [0; 2; 1]; indptr := [0; 2; 3];
     shape := (2, 4) |}.

Definition f24 : Loss t := squared_loss A24 [q 1 1; q 1 1].

Definition K24 : closure t :=
  match _factory_sparse_SAGA f24 DummyProx with
  | inr K => K
  | inl _ => mk_closure [] [] [] [] (q 0 1) [] 0 0 (fun p _ => p) (fun v _ => v)
  end.

Definition s24 : shared t :=
  mk_shared [q 0 1; q 0 1; q 0 1; q 5 1] [q 0 1; q 0 1]
            [q 0 1; q 0 1; q 0 1; q 0 1] false [].

(** The buffers of [s23] with the stop flag already set. *)
Definition s23_stopped : shared t :=
  mk_shared [q 0 1; q 0 1; q 0 1] [q 0 1; q 0 1] [q 0 1; q 0 1; q 0 1] true [].

(** The buffers of [s23] with a trace buffer of three rows. *)
Definition s23_traced : shared t :=
  mk_shared [q 0 1; q 0 1; q 0 1] [q 0 1; q 0 1] [q 0 1; q 0 1; q 0 1] false
            (replicate 3 [q 0 1; q 0 1; q 0 1]).



(** Calls on the same instance with other arguments. *)
Definition call_setup (g : option (Penalty t)) (n_jobs max_iter : Z) (trace : bool)
    : M (launch t) :=
  setup f23 g None (q 1 10) n_jobs max_iter trace.

Definition call_launch (g : option (Penalty t)) (n_jobs max_iter : Z) (trace : bool)
    : launch t :=
  match snd (call_setup g n_jobs max_iter trace) with
  | inr L => L
  | inl _ => mk_launch K23 (q 1 10) DummyProx (mk_pool s23 [])
  end.

(** The pool of [demo_launch] scheduled with a tolerance [tol]. *)
Definition demo_pool_tol (max_iter : Z) (tol : t) (sched : list nat) : pool t :=
  let L := demo_launch max_iter in
  run_schedule (l_kernel L) (fun _ => keep) (l_step_size L) max_iter tol false
               sched (l_pool L).
End QFloat.

(** * Proofs *)

(** ** Ranges and slices *)

Lemma range_length lo hi : length (range lo hi) = hi - lo.
Proof. unfold range. apply length_seq. Qed.

Lemma range_snoc lo hi : lo <= hi -> range lo (S hi) = range lo hi ++ [hi].
Proof.
  intros Hle. unfold range.
  replace (S hi - lo) with (S (hi - lo)) by lia.
  rewrite seq_S. do 2 f_equal. lia.
Qed.

Lemma elem_of_range lo hi k : k ∈ range lo hi <-> lo <= k < hi.
Proof. unfold range. rewrite elem_of_seq. lia. Qed.

Lemma slice_length {A} (l : list A) lo hi :
  hi <= length l -> length (slice l lo hi) = hi - lo.
Proof. intros Hle. unfold slice. rewrite length_take, length_drop. lia. Qed.

(** A slice is the list of the entries at its positions. *)
Lemma slice_lookups {A} `{Inhabited A} (l : list A) lo hi :
  hi <= length l -> slice l lo hi = map (fun k => l !!! k) (range lo hi).
Proof.
  intros Hle. apply list_eq. intros i.
  unfold slice, range.
  destruct (decide (i < hi - lo)) as [Hlt|Hge].
  - rewrite lookup_take_lt, lookup_drop by lia.
    change (map ?f ?l) with (f <$> l).
    rewrite list_lookup_fmap, lookup_seq_lt by lia. simpl.
    rewrite list_lookup_total_alt.
    destruct (l !! (lo + i)) eqn:E; [reflexivity|].
    apply lookup_ge_None in E. lia.
  - rewrite lookup_take_ge by lia.
    change (map ?f ?l) with (f <$> l).
    rewrite list_lookup_fmap, lookup_seq_ge by lia. reflexivity.
Qed.

(** A slice only depends on the prefix that contains it. *)
Lemma slice_take {A} (l : list A) n lo hi :
  hi <= n -> slice (take n l) lo hi = slice l lo hi.
Proof.
  intros Hle. unfold slice. apply list_eq. intros i.
  destruct (decide (i < hi - lo)).
  - rewrite !lookup_take_lt, !lookup_drop by lia. apply lookup_take_lt. lia.
  - rewrite !lookup_take_ge by lia. reflexivity.
Qed.

Lemma slice_same_prefix {A} (l l' : list A) n lo hi :
  take n l = take n l' -> hi <= n -> slice l lo hi = slice l' lo hi.
Proof.
  intros Heq Hle. rewrite <- (slice_take l n), <- (slice_take l' n) by lia.
  by rewrite Heq.
Qed.

Lemma slice_middle {A} (l1 l2 l3 : list A) :
  slice (l1 ++ l2 ++ l3) (length l1) (length l1 + length l2) = l2.
Proof.
  unfold slice. rewrite drop_app_length.
  replace (length l1 + length l2 - length l1) with (length l2) by lia.
  apply take_app_length.
Qed.

(** ** First-occurrence deduplication *)

Lemma elem_of_dedup_first l a : a ∈ dedup_first l <-> a ∈ l.
Proof.
  induction l as [|c l IH]; simpl; [reflexivity|].
  rewrite !elem_of_cons, list_elem_of_filter, IH.
  destruct (decide (a = c)); tauto.
Qed.

Lemma NoDup_dedup_first l : NoDup (dedup_first l).
Proof.
  induction l as [|c l IH]; simpl; [constructor|].
  constructor.
  - rewrite list_elem_of_filter. intros [Hc _]. by apply Hc.
  - by apply NoDup_filter.
Qed.

Lemma dedup_first_snoc l a :
  dedup_first (l ++ [a]) =
  if bool_decide (a ∈ l) then dedup_first l else dedup_first l ++ [a].
Proof.
  induction l as [|c l IH]; simpl; [reflexivity|].
  rewrite IH. destruct (bool_decide_reflect (a ∈ l)) as [Hin|Hnin].
  - rewrite bool_decide_eq_true_2; [reflexivity|]. by right.
  - rewrite filter_app. destruct (decide (a = c)) as [->|Hne].
    + rewrite bool_decide_eq_true_2 by left.
      rewrite filter_cons_False by (intros Hc; by apply Hc). by rewrite filter_nil, app_nil_r.
    + rewrite bool_decide_eq_false_2.
      * by rewrite filter_cons_True, filter_nil.
      * rewrite elem_of_cons. tauto.
Qed.

Lemma dedup_first_length l : length (dedup_first l) <= length l.
Proof.
  induction l as [|c l IH]; simpl; [lia|].
  pose proof (length_filter (fun b => b ≠ c) (dedup_first l)). lia.
Qed.

(** ** The block-support builder *)

Lemma replicate_zero_lookup n i : replicate n 0 !!! i = 0.
Proof.
  destruct (decide (i < n)).
  - by apply lookup_total_replicate_2.
  - rewrite list_lookup_total_alt.
    destruct (replicate n 0 !! i) eqn:E; [|reflexivity].
    apply lookup_replicate in E. lia.
Qed.

Lemma fold_left_ext_in {A B} (f g : A -> B -> A) l a :
  (forall a b, b ∈ l -> f a b = g a b) -> fold_left f l a = fold_left g l a.
Proof.
  revert a. induction l as [|c l IH]; intros a Hfg; simpl; [reflexivity|].
  rewrite Hfg by left. apply IH. intros. apply Hfg. by right.
Qed.

Lemma mark_ext (P Q : Prop) `{Decision P, Decision Q} :
  (P <-> Q) -> (if bool_decide P then 1 else 0) = (if bool_decide Q then 1 else 0).
Proof. intros HPQ. by rewrite (bool_decide_ext P Q). Qed.

Section BuilderProofs.
Variables (A_indices A_indptr g_blocks : list nat) (n_blocks : nat).

Local Abbreviation block_at := (fun j => g_blocks !!! (A_indices !!! j)).
Local Abbreviation scan_entry := (Support.scan_entry A_indices g_blocks).
Local Abbreviation scan_row := (Support.scan_row A_indices A_indptr g_blocks).
Local Abbreviation cleanup_row := (Support.cleanup_row).
Local Abbreviation row_step := (Support.row_step A_indices A_indptr g_blocks).
Local Abbreviation after_rows := (Support.after_rows A_indices A_indptr g_blocks n_blocks).

(** The scan of a row that starts with no block marked appends the row's
    blocks, deduplicated in order of first occurrence, and marks them. *)
Lemma scan_entries_spec js st :
  Support.seen_blocks st = replicate n_blocks 0 ->
  Forall (fun j => block_at j < n_blocks) js ->
  Support.counter_indptr st + length js <= length (Support.BS_indices st) ->
  let c := Support.counter_indptr st in
  let row := dedup_first (map block_at js) in
  let st' := fold_left scan_entry js st in
  Support.counter_indptr st' = c + length row
  /\ Support.BS_indices st' =
       take c (Support.BS_indices st) ++ row
         ++ drop (c + length row) (Support.BS_indices st)
  /\ Support.BS_indptr st' = Support.BS_indptr st
  /\ length (Support.seen_blocks st') = n_blocks
  /\ forall blk, Support.seen_blocks st' !!! blk =
                 if bool_decide (blk ∈ map block_at js) then 1 else 0.
Proof.
  intros Hseen. induction js as [|j js IH] using rev_ind; intros Hblk Hroom; simpl.
  - rewrite Nat.add_0_r, take_drop, Hseen, length_replicate.
    repeat split; try reflexivity.
    intros blk.       apply replicate_zero_lookup.
  - apply Forall_app in Hblk as [Hblk Hj]. apply Forall_inv in Hj.
    rewrite length_app in Hroom. simpl in Hroom.
    destruct IH as (Hc & Hbs & Hptr & Hlen & Hmark); [done|lia|].
    rewrite fold_left_app, map_app. simpl. rewrite dedup_first_snoc.
    set (st1 := fold_left scan_entry js st) in *.
    pose proof (dedup_first_length (map block_at js)) as Hdl.
    rewrite length_map in Hdl.
    unfold Support.scan_entry at 1 2 3 4 5. rewrite Hmark.
    destruct (bool_decide_reflect (block_at j ∈ map block_at js)) as [Hin|Hnin]; simpl.
    + repeat split; try done.
      intros blk. rewrite Hmark. apply mark_ext. rewrite elem_of_app, list_elem_of_singleton.
      split; [tauto|]. intros [?| ->]; done.
    + rewrite length_app. simpl. repeat split.
      * lia.
      * rewrite Hbs, Hc.
        rewrite insert_app_r_alt by (rewrite length_take; lia).
        rewrite length_take_le by lia.
        rewrite insert_app_r_alt by lia.
        replace (_ + _ - _ - _) with 0 by lia.
        destruct (Support.BS_indices st !! (Support.counter_indptr st
                   + length (dedup_first (map block_at js)))) as [y|] eqn:E.
        2:{ apply lookup_ge_None in E. lia. }
        rewrite (drop_S _ _ _ E). simpl.
        rewrite <- app_assoc. simpl. do 3 f_equal. f_equal. lia.
      * done.
      * by rewrite length_insert.
      * intros blk. rewrite list_lookup_total_insert, Hmark.
        rewrite Hlen.
        destruct (decide (block_at j = blk)) as [<-|Hne].
        -- rewrite decide_True by done.
           rewrite bool_decide_eq_true_2; [done|].
           rewrite elem_of_app, list_elem_of_singleton. by right.
        -- rewrite decide_False by tauto.
           apply mark_ext. rewrite elem_of_app, list_elem_of_singleton.
           split; [tauto|]. intros [?|?]; [done|congruence].
Qed.

(** The cleanup loop resets the marks of the blocks it visits. *)
Lemma cleanup_entries_spec js st :
  let st' := fold_left Support.cleanup_entry js st in
  Support.BS_indices st' = Support.BS_indices st
  /\ Support.BS_indptr st' = Support.BS_indptr st
  /\ Support.counter_indptr st' = Support.counter_indptr st
  /\ length (Support.seen_blocks st') = length (Support.seen_blocks st)
  /\ forall blk, Support.seen_blocks st' !!! blk =
       if bool_decide (blk ∈ map (fun j => Support.BS_indices st !!! j) js)
       then 0 else Support.seen_blocks st !!! blk.
Proof.
  induction js as [|j js IH] using rev_ind; simpl.
  - repeat split; try reflexivity.
  - rewrite fold_left_app, map_app. simpl.
    destruct IH as (Hbs & Hptr & Hc & Hlen & Hmark).
    set (st1 := fold_left Support.cleanup_entry js st) in *.
    repeat split; try done.
    + by rewrite length_insert.
    + intros blk. rewrite list_lookup_total_insert, Hmark, Hbs.
      destruct (decide (Support.BS_indices st !!! j = blk)) as [<-|Hne].
      * rewrite (bool_decide_eq_true_2 (_ ∈ _ ++ _)).
        2:{ rewrite elem_of_app, list_elem_of_singleton. by right. }
        case_decide as Hd; [reflexivity|].
        case_bool_decide; [reflexivity|].
        rewrite list_lookup_total_alt.
        destruct (_ !! _) eqn:E; [|reflexivity].
        apply lookup_lt_Some in E. rewrite <- Hlen in E. tauto.
      * rewrite decide_False by tauto.
        destruct (bool_decide_reflect (blk ∈ map (fun j => Support.BS_indices st !!! j) js)).
        -- rewrite bool_decide_eq_true_2; [done|]. rewrite elem_of_app. by left.
        -- rewrite bool_decide_eq_false_2; [done|].
           rewrite elem_of_app, list_elem_of_singleton. intros [?|?]; [done|congruence].
Qed.

Lemma zeros_intro (l : list nat) n :
  length l = n -> (forall i, l !!! i = 0) -> l = replicate n 0.
Proof.
  intros Hlen Hz. apply (list_eq_same_length _ _ n); [by rewrite length_replicate|done|].
  intros i a c Hi Ha Hc. apply lookup_replicate in Hc as [-> _].
  specialize (Hz i). by rewrite (list_lookup_total_correct _ _ _ Ha) in Hz.
Qed.

(** One row: its deduplicated blocks are appended at the counter, the row
    pointer is recorded and the marks are zero again. *)
Lemma row_step_spec st i :
  Support.seen_blocks st = replicate n_blocks 0 ->
  Support.BS_indptr st !!! i = Support.counter_indptr st ->
  Forall (fun j => block_at j < n_blocks)
         (range (A_indptr !!! i) (A_indptr !!! (i + 1))) ->
  Support.counter_indptr st + (A_indptr !!! (i + 1) - A_indptr !!! i)
    <= length (Support.BS_indices st) ->
  let c := Support.counter_indptr st in
  let row := dedup_first (map block_at (range (A_indptr !!! i) (A_indptr !!! (i + 1)))) in
  let st' := row_step st i in
  Support.seen_blocks st' = replicate n_blocks 0
  /\ Support.counter_indptr st' = c + length row
  /\ Support.BS_indices st' =
       take c (Support.BS_indices st) ++ row
         ++ drop (c + length row) (Support.BS_indices st)
  /\ Support.BS_indptr st' = <[i + 1 := c + length row]> (Support.BS_indptr st).
Proof.
  intros Hseen Hptr Hblk Hroom c row st'.
  destruct (scan_entries_spec _ st Hseen Hblk) as (Hc1 & Hbs1 & Hptr1 & Hlen1 & Hmark1).
  { by rewrite range_length. }
  fold c row in Hc1, Hbs1.
  unfold st', Support.row_step, Support.cleanup_row.
  set (st2 := scan_row st i).
  assert (Support.BS_indices st2 = take c (Support.BS_indices st) ++ row
            ++ drop (c + length row) (Support.BS_indices st)) as Hbs2 by done.
  assert (Support.counter_indptr st2 = c + length row) as Hc2 by done.
  assert (Support.BS_indptr st2 = <[i + 1 := c + length row]> (Support.BS_indptr st)) as Hptr2.
  { unfold st2, Support.scan_row. simpl. by rewrite Hc1, Hptr1. }
  assert (Support.seen_blocks st2 = Support.seen_blocks
            (fold_left scan_entry (range (A_indptr !!! i) (A_indptr !!! (i + 1))) st))
    as Hseen2 by done.
  assert (Support.BS_indptr st2 !!! i = c) as Hlow.
  { rewrite Hptr2, list_lookup_total_insert_ne by lia. done. }
  rewrite Hlow, Hc2.
  destruct (cleanup_entries_spec (range c (c + length row)) st2)
    as (Hbs3 & Hptr3 & Hc3 & Hlen3 & Hmark3).
  assert (length row <= A_indptr !!! (i + 1) - A_indptr !!! i) as Hrl.
  { unfold row. etrans; [apply dedup_first_length|]. by rewrite length_map, range_length. }
  assert (map (fun j => Support.BS_indices st2 !!! j) (range c (c + length row)) = row)
    as Hvisited.
  { rewrite <- slice_lookups.
    2:{ rewrite Hbs2, !length_app, length_take, length_drop. lia. }
    rewrite Hbs2. replace c with (length (take c (Support.BS_indices st))) at 3 4.
    2:{ rewrite length_take. lia. }
    apply slice_middle. }
  rewrite Hvisited in Hmark3.
  repeat split.
  - apply zeros_intro; [by rewrite Hlen3, Hseen2|].
    intros blk. rewrite Hmark3, Hseen2, Hmark1.
    case_bool_decide as Hin; [reflexivity|].
    rewrite bool_decide_eq_false_2; [reflexivity|].
    intros Hin'. apply Hin. unfold row. by apply elem_of_dedup_first.
  - by rewrite Hc3.
  - by rewrite Hbs3.
  - by rewrite Hptr3.
Qed.
End BuilderProofs.

Lemma csr_wfb_spec indices indptr n_rows n_cols :
  csr_wfb indices indptr n_rows n_cols = true ->
  length indptr = n_rows + 1
  /\ (forall i, i < n_rows -> indptr !!! i <= indptr !!! (i + 1))
  /\ indptr !!! n_rows <= length indices
  /\ Forall (fun c => c < n_cols) indices.
Proof.
  unfold csr_wfb. rewrite !andb_true_iff, !forallb_forall, Nat.eqb_eq, Nat.leb_le.
  intros [[[Hlen Hmono] Hlast] Hcols]. repeat split; try done.
  - intros i Hi. apply Nat.leb_le, Hmono, list_elem_of_In, elem_of_range. lia.
  - apply Forall_forall. intros c Hc. apply Nat.ltb_lt, Hcols. by apply list_elem_of_In.
Qed.

Section CsrFacts.
Variables (indices indptr : list nat) (n_rows n_cols : nat).
Hypothesis Hwf : csr_wfb indices indptr n_rows n_cols = true.

Lemma indptr_mono i j : i <= j -> j <= n_rows -> indptr !!! i <= indptr !!! j.
Proof.
  destruct (csr_wfb_spec _ _ _ _ Hwf) as (_ & Hmono & _).
  induction j as [|j IH]; intros Hij Hj.
  - by replace i with 0 by lia.
  - destruct (decide (i = S j)) as [->|]; [done|].
    etrans; [apply IH; lia|]. replace (S j) with (j + 1) by lia. apply Hmono. lia.
Qed.

Lemma indptr_bound i : i <= n_rows -> indptr !!! i <= length indices.
Proof.
  destruct (csr_wfb_spec _ _ _ _ Hwf) as (_ & _ & Hlast & _).
  intros Hi. etrans; [by apply (indptr_mono i n_rows)|done].
Qed.

Lemma csr_row_lookups i :
  i < n_rows ->
  csr_row indices indptr i =
  map (fun k => indices !!! k) (range (indptr !!! i) (indptr !!! (i + 1))).
Proof. intros Hi. apply slice_lookups, indptr_bound. lia. Qed.

Lemma row_position_bound i k :
  i < n_rows -> k ∈ range (indptr !!! i) (indptr !!! (i + 1)) -> k < length indices.
Proof.
  intros Hi Hk. apply elem_of_range in Hk.
  pose proof (indptr_bound (i + 1)). lia.
Qed.

Lemma column_bound k : k < length indices -> indices !!! k < n_cols.
Proof.
  destruct (csr_wfb_spec _ _ _ _ Hwf) as (_ & _ & _ & Hcols).
  intros Hk. apply (Forall_lookup_total_1 _ _ _ Hcols Hk).
Qed.

Lemma csr_row_bound i c : i < n_rows -> c ∈ csr_row indices indptr i -> c < n_cols.
Proof.
  intros Hi. rewrite csr_row_lookups by done.
  intros Hc. apply list_elem_of_In, in_map_iff in Hc as (k & <- & Hk).
  apply column_bound, (row_position_bound i); [done|]. by apply list_elem_of_In.
Qed.
End CsrFacts.

Section BuilderInvariant.
Variables (A_indices A_indptr g_blocks : list nat) (n_rows n_cols n_blocks : nat).
Hypothesis Hwf : csr_wfb A_indices A_indptr n_rows n_cols = true.
Hypothesis Hg : forall c, c < n_cols -> g_blocks !!! c < n_blocks.

Local Abbreviation after_rows := (Support.after_rows A_indices A_indptr g_blocks n_blocks).
Local Abbreviation row_blocks := (block_row A_indices A_indptr g_blocks).

Lemma row_blocks_positions i :
  i < n_rows ->
  row_blocks i =
  dedup_first (map (fun j => g_blocks !!! (A_indices !!! j))
                   (range (A_indptr !!! i) (A_indptr !!! (i + 1)))).
Proof. intros Hi. unfold block_row. by rewrite (csr_row_lookups _ _ _ _ Hwf), map_map. Qed.

Lemma after_rows_S k :
  after_rows (S k) = Support.row_step A_indices A_indptr g_blocks (after_rows k) k.
Proof.
  unfold Support.after_rows. rewrite range_snoc by lia. by rewrite fold_left_app.
Qed.

(** What holds at every row boundary of the scan. *)
Lemma after_rows_inv k :
  k <= n_rows ->
  let st := after_rows k in
  Support.seen_blocks st = replicate n_blocks 0
  /\ length (Support.BS_indices st) = length A_indices
  /\ length (Support.BS_indptr st) = length A_indptr
  /\ Support.counter_indptr st <= A_indptr !!! k
  /\ Support.BS_indptr st !!! k = Support.counter_indptr st
  /\ Support.BS_indptr st !!! 0 = 0
  /\ forall i, i < k ->
       Support.BS_indptr st !!! i <= Support.BS_indptr st !!! (i + 1)
       /\ Support.BS_indptr st !!! (i + 1) <= Support.counter_indptr st
       /\ slice (Support.BS_indices st) (Support.BS_indptr st !!! i)
                (Support.BS_indptr st !!! (i + 1)) = row_blocks i.
Proof.
  destruct (csr_wfb_spec _ _ _ _ Hwf) as (Hlen & Hmono & Hlast & Hcols).
  induction k as [|k IH]; intros Hk.
  - simpl. rewrite length_replicate, length_insert, length_replicate.
    repeat split; try done; try lia.
    + rewrite list_lookup_total_insert_eq; [done|]. rewrite length_replicate. lia.
    + rewrite list_lookup_total_insert_eq; [done|]. rewrite length_replicate. lia.
  - destruct IH as (Hseen & Hlbs & Hlptr & Hc & Hptr & Hzero & Hrows); [lia|].
    intros st. unfold st. rewrite after_rows_S.
    set (st0 := after_rows k) in *.
    pose proof (Hmono k ltac:(lia)) as Hlowhigh.
    pose proof (indptr_bound _ _ _ _ Hwf (k + 1) ltac:(lia)) as Hhigh.
    destruct (row_step_spec A_indices A_indptr g_blocks n_blocks st0 k)
      as (Hseen' & Hc' & Hbs' & Hptr'); try done.
    { apply Forall_forall. intros j Hj. apply Hg, (column_bound _ _ _ _ Hwf).
      apply (row_position_bound _ _ _ _ Hwf k); [lia|done]. }
    { lia. }
    rewrite <- row_blocks_positions in Hc', Hbs', Hptr' by lia.
    set (row := row_blocks k) in *.
    assert (length row <= A_indptr !!! (k + 1) - A_indptr !!! k) as Hrl.
    { unfold row. rewrite row_blocks_positions by lia.
      etrans; [apply dedup_first_length|]. by rewrite length_map, range_length. }
    set (c := Support.counter_indptr st0) in *.
    assert (take c (Support.BS_indices
              (Support.row_step A_indices A_indptr g_blocks st0 k))
            = take c (Support.BS_indices st0)) as Hpre.
    { rewrite Hbs'. rewrite take_app_le by (rewrite length_take; lia).
      rewrite take_take. f_equal. lia. }
    repeat split.
    + done.
    + rewrite Hbs', !length_app, length_take, length_drop. lia.
    + by rewrite Hptr', length_insert.
    + replace (S k) with (k + 1) by lia. lia.
    + rewrite Hptr', Hc'. replace (S k) with (k + 1) by lia.
      apply list_lookup_total_insert_eq. lia.
    + rewrite Hptr', list_lookup_total_insert_ne by lia. done.
    + destruct (decide (i = k)) as [->|Hne].
      * rewrite Hptr', list_lookup_total_insert_ne, list_lookup_total_insert_eq by lia. lia.
      * rewrite Hptr', !list_lookup_total_insert_ne by lia.
        apply (Hrows i). lia.
    + destruct (decide (i = k)) as [->|Hne].
      * rewrite Hptr', list_lookup_total_insert_eq by lia. lia.
      * rewrite Hptr', !list_lookup_total_insert_ne by lia.
        destruct (Hrows i) as (_ & ? & _); lia.
    + destruct (decide (i = k)) as [->|Hne].
      * rewrite Hptr', list_lookup_total_insert_ne, list_lookup_total_insert_eq by lia.
        rewrite Hptr, Hbs'.
        replace c with (length (take c (Support.BS_indices st0))) at 3 4.
        2:{ rewrite length_take. lia. }
        apply slice_middle.
      * rewrite Hptr', !list_lookup_total_insert_ne by lia.
        destruct (Hrows i) as (? & ? & <-); [lia|].
        apply (slice_same_prefix _ _ c); [done|lia].
Qed.
End BuilderInvariant.

Lemma blocks_wfb_spec g_blocks n_cols n_blocks :
  blocks_wfb g_blocks n_cols n_blocks = true ->
  forall c, c < n_cols -> g_blocks !!! c < n_blocks.
Proof.
  unfold blocks_wfb. rewrite andb_true_iff, forallb_forall, Nat.leb_le.
  intros [Hlen Hall] c Hc. apply Nat.ltb_lt, Hall, list_elem_of_In.
  apply list_elem_of_lookup_total_2. lia.
Qed.

Lemma blocks_wfb_identity n : blocks_wfb (seq 0 n) n n = true.
Proof.
  unfold blocks_wfb. rewrite andb_true_iff, forallb_forall, Nat.leb_le, length_seq.
  split; [done|]. intros c Hc. apply Nat.ltb_lt. apply in_seq in Hc. lia.
Qed.

Section BuilderResult.
Variables (A_indices A_indptr g_blocks : list nat) (n_rows n_cols n_blocks : nat).
Hypothesis Hwf : csr_wfb A_indices A_indptr n_rows n_cols = true.
Hypothesis Hg : blocks_wfb g_blocks n_cols n_blocks = true.

Local Abbreviation final := (Support.final A_indices A_indptr g_blocks n_blocks).

Lemma final_after_rows :
  final = Support.after_rows A_indices A_indptr g_blocks n_blocks n_rows.
Proof.
  destruct (csr_wfb_spec _ _ _ _ Hwf) as (Hlen & _).
  unfold Support.final. f_equal. lia.
Qed.

(** The arrays the builder returns, for any block mapping. *)
Lemma final_spec :
  let BS_indices := take (Support.counter_indptr final) (Support.BS_indices final) in
  let BS_indptr := Support.BS_indptr final in
  length BS_indices = Support.counter_indptr final
  /\ length BS_indptr = n_rows + 1
  /\ BS_indptr !!! 0 = 0
  /\ BS_indptr !!! n_rows = length BS_indices
  /\ forall i, i < n_rows ->
       BS_indptr !!! i <= BS_indptr !!! (i + 1)
       /\ BS_indptr !!! (i + 1) <= length BS_indices
       /\ csr_row BS_indices BS_indptr i = block_row A_indices A_indptr g_blocks i.
Proof.
  destruct (csr_wfb_spec _ _ _ _ Hwf) as (Hlen & _).
  pose proof (blocks_wfb_spec _ _ _ Hg) as Hg'.
  rewrite final_after_rows.
  destruct (after_rows_inv _ _ _ _ _ _ Hwf Hg' n_rows)
    as (Hseen & Hlbs & Hlptr & Hc & Hptr & Hzero & Hrows); [done|].
  pose proof (indptr_bound _ _ _ _ Hwf n_rows ltac:(lia)) as Hb.
  simpl. rewrite length_take_le by lia.
  repeat split; try done; try lia.
  - by apply Hrows.
  - by apply Hrows.
  - unfold csr_row. rewrite slice_take; by apply Hrows.
Qed.
End BuilderResult.

(** ** Theorems on the block-support builder *)

(** C2. For the identity block mapping over [n_features] features and any
    well-formed CSR index structure, the builder returns all-one data, row
    pointers that delimit the rows, and in row [i] exactly the distinct
    column indices stored in row [i] of [A], without duplicates, in order
    of first occurrence. *)
Theorem support_matrix_identity_rows `{FloatOps F}
    (A_indices A_indptr : list nat) (n_rows n_features : nat) :
  csr_wfb A_indices A_indptr n_rows n_features = true ->
  let '(BS_data, BS_indices, BS_indptr) :=
    _support_matrix (F:=F) A_indices A_indptr (seq 0 n_features) n_features in
  BS_data = replicate (length BS_indices) fone
  /\ length BS_indptr = n_rows + 1
  /\ BS_indptr !!! 0 = 0
  /\ BS_indptr !!! n_rows = length BS_indices
  /\ forall i, i < n_rows ->
       BS_indptr !!! i <= BS_indptr !!! (i + 1)
       /\ csr_row BS_indices BS_indptr i = dedup_first (csr_row A_indices A_indptr i)
       /\ NoDup (csr_row BS_indices BS_indptr i)
       /\ forall c, c ∈ csr_row BS_indices BS_indptr i <-> c ∈ csr_row A_indices A_indptr i.
Proof.
  intros Hwf. unfold _support_matrix.
  destruct (final_spec _ _ _ _ _ _ Hwf (blocks_wfb_identity n_features))
    as (Hlen & Hlptr & Hzero & Hlast & Hrows).
  assert (forall i, i < n_rows ->
            block_row A_indices A_indptr (seq 0 n_features) i
            = dedup_first (csr_row A_indices A_indptr i)) as Hid.
  { intros i Hi. unfold block_row. f_equal.
    rewrite <- (map_id (csr_row A_indices A_indptr i)) at 2.
    apply map_ext_in. intros c Hc. apply lookup_total_seq_lt.
    apply (csr_row_bound _ _ _ _ Hwf i); [done|]. by apply list_elem_of_In. }
  repeat split; try done.
  - by rewrite Hlen.
  - by apply Hrows.
  - destruct (Hrows i) as (_ & _ & ->); [done|]. by apply Hid.
  - destruct (Hrows i) as (_ & _ & ->); [done|]. rewrite Hid by done.
    apply NoDup_dedup_first.
  - destruct (Hrows i) as (_ & _ & ->); [done|]. rewrite Hid by done.
    apply elem_of_dedup_first.
  - destruct (Hrows i) as (_ & _ & ->); [done|]. rewrite Hid by done.
    apply elem_of_dedup_first.
Qed.

(** C8. For every well-formed input of the builder (any block mapping into
    [n_blocks] blocks), the marker array [seen_blocks] is all zeros at every
    row boundary of the scan and when the builder returns; the cleanup loop
    of row [k] that restores it visits one entry per distinct block of the
    row, not the [n_blocks] markers. *)
Theorem seen_blocks_restored
    (A_indices A_indptr g_blocks : list nat) (n_rows n_cols n_blocks : nat) :
  csr_wfb A_indices A_indptr n_rows n_cols = true ->
  blocks_wfb g_blocks n_cols n_blocks = true ->
  Support.seen_blocks (Support.final A_indices A_indptr g_blocks n_blocks)
    = replicate n_blocks 0
  /\ (forall k, k <= n_rows ->
        Support.seen_blocks (Support.after_rows A_indices A_indptr g_blocks n_blocks k)
          = replicate n_blocks 0)
  /\ (forall k, k < n_rows ->
        let st := Support.scan_row A_indices A_indptr g_blocks
                    (Support.after_rows A_indices A_indptr g_blocks n_blocks k) k in
        length (range (Support.BS_indptr st !!! k) (Support.counter_indptr st))
          = length (block_row A_indices A_indptr g_blocks k)
        /\ length (block_row A_indices A_indptr g_blocks k)
             <= length (csr_row A_indices A_indptr k)).
Proof.
  intros Hwf Hg. pose proof (blocks_wfb_spec _ _ _ Hg) as Hg'.
  assert (forall k, k <= n_rows ->
            Support.seen_blocks (Support.after_rows A_indices A_indptr g_blocks n_blocks k)
              = replicate n_blocks 0) as Hrows.
  { intros k Hk. by destruct (after_rows_inv _ _ _ _ _ _ Hwf Hg' k Hk) as (? & _). }
  split; [|split].
  - rewrite (final_after_rows _ _ _ _ _ _ Hwf). by apply Hrows.
  - done.
  - intros k Hk st.
    destruct (after_rows_inv _ _ _ _ _ _ Hwf Hg' k ltac:(lia))
      as (Hseen & Hlbs & _ & Hc & Hptr & _ & _).
    destruct (after_rows_inv _ _ _ _ _ _ Hwf Hg' (S k) ltac:(lia))
      as (_ & Hlbs' & _ & Hc' & Hptr' & _ & Hslices).
    destruct (Hslices k ltac:(lia)) as (Hle & _ & Hslice).
    rewrite after_rows_S in Hlbs', Hc', Hptr', Hle, Hslice.
    unfold Support.row_step, Support.cleanup_row in Hlbs', Hc', Hptr', Hle, Hslice.
    fold st in Hlbs', Hc', Hptr', Hle, Hslice.
    destruct (cleanup_entries_spec
                (range (Support.BS_indptr st !!! k) (Support.counter_indptr st)) st)
      as (Hbs3 & Hptr3 & Hc3 & _).
    rewrite Hbs3 in Hlbs', Hslice. rewrite Hptr3 in Hptr', Hle, Hslice.
    rewrite Hc3 in Hc', Hptr'.
    replace (S k) with (k + 1) in Hptr', Hc' by lia.
    pose proof (indptr_bound _ _ _ _ Hwf (k + 1) ltac:(lia)) as Hb.
    split.
    + rewrite range_length, <- Hslice, slice_length by lia. lia.
    + unfold block_row. etrans; [apply dedup_first_length|]. by rewrite length_map.
Qed.

(** ** The degree vector *)

Lemma positions_all {A} `{Inhabited A} (l : list A) :
  map (fun k => l !!! k) (range 0 (length l)) = l.
Proof.
  rewrite <- slice_lookups by done. unfold slice. simpl.
  rewrite Nat.sub_0_r. by apply take_ge.
Qed.

Lemma fold_left_over_map {A B C} (f : A -> B -> A) (g : C -> B) l a :
  fold_left f (map g l) a = fold_left (fun a c => f a (g c)) l a.
Proof. revert a. induction l as [|c l IH]; intros a; simpl; [reflexivity|apply IH]. Qed.

Lemma occurrences_snoc j l c :
  occurrences j (l ++ [c]) = occurrences j l + (if decide (c = j) then 1 else 0).
Proof.
  unfold occurrences. rewrite filter_app, length_app. f_equal.
  rewrite filter_cons, filter_nil. by case_decide.
Qed.

Section ColumnSums.
Context `{CountLaws F}.

(** Column sums of an all-ones CSR matrix count the stored entries. *)
Lemma csr_sum0_ones n_cols ind :
  length (csr_sum0 n_cols (replicate (length ind) fone) ind) = n_cols
  /\ forall j, j < n_cols ->
       csr_sum0 n_cols (replicate (length ind) fone) ind !!! j
       = of_nat (occurrences j ind).
Proof.
  unfold csr_sum0.
  rewrite (fold_left_ext_in _
             (fun acc k => (fun acc j => <[j := fadd (acc !!! j) fone]> acc)
                             acc (ind !!! k))).
  2:{ intros acc k Hk. apply elem_of_range in Hk. simpl.
      by rewrite lookup_total_replicate_2 by lia. }
  rewrite <- (fold_left_over_map
                (fun acc j => <[j := fadd (acc !!! j) fone]> acc)
                (fun k => ind !!! k)).
  rewrite positions_all.
  induction ind as [|c ind IH] using rev_ind; simpl.
  - rewrite length_replicate. split; [done|]. intros j Hj.
    rewrite lookup_total_replicate_2 by done. symmetry. apply of_nat_zero.
  - destruct IH as [Hlen Hsum]. rewrite fold_left_app. simpl.
    rewrite length_insert. split; [done|]. intros j Hj.
    rewrite occurrences_snoc, list_lookup_total_insert.
    case_decide as Hc.
    + destruct Hc as [-> _]. rewrite decide_True by done.
      rewrite Hsum by done. rewrite of_nat_succ. f_equal. lia.
    + destruct (decide (c = j)) as [->|Hne].
      * rewrite Hlen in Hc. tauto.
      * rewrite Hsum by done. f_equal. lia.
Qed.
End ColumnSums.

(** A list cut by non-decreasing pointers is the concatenation of its rows. *)
Lemma rows_concat (l p : list nat) n :
  p !!! 0 = 0 ->
  (forall i, i < n -> p !!! i <= p !!! (i + 1)) ->
  forall k, k <= n -> take (p !!! k) l = concat (map (csr_row l p) (range 0 k)).
Proof.
  intros Hz Hmono. induction k as [|k IH]; intros Hk.
  - rewrite Hz. reflexivity.
  - rewrite range_snoc, map_app, concat_app by lia. simpl.
    rewrite <- IH, app_nil_r by lia. unfold csr_row, slice.
    rewrite take_take_drop. f_equal.
    replace (S k) with (k + 1) by lia. pose proof (Hmono k). lia.
Qed.

(** In a concatenation of duplicate-free rows, an element occurs once per
    row that contains it. *)
Lemma occurrences_concat (f : nat -> list nat) (j : nat) (rows : list nat) :
  (forall i, i ∈ rows -> NoDup (f i)) ->
  occurrences j (concat (map f rows)) = length (filter (fun i => j ∈ f i) rows).
Proof.
  induction rows as [|i rows IH]; intros Hnd; [reflexivity|].
  simpl. unfold occurrences in *. rewrite filter_app, length_app, filter_cons.
  rewrite IH by (intros; apply Hnd; by right). clear IH.
  assert (length (filter (fun c => c = j) (f i)) = if decide (j ∈ f i) then 1 else 0) as ->.
  { specialize (Hnd i ltac:(left)). induction Hnd as [|c l Hnin Hnd IH].
    - rewrite decide_False by apply not_elem_of_nil. reflexivity.
    - rewrite filter_cons. destruct (decide (c = j)) as [->|Hne].
      + rewrite decide_True by left. simpl. f_equal.
        rewrite decide_False in IH by done. done.
      + rewrite IH. destruct (decide (j ∈ l)) as [Hin|Hnin'].
        * rewrite decide_True by (by right). done.
        * rewrite decide_False; [done|]. rewrite elem_of_cons. intros [?|?]; congruence. }
  case_decide; simpl; lia.
Qed.

Lemma filter_iff_in {A} (P Q : A -> Prop) `{forall a, Decision (P a)}
    `{forall a, Decision (Q a)} (l : list A) :
  (forall a, a ∈ l -> P a <-> Q a) -> filter P l = filter Q l.
Proof.
  induction l as [|a l IH]; intros HPQ; [reflexivity|].
  rewrite !filter_cons. rewrite IH by (intros; apply HPQ; by right).
  specialize (HPQ a ltac:(left)). repeat case_decide; tauto.
Qed.

Lemma lookup_total_map {A B} `{Inhabited A, Inhabited B} (f : A -> B) l i :
  i < length l -> map f l !!! i = f (l !!! i).
Proof.
  intros Hi. rewrite !list_lookup_total_alt. change (map f l) with (f <$> l).
  rewrite list_lookup_fmap. destruct (l !! i) eqn:E; [done|].
  apply lookup_ge_None in E. lia.
Qed.

Lemma remove_dups_seq s n : remove_dups (seq s n) = seq s n.
Proof.
  revert s. induction n as [|n IH]; intros s; simpl; [reflexivity|].
  rewrite IH. destruct (decide_rel elem_of s (seq (S s) n)) as [Hin|]; [|reflexivity].
  apply elem_of_seq in Hin. lia.
Qed.

Section Degree.
Context `{CountLaws F}.
Variables (A : csr_matrix F) (g_blocks : list nat) (n_rows n_cols n_blocks : nat).
Hypothesis Hshape : shape A = (n_rows, n_cols).
Hypothesis Hwf : csr_wfb (indices A) (indptr A) n_rows n_cols = true.
Hypothesis Hg : blocks_wfb g_blocks n_cols n_blocks = true.

Lemma touch_count_le j : touch_count (indices A) (indptr A) g_blocks n_rows j <= n_rows.
Proof.
  unfold touch_count. etrans; [apply length_filter|]. by rewrite range_length, Nat.sub_0_r.
Qed.

(** Entry [j] of the degree vector, by the number of rows that touch
    block [j]. *)
Lemma degree_vector_lookup :
  length (degree_vector A g_blocks n_blocks) = n_blocks
  /\ forall j, j < n_blocks ->
       degree_vector A g_blocks n_blocks !!! j =
       match touch_count (indices A) (indptr A) g_blocks n_rows j with
       | 0 => fzero
       | S k => fdiv (of_nat n_rows) (of_nat (S k))
       end.
Proof.
  unfold degree_vector, _support_matrix. rewrite Hshape. simpl.
  destruct (final_spec _ _ _ _ _ _ Hwf Hg) as (Hlen & Hlptr & Hzero & Hlast & Hrows).
  set (st := Support.final (indices A) (indptr A) g_blocks n_blocks) in *.
  set (BS_indices := take (Support.counter_indptr st) (Support.BS_indices st)) in *.
  rewrite <- Hlen.
  destruct (csr_sum0_ones n_blocks BS_indices) as [Hslen Hsum].
  unfold degree. rewrite length_map. split; [done|]. intros j Hj.
  rewrite lookup_total_map by lia. rewrite Hsum by done.
  assert (occurrences j BS_indices
          = touch_count (indices A) (indptr A) g_blocks n_rows j) as ->.
  { rewrite <- (take_ge BS_indices (Support.BS_indptr st !!! n_rows)) at 1 by lia.
    rewrite (rows_concat _ _ n_rows) by (try done; intros; by apply Hrows).
    rewrite (map_ext_in _ (block_row (indices A) (indptr A) g_blocks)).
    2:{ intros i Hi. apply in_seq in Hi. apply Hrows. lia. }
    rewrite occurrences_concat by (intros; apply NoDup_dedup_first).
    unfold touch_count. f_equal. apply filter_iff_in.
    intros i _. apply elem_of_dedup_first. }
  destruct (touch_count _ _ _ _ _) as [|k].
  - by rewrite of_nat_zero, fne_zero.
  - by rewrite fne_count.
Qed.
End Degree.

Lemma touch_count_identity indices indptr n_rows n_cols j :
  csr_wfb indices indptr n_rows n_cols = true ->
  touch_count indices indptr (seq 0 n_cols) n_rows j
  = length (samples_touching indices indptr n_rows j).
Proof.
  intros Hwf. unfold touch_count, samples_touching. f_equal.
  apply filter_iff_in. intros i Hi. apply elem_of_range in Hi.
  rewrite (map_ext_in _ id), map_id; [done|].
  intros c Hc. apply lookup_total_seq_lt.
  apply (csr_row_bound _ _ _ _ Hwf i); [lia|]. by apply list_elem_of_In.
Qed.

(** C3. For a separable penalty and a well-formed CSR matrix, the kernel
    factory returns a kernel whose degree vector has one entry per feature,
    with [d[j] == 0] exactly when no sample stores column [j], and
    [d[j] = n_samples / (number of samples that store column j)] otherwise
    (floats counting exactly). *)
Theorem factory_degree_vector `{CountLaws F} (f : Loss F) (g : Penalty F)
    (n_samples n_features : nat) :
  shape (loss_A f) = (n_samples, n_features) ->
  csr_wfb (indices (loss_A f)) (indptr (loss_A f)) n_samples n_features = true ->
  is_separable g = true ->
  exists K, _factory_sparse_SAGA f g = inr K
    /\ length (d K) = n_features
    /\ forall j, j < n_features ->
         let touching :=
           length (samples_touching (indices (loss_A f)) (indptr (loss_A f)) n_samples j) in
         (fne (d K !!! j) fzero = false <-> touching = 0)
         /\ (touching <> 0 -> d K !!! j = fdiv (of_nat n_samples) (of_nat touching)).
Proof.
  intros Hshape Hwf Hsep. unfold _factory_sparse_SAGA.
  rewrite Hshape, Hsep, remove_dups_seq, length_seq.
  rewrite bool_decide_eq_true_2 by done.
  eexists. split; [reflexivity|]. simpl.
  destruct (degree_vector_lookup (loss_A f) (seq 0 n_features) n_samples n_features
              n_features Hshape Hwf (blocks_wfb_identity n_features)) as [Hlen Hd].
  split; [done|]. intros j Hj.
  rewrite Hd by done.
  pose proof (touch_count_le (loss_A f) (seq 0 n_features) n_samples j) as Hle.
  rewrite (touch_count_identity _ _ _ _ _ Hwf) in *.
  destruct (length (samples_touching _ _ _ _)) as [|k].
  - split; [|done]. split; [done|]. intros _. apply fne_zero.
  - split; [|done]. rewrite fne_ratio by lia. split; [done|lia].
Qed.

(** ** The per-sample update *)

Lemma zip_maps {A B C} (f : A -> B) (g : A -> C) (l : list A) :
  zip (map f l) (map g l) = map (fun k => (f k, g k)) l.
Proof. induction l as [|k l IH]; simpl; [reflexivity|by rewrite IH]. Qed.

(** A loop that rewrites one entry per step, at pairwise distinct
    positions, rewrites every visited entry from its initial value. *)
Lemma fold_insert_pointwise {V E} `{Inhabited V} (upd : nat -> E -> V -> V)
    (entries : list (nat * E)) (l : list V) :
  NoDup (map fst entries) ->
  (forall j a, (j, a) ∈ entries -> j < length l) ->
  let l' := fold_left (fun l '(j, a) => <[j := upd j a (l !!! j)]> l) entries l in
  length l' = length l
  /\ (forall j a, (j, a) ∈ entries -> l' !!! j = upd j a (l !!! j))
  /\ (forall j, j ∉ map fst entries -> l' !!! j = l !!! j).
Proof.
  revert l. induction entries as [|[j a] entries IH]; intros l Hnd Hlt; simpl.
  - repeat split; try done. intros j a Hin. by apply not_elem_of_nil in Hin.
  - simpl in Hnd. apply NoDup_cons in Hnd as [Hnin Hnd].
    destruct (IH (<[j := upd j a (l !!! j)]> l) Hnd) as (Hlen & Hvis & Hframe).
    { intros j' a' Hin. rewrite length_insert. apply (Hlt j' a'). by right. }
    rewrite length_insert in Hlen.
    assert (j < length l) as Hj by (apply (Hlt j a); left).
    repeat split.
    + done.
    + intros j' a' Hin. apply elem_of_cons in Hin as [Heq|Hin].
      * injection Heq as -> ->. rewrite Hframe by done.
        by apply list_lookup_total_insert_eq.
      * rewrite (Hvis _ _ Hin).
        assert (j ≠ j') as Hne.
        { intros ->. apply Hnin. apply list_elem_of_In, in_map_iff.
          exists (j', a'). split; [done|]. by apply list_elem_of_In. }
        by rewrite list_lookup_total_insert_ne.
    + intros j' Hnin'. apply not_elem_of_cons in Hnin' as [Hne Hnin'].
      rewrite Hframe by done. by rewrite list_lookup_total_insert_ne.
Qed.

Lemma kernel_wfb_spec {F} (K : closure F) :
  kernel_wfb K = true ->
  csr_wfb (A_indices K) (A_indptr K) (n_samples K) (n_features K) = true
  /\ length (A_data K) = length (A_indices K).
Proof. unfold kernel_wfb. rewrite andb_true_iff, Nat.eqb_eq. tauto. Qed.

Lemma buffers_okb_spec {F} (K : closure F) (s : shared F) :
  buffers_okb K s = true <->
  length (x s) = n_features K /\ length (gradient_average s) = n_features K
  /\ length (memory_gradient s) = n_samples K.
Proof. unfold buffers_okb. rewrite !andb_true_iff, !Nat.eqb_eq. tauto. Qed.

Section RowEntries.
Context `{FloatOps F}.
Variable K : closure F.
Hypothesis HK : kernel_wfb K = true.

Lemma row_entries_positions i :
  i < n_samples K ->
  row_entries K i =
  map (fun k => (A_indices K !!! k, A_data K !!! k)) (row_positions K i).
Proof.
  destruct (kernel_wfb_spec K HK) as [Hwf Hdata]. intros Hi.
  unfold row_entries, row_positions.
  rewrite (csr_row_lookups _ _ _ _ Hwf) by done.
  rewrite slice_lookups.
  2:{ rewrite Hdata. apply (indptr_bound _ _ _ _ Hwf). lia. }
  apply zip_maps.
Qed.

Lemma row_entries_columns i :
  i < n_samples K ->
  map fst (row_entries K i) = csr_row (A_indices K) (A_indptr K) i.
Proof.
  destruct (kernel_wfb_spec K HK) as [Hwf Hdata]. intros Hi.
  rewrite row_entries_positions, (csr_row_lookups _ _ _ _ Hwf), map_map by done.
  reflexivity.
Qed.

Lemma row_entries_bound i j a :
  i < n_samples K -> (j, a) ∈ row_entries K i -> j < n_features K.
Proof.
  destruct (kernel_wfb_spec K HK) as [Hwf Hdata]. intros Hi Hin.
  apply (csr_row_bound _ _ _ _ Hwf i); [done|].
  rewrite <- row_entries_columns by done.
  apply list_elem_of_In, in_map_iff. exists (j, a). split; [done|].
  by apply list_elem_of_In.
Qed.

Lemma predict_row_dot xs i : i < n_samples K -> predict K xs i = row_dot K xs i.
Proof.
  intros Hi. unfold predict, row_dot. rewrite row_entries_positions by done.
  by rewrite fold_left_over_map.
Qed.
End RowEntries.

Lemma fold_left_length {V B} (f : list V -> B -> list V) (bs : list B) (l : list V) :
  (forall l b, length (f l b) = length l) -> length (fold_left f bs l) = length l.
Proof.
  intros Hf. revert l. induction bs as [|c bs IH]; intros l; simpl; [done|].
  by rewrite IH, Hf.
Qed.

Section SampleUpdate.
Context `{FloatOps F}.
Variable K : closure F.
Variable step_size : F.

(** The update keeps the sizes of the buffers, whatever the row holds. *)
Lemma sample_update_lengths s i :
  length (x (sample_update K step_size s i)) = length (x s)
  /\ length (gradient_average (sample_update K step_size s i))
     = length (gradient_average s)
  /\ length (memory_gradient (sample_update K step_size s i))
     = length (memory_gradient s).
Proof.
  unfold sample_update. simpl. repeat split.
  - apply fold_left_length. intros. unfold update_coefficient. apply length_insert.
  - apply fold_left_length. intros. unfold update_average. apply length_insert.
  - apply length_insert.
Qed.

Lemma sample_updates_lengths order s :
  length (x (fold_left (sample_update K step_size) order s)) = length (x s)
  /\ length (gradient_average (fold_left (sample_update K step_size) order s))
     = length (gradient_average s)
  /\ length (memory_gradient (fold_left (sample_update K step_size) order s))
     = length (memory_gradient s).
Proof.
  revert s. induction order as [|i order IH]; intros s; simpl; [done|].
  destruct (IH (sample_update K step_size s i)) as (-> & -> & ->).
  apply sample_update_lengths.
Qed.

Lemma sample_updates_buffers order s :
  buffers_okb K s = true ->
  buffers_okb K (fold_left (sample_update K step_size) order s) = true.
Proof.
  rewrite !buffers_okb_spec.
  destruct (sample_updates_lengths order s) as (-> & -> & ->). done.
Qed.

Lemma sample_updates_flag order s :
  stop_flag (fold_left (sample_update K step_size) order s) = stop_flag s
  /\ trace_x (fold_left (sample_update K step_size) order s) = trace_x s.
Proof.
  revert s. induction order as [|i order IH]; intros s; simpl; [done|].
  destruct (IH (sample_update K step_size s i)) as (-> & ->). done.
Qed.

Hypothesis HK : kernel_wfb K = true.

(** One visit of sample [i], entry by entry. *)
Lemma sample_update_pointwise s i :
  buffers_okb K s = true ->
  i < n_samples K ->
  NoDup (csr_row (A_indices K) (A_indptr K) i) ->
  let grad_i := partial_gradient K (row_dot K (x s) i) (b K !!! i) in
  let mem_i := memory_gradient s !!! i in
  let s' := sample_update K step_size s i in
  (forall j a, (j, a) ∈ row_entries K i ->
     x s' !!! j = prox_step K step_size grad_i mem_i (gradient_average s) j a (x s !!! j)
     /\ gradient_average s' !!! j =
          fadd (gradient_average s !!! j)
               (fdiv (fmul (fsub grad_i mem_i) a) (of_nat (n_samples K))))
  /\ (forall j, j ∉ csr_row (A_indices K) (A_indptr K) i ->
        x s' !!! j = x s !!! j /\ gradient_average s' !!! j = gradient_average s !!! j)
  /\ memory_gradient s' = <[i := grad_i]> (memory_gradient s)
  /\ stop_flag s' = stop_flag s
  /\ trace_x s' = trace_x s.
Proof.
  intros Hbuf Hi Hnd grad_i mem_i s'.
  apply buffers_okb_spec in Hbuf as (Hlx & Hlga & Hlmem).
  rewrite <- (row_entries_columns K HK) in Hnd |- * by done.
  assert (x s' = fold_left (fun l '(j, a) =>
                    <[j := prox_step K step_size grad_i mem_i (gradient_average s) j a
                                     (l !!! j)]> l)
                 (row_entries K i) (x s)) as Hx.
  { unfold s', sample_update. simpl. rewrite predict_row_dot by done.
    rewrite (row_entries_positions K HK) by done.
    by rewrite fold_left_over_map. }
  assert (gradient_average s' =
            fold_left (fun l '(j, a) =>
                 <[j := (fun _ a v => fadd v (fdiv (fmul (fsub grad_i mem_i) a)
                                                   (of_nat (n_samples K))))
                          j a (l !!! j)]> l)
              (row_entries K i) (gradient_average s)) as Hga.
  { unfold s', sample_update. simpl. rewrite predict_row_dot by done.
    rewrite (row_entries_positions K HK) by done.
    by rewrite fold_left_over_map. }
  destruct (fold_insert_pointwise
              (prox_step K step_size grad_i mem_i (gradient_average s))
              (row_entries K i) (x s) Hnd) as (_ & Hxv & Hxf).
  { intros j a Hin. rewrite Hlx. by apply (row_entries_bound K HK i j a). }
  destruct (fold_insert_pointwise
              (fun _ a v => fadd v (fdiv (fmul (fsub grad_i mem_i) a)
                                         (of_nat (n_samples K))))
              (row_entries K i) (gradient_average s) Hnd) as (_ & Hgv & Hgf).
  { intros j a Hin. rewrite Hlga. by apply (row_entries_bound K HK i j a). }
  rewrite <- Hx in Hxv, Hxf. rewrite <- Hga in Hgv, Hgf.
  repeat split.
  - by apply Hxv.
  - by apply Hgv.
  - by apply Hxf.
  - by apply Hgf.
  - unfold s', sample_update. simpl. by rewrite predict_row_dot.
Qed.
End SampleUpdate.

(** C1. Whenever an epoch visits sample [i] (after the samples
    [visited] of the epoch's order), for a row with distinct column
    indices: the prediction is the sum of [x[j] * A[i,j]] over the stored
    entries of the row, [grad_i = partial_gradient(p, b[i])], [mem_i] is
    [memory_gradient[i]]; every stored column [j] gets
    [x[j] = prox(x[j] - step_size * incr, step_size * d[j])] with
    [incr = (grad_i - mem_i) * A[i,j] + d[j] * (gradient_average[j] + alpha * x[j])]
    and [gradient_average[j] += (grad_i - mem_i) * A[i,j] / n_samples];
    the other coordinates are untouched; [memory_gradient[i]] becomes
    [grad_i]. *)
Theorem epoch_sample_update `{FloatOps F} (K : closure F) (step_size : F)
    (visited : list nat) (i : nat) (s0 : shared F) :
  kernel_wfb K = true ->
  buffers_okb K s0 = true ->
  i < n_samples K ->
  NoDup (csr_row (A_indices K) (A_indptr K) i) ->
  let s := fold_left (sample_update K step_size) visited s0 in
  let s' := fold_left (sample_update K step_size) (visited ++ [i]) s0 in
  let p := row_dot K (x s) i in
  let grad_i := partial_gradient K p (b K !!! i) in
  let mem_i := memory_gradient s !!! i in
  (forall j a, (j, a) ∈ row_entries K i ->
     let incr := fadd (fmul (fsub grad_i mem_i) a)
                      (fmul (d K !!! j)
                            (fadd (gradient_average s !!! j)
                                  (fmul (f_alpha K) (x s !!! j)))) in
     x s' !!! j = prox K (fsub (x s !!! j) (fmul step_size incr))
                         (fmul step_size (d K !!! j))
     /\ gradient_average s' !!! j =
          fadd (gradient_average s !!! j)
               (fdiv (fmul (fsub grad_i mem_i) a) (of_nat (n_samples K))))
  /\ (forall j, j ∉ csr_row (A_indices K) (A_indptr K) i ->
        x s' !!! j = x s !!! j /\ gradient_average s' !!! j = gradient_average s !!! j)
  /\ memory_gradient s' !!! i = grad_i
  /\ (forall i', i' <> i -> memory_gradient s' !!! i' = memory_gradient s !!! i').
Proof.
  intros HK Hbuf Hi Hnd s s' p grad_i mem_i.
  assert (s' = sample_update K step_size s i) as ->.
  { unfold s'. by rewrite fold_left_app. }
  pose proof (sample_updates_buffers K step_size visited s0 Hbuf) as Hbuf'.
  fold s in Hbuf'.
  destruct (sample_update_pointwise K step_size HK s i Hbuf' Hi Hnd)
    as (Hvis & Hframe & Hmem & _ & _).
  apply buffers_okb_spec in Hbuf' as (_ & _ & Hlmem).
  repeat split.
  - by apply Hvis.
  - by apply Hvis.
  - by apply Hframe.
  - by apply Hframe.
  - rewrite Hmem. apply list_lookup_total_insert_eq. lia.
  - intros i' Hne. rewrite Hmem. by apply list_lookup_total_insert_ne.
Qed.

(** ** Recomputing the gradient average *)

Lemma fold_left_flat_map {A B C} (f : A -> B -> A) (h : C -> list B) (l : list C) (a : A) :
  fold_left f (flat_map h l) a = fold_left (fun a c => fold_left f (h c) a) l a.
Proof.
  revert a. induction l as [|c l IH]; intros a; simpl; [reflexivity|].
  by rewrite fold_left_app, IH.
Qed.

(** A loop that adds into one entry per step leaves in entry [j] the sum of
    the terms sent to [j], in the order of the loop. *)
Lemma fold_accumulate `{FloatOps F} (terms : list (nat * F)) (acc : list F) (j : nat) :
  let acc' := fold_left (fun gt e => <[fst e := fadd (gt !!! fst e) (snd e)]> gt) terms acc in
  length acc' = length acc
  /\ (j < length acc ->
      acc' !!! j = fold_left fadd (map snd (filter (fun e => fst e = j) terms)) (acc !!! j)).
Proof.
  revert acc. induction terms as [|[j' v] terms IH]; intros acc; simpl; [done|].
  destruct (IH (<[j' := fadd (acc !!! j') v]> acc)) as [Hlen Hsum].
  rewrite length_insert in Hlen, Hsum. split; [done|]. intros Hj.
  rewrite Hsum by done. rewrite filter_cons. simpl.
  destruct (decide (j' = j)) as [->|Hne]; simpl.
  - by rewrite list_lookup_total_insert_eq.
  - by rewrite list_lookup_total_insert_ne.
Qed.

Section Recompute.
Context `{FloatOps F}.
Variable K : closure F.
Hypothesis HK : kernel_wfb K = true.

Lemma recompute_average_spec mem order :
  Forall (fun i => i < n_samples K) order ->
  length (recompute_average K mem order) = n_features K
  /\ forall j, j < n_features K ->
       recompute_average K mem order !!! j
       = fold_left fadd (average_terms K mem order j) fzero.
Proof.
  intros Horder. unfold recompute_average, average_terms.
  rewrite (fold_left_ext_in _
    (fun gt i => fold_left (fun gt e => <[fst e := fadd (gt !!! fst e) (snd e)]> gt)
       (map (fun '(j', a) => (j', fdiv (fmul (mem !!! i) a) (of_nat (n_samples K))))
            (row_entries K i)) gt)).
  2:{ intros gt i Hi. rewrite (row_entries_positions K HK).
      2:{ rewrite Forall_forall in Horder. by apply Horder. }
      by rewrite map_map, fold_left_over_map. }
  rewrite <- (fold_left_flat_map
                (fun gt e => <[fst e := fadd (gt !!! fst e) (snd e)]> gt)).
  set (terms := flat_map _ order).
  split.
  - destruct (fold_accumulate terms (replicate (n_features K) fzero) 0) as [-> _].
    apply length_replicate.
  - intros j Hj.
    destruct (fold_accumulate terms (replicate (n_features K) fzero) j) as [_ ->].
    + by rewrite lookup_total_replicate_2.
    + by rewrite length_replicate.
Qed.
End Recompute.

Lemma Permutation_range_bound (order : list nat) n :
  order ≡ₚ seq 0 n -> Forall (fun i => i < n) order.
Proof.
  intros Hp. apply Forall_forall. intros i Hi.
  rewrite Hp in Hi. apply elem_of_seq in Hi. lia.
Qed.

(** C6. In an epoch of the worker with [job_id == 1], after the sample
    loop, the shared [gradient_average] is replaced by a vector computed
    from scratch: it has one entry per feature, and entry [j] is the sum,
    over all samples [i] (each once, in the epoch's order) and the stored
    entries of row [i] in column [j], of
    [memory_gradient[i] * A[i,j] / n_samples]; nothing of the previous
    [gradient_average] remains, the other buffers are as the sample loop
    left them. *)
Theorem resynchronizer_recomputes_average `{FloatOps F} (K : closure F)
    (shuffle : nat -> list nat -> list nat) (step_size tol : F) (trace : bool)
    (k : nat) (s : shared F) (l : locals F) :
  kernel_wfb K = true ->
  (forall k order, shuffle k order ≡ₚ order) ->
  sample_indices l ≡ₚ seq 0 (n_samples K) ->
  let order := shuffle k (sample_indices l) in
  let s1 := fold_left (sample_update K step_size) order s in
  let s' := fst (epoch_body K shuffle step_size 1 tol trace k (s, l)) in
  order ≡ₚ seq 0 (n_samples K)
  /\ length (gradient_average s') = n_features K
  /\ (forall j, j < n_features K ->
        gradient_average s' !!! j
        = fold_left fadd (average_terms K (memory_gradient s') order j) fzero)
  /\ x s' = x s1 /\ memory_gradient s' = memory_gradient s1
  /\ stop_flag s' = stop_flag s.
Proof.
  intros HK Hshuffle Hperm order s1 s'.
  assert (order ≡ₚ seq 0 (n_samples K)) as Horder.
  { unfold order. by rewrite Hshuffle. }
  destruct (recompute_average_spec K HK (memory_gradient s1) order
              (Permutation_range_bound _ _ Horder)) as [Hlen Hsum].
  unfold s', epoch_body, role_action. simpl.
  fold order. fold s1.
  repeat split; try done.
  apply (sample_updates_flag K step_size order s).
Qed.

(** ** The epoch loop of one call *)

Section KernelLoop.
Context `{FloatOps F}.
Variable K : closure F.
Variable shuffle : nat -> list nat -> list nat.
Variables (step_size : F) (max_iter : Z) (job_id : nat) (tol : F) (trace : bool).

Local Abbreviation body := (epoch_body K shuffle step_size job_id tol trace).
Local Abbreviation loop := (epoch_loop K shuffle step_size job_id tol trace).

Lemma role_action_locals s l :
  let st' := role_action K step_size job_id tol trace s l in
  it (snd st') = it l /\ epochs_run (snd st') = epochs_run l
  /\ sample_indices (snd st') = sample_indices l
  /\ (stop_flag s = true -> stop_flag (fst st') = true)
  /\ (job_id <> 0 -> cert (snd st') = cert l /\ stop_flag (fst st') = stop_flag s)
  /\ (job_id = 0 -> stop_flag (fst st') = false -> flt (cert (snd st')) tol = false)
  /\ (stop_flag s = false -> stop_flag (fst st') = true ->
      job_id = 0 /\ flt (cert (snd st')) tol = true).
Proof.
  unfold role_action.
  destruct (Nat.eqb_spec job_id 0) as [->|Hne]; simpl.
  - repeat split; try done; try (intros; destruct (flt _ _); congruence).
  - destruct (Nat.eqb job_id 1); simpl; repeat split; try done; congruence.
Qed.

Lemma epoch_body_locals k st :
  it (snd (body k st)) = k
  /\ epochs_run (snd (body k st)) = S (epochs_run (snd st))
  /\ (job_id <> 0 -> cert (snd (body k st)) = cert (snd st)
                     /\ stop_flag (fst (body k st)) = stop_flag (fst st))
  /\ (job_id = 0 -> stop_flag (fst (body k st)) = false ->
      flt (cert (snd (body k st))) tol = false).
Proof.
  unfold epoch_body.
  set (l1 := begin_epoch shuffle k (snd st)).
  set (s1 := fold_left (sample_update K step_size) (sample_indices l1) (fst st)).
  destruct (role_action_locals s1 l1) as (Hit & Hruns & _ & _ & Hother & Hzero & _).
  destruct (sample_updates_flag K step_size (sample_indices l1) (fst st)) as [Hflag _].
  fold s1 in Hflag. rewrite Hflag in Hother.
  repeat split; try done.
  - by apply Hother.
  - by apply Hother.
Qed.

(** The loop over [range(a, a + m)] entered with [it = a - 1] after
    [a - 1] epochs. *)
Lemma epoch_loop_count m : forall a st,
  it (snd st) + 1 = a -> epochs_run (snd st) + 1 = a ->
  let st' := loop (seq a m) st in
  it (snd st') = epochs_run (snd st')
  /\ a <= epochs_run (snd st') + 1 <= a + m
  /\ (stop_flag (fst st') = false -> epochs_run (snd st') + 1 = a + m)
  /\ (job_id <> 0 -> cert (snd st') = cert (snd st)
                     /\ stop_flag (fst st') = stop_flag (fst st)).
Proof.
  induction m as [|m IH]; intros a st Hit Hruns; simpl; cbv zeta.
  - repeat split; try lia; try done.
  - destruct (epoch_body_locals a st) as (Hit' & Hruns' & Hother & _).
    set (st1 := body a st) in *.
    destruct (IH (S a) st1) as (Heq & Hrange & Hfull & Hcert); [lia|lia|].
    destruct (stop_flag (fst st1)) eqn:Hstop.
    + repeat split; try lia; try done; try congruence.
      * by apply Hother.
      * rewrite Hstop. by apply Hother.
    + repeat split; try lia; try done.
      * intros Hstop'. specialize (Hfull Hstop'). lia.
      * destruct Hcert as [-> _]; [done|]. by apply Hother.
      * destruct Hcert as [_ ->]; [done|]. by apply Hother.
Qed.

(** The worker with [job_id == 0] leaves the flag unset only with a
    certificate that is not below [tol]. *)
Lemma epoch_loop_certificate its : forall st,
  job_id = 0 ->
  (stop_flag (fst st) = false -> flt (cert (snd st)) tol = false) ->
  stop_flag (fst (loop its st)) = false -> flt (cert (snd (loop its st))) tol = false.
Proof.
  induction its as [|k its IH]; intros st Hj Hst; simpl; [done|].
  destruct (epoch_body_locals k st) as (_ & _ & _ & Hzero).
  destruct (stop_flag (fst (body k st))) eqn:Hstop.
  - by rewrite Hstop.
  - apply IH; [done|]. intros _. by apply Hzero.
Qed.

Lemma epoch_loop_cons_certificate k its st :
  job_id = 0 ->
  stop_flag (fst (loop (k :: its) st)) = false ->
  flt (cert (snd (loop (k :: its) st))) tol = false.
Proof.
  intros Hj. simpl.
  destruct (epoch_body_locals k st) as (_ & _ & _ & Hzero).
  destruct (stop_flag (fst (body k st))) eqn:Hstop.
  - by rewrite Hstop.
  - apply epoch_loop_certificate; [done|]. intros _. by apply Hzero.
Qed.
End KernelLoop.

(** C4, as stated, fails: with [max_iter = 3] and the stop flag never set
    (worker 0 on the 2 x 3 least-squares instance, whose certificates stay
    above [tol = 1/100]) the kernel executes 2 epochs, not 3. *)
Lemma kernel_runs_max_iter_epochs_fails :
  let st' := kernel_run QFloat.K23 QFloat.keep (QFloat.q 1 10) 3 0 (QFloat.q 1 100)
                        false QFloat.s23 in
  stop_flag (fst st') = false
  /\ ~ (stop_flag (fst st') = false -> epochs_run (snd st') = 3).
Proof.
  vm_compute. split; [reflexivity|]. intros Hc. specialize (Hc eq_refl). discriminate.
Qed.

(** C4, amended. Every call of the kernel returns the pair
    [(it, cert)] where [it] is the number of epochs executed, at most
    [max_iter - 1] (none when [max_iter <= 1]); when the stop flag is never
    set the kernel executes exactly [max_iter - 1] epochs; the returned
    certificate is [inf] for every worker but worker 0, and for worker 0
    that leaves the flag unset after some epoch it is the last certificate,
    not below [tol]. *)
Theorem kernel_epoch_count `{FloatOps F} (K : closure F)
    (shuffle : nat -> list nat -> list nat) (step_size : F) (max_iter : Z)
    (job_id : nat) (tol : F) (trace : bool) (s : shared F) :
  let st' := kernel_run K shuffle step_size max_iter job_id tol trace s in
  epoch_iteration_template K shuffle step_size max_iter job_id tol trace s
    = (fst st', (epochs_run (snd st'), cert (snd st')))
  /\ (Z.of_nat (epochs_run (snd st')) <= Z.max 0 (max_iter - 1))%Z
  /\ (stop_flag (fst st') = false ->
      Z.of_nat (epochs_run (snd st')) = Z.max 0 (max_iter - 1))
  /\ (job_id <> 0 -> cert (snd st') = finf /\ stop_flag (fst st') = stop_flag s)
  /\ (job_id = 0 -> stop_flag (fst st') = false -> (1 < max_iter)%Z ->
      flt (cert (snd st')) tol = false).
Proof.
  intros st'. unfold st', epoch_iteration_template, kernel_run, epoch_range.
  destruct (epoch_loop_count K shuffle step_size job_id tol trace
              (Z.to_nat (max_iter - 1)) 1 (kernel_entry K job_id trace s))
    as (Hit & Hrange & Hfull & Hother); [done|done|].
  set (st1 := epoch_loop K shuffle step_size job_id tol trace _ _) in *.
  destruct st1 as [s1 l1] eqn:E. simpl in *.
  repeat split.
  - by rewrite Hit.
  - lia.
  - intros Hstop. specialize (Hfull Hstop). lia.
  - by apply Hother.
  - by apply Hother.
  - intros Hj Hstop Hmax.
    replace l1 with (snd st1) by (by rewrite E).
    unfold st1.
    destruct (Z.to_nat (max_iter - 1)) as [|m] eqn:Em; [lia|].
    apply epoch_loop_cons_certificate; [done|].
    fold (seq 1 (S m)). fold st1. by rewrite E.
Qed.

(** ** The pool of workers *)

Section AsyncProofs.
Context `{FloatOps F}.
Variable K : closure F.
Variable shuffle : nat -> nat -> list nat -> list nat.
Variables (step_size : F) (max_iter : Z) (tol : F) (trace : bool).

Local Abbreviation wstep := (worker_step K shuffle step_size max_iter tol trace).
Local Abbreviation pstep := (pool_step K shuffle step_size max_iter tol trace).

Lemma pool_step_at s ws k w s' w' :
  ws !! k = Some w -> wstep s w = Some (s', w') ->
  pstep (mk_pool s ws) (mk_pool s' (<[k := w']> ws)).
Proof. intros Hk Hw. by apply (step_worker _ _ _ _ _ _ (mk_pool s ws) k w s' w'). Qed.

(** What a step of a worker can do to the stop flag. *)
Lemma worker_step_flag s w s' w' :
  wstep s w = Some (s', w') ->
  w_job_id w' = w_job_id w
  /\ (stop_flag s = true -> stop_flag s' = true)
  /\ (stop_flag s = false -> stop_flag s' = true ->
      w_job_id w = 0
      /\ (exists rest, w_pc w = Sample [] rest /\ w_pc w' = Check rest)
      /\ flt (cert (w_locals w')) tol = true).
Proof.
  destruct w as [j c l]. unfold worker_step. simpl.
  destruct c as [|[|k rest]|[|i pending] rest|rest|n cf]; simpl.
  - intros [= <- <-]. simpl. split; [done|]. split; [done|]. intros; congruence.
  - intros [= <- <-]. simpl. split; [done|]. split; [done|]. intros; congruence.
  - intros [= <- <-]. simpl. split; [done|]. split; [done|]. intros; congruence.
  - destruct (role_action K step_size j tol trace s l) as [s1 l1] eqn:E.
    intros [= <- <-]. simpl.
    destruct (role_action_locals K step_size j tol trace s l)
      as (_ & _ & _ & Hset & _ & _ & Hwho).
    rewrite E in Hset, Hwho. simpl in Hset, Hwho.
    repeat split; try done.
    + by apply Hwho.
    + by exists rest.
    + by apply Hwho.
  - intros [= <- <-]. simpl. split; [done|]. split; [done|]. intros; congruence.
  - destruct (stop_flag s) eqn:E; intros [= <- <-]; simpl;
      (split; [done|]); (split; [done|]); intros; congruence.
  - discriminate.
Qed.

Lemma pool_step_flag p p' :
  pstep p p' -> stop_flag (p_shared p) = true -> stop_flag (p_shared p') = true.
Proof.
  intros [k w s' w' Hk Hw]. simpl.
  by destruct (worker_step_flag _ _ _ _ Hw) as (_ & Hset & _).
Qed.

(** Once set, the flag stays set for the rest of the run. *)
Lemma pool_run_flag p p' :
  rtc pstep p p' -> stop_flag (p_shared p) = true -> stop_flag (p_shared p') = true.
Proof. induction 1 as [|p p1 p2 Hstep _ IH]; [done|]. eauto using pool_step_flag. Qed.

Lemma pool_step_jobs p p' : pstep p p' -> jobs_by_index p -> jobs_by_index p'.
Proof.
  intros [k w s' w' Hk Hw] Hjobs k' w0. simpl.
  destruct (worker_step_flag _ _ _ _ Hw) as (Hid & _).
  destruct (decide (k = k')) as [<-|Hne].
  - rewrite list_lookup_insert_eq by (by apply lookup_lt_Some in Hk).
    intros [= <-]. rewrite Hid. by apply Hjobs.
  - rewrite list_lookup_insert_ne by done. apply Hjobs.
Qed.

Lemma pool_run_jobs p p' : rtc pstep p p' -> jobs_by_index p -> jobs_by_index p'.
Proof. induction 1; eauto using pool_step_jobs. Qed.

(** A worker that has returned takes no further step. *)
Lemma pool_step_returned p p' k w n c :
  pstep p p' -> p_workers p !! k = Some w -> w_pc w = Returned n c ->
  p_workers p' !! k = Some w.
Proof.
  intros [k' w0 s' w' Hk' Hw] Hk Hpc. simpl.
  destruct (decide (k' = k)) as [->|Hne].
  - rewrite Hk in Hk'. injection Hk' as <-.
    unfold worker_step in Hw. rewrite Hpc in Hw. discriminate.
  - by rewrite list_lookup_insert_ne.
Qed.

Lemma run_schedule_rtc sched p :
  rtc pstep p (run_schedule K shuffle step_size max_iter tol trace sched p).
Proof.
  revert p. induction sched as [|k sched IH]; intros p; simpl; [done|].
  etrans; [|apply IH]. unfold schedule_step.
  destruct (p_workers p !! k) as [w|] eqn:Hk; [|done].
  destruct (wstep (p_shared p) w) as [[s' w']|] eqn:Hw; [|done].
  apply rtc_once. by apply (step_worker _ _ _ _ _ _ p k w s' w').
Qed.

(** Worker [k] alone runs the sample loop to its end. *)
Lemma solo_samples pending : forall rest s ws k j l,
  ws !! k = Some (mk_worker j (Sample pending rest) l) ->
  rtc pstep (mk_pool s ws)
      (mk_pool (fold_left (sample_update K step_size) pending s)
               (<[k := mk_worker j (Sample [] rest) l]> ws)).
Proof.
  induction pending as [|i pending IH]; intros rest s ws k j l Hk; simpl.
  - by rewrite list_insert_id.
  - eapply rtc_l.
    + eapply (pool_step_at s ws k _ _ _ Hk). reflexivity.
    + simpl.
      rewrite <- (list_insert_insert_eq ws k (mk_worker j (Sample [] rest) l)
                    (mk_worker j (Sample pending rest) l)).
      apply IH. apply list_lookup_insert_eq. by apply lookup_lt_Some in Hk.
Qed.

(** Worker [k] alone runs its epoch loop as [epoch_loop] does. *)
Lemma solo_loop its : forall s ws k j l,
  ws !! k = Some (mk_worker j (Head its) l) ->
  let st' := epoch_loop K (shuffle j) step_size j tol trace its (s, l) in
  rtc pstep (mk_pool s ws)
      (mk_pool (fst st')
               (<[k := mk_worker j (Returned (it (snd st')) (cert (snd st'))) (snd st')]> ws)).
Proof.
  induction its as [|e its IH]; intros s ws k j l Hk.
  - simpl. apply rtc_once. eapply (pool_step_at s ws k _ _ _ Hk). reflexivity.
  - assert (k < length ws) as Hlt by (by apply lookup_lt_Some in Hk).
    set (l1 := begin_epoch (shuffle j) e l).
    set (s1 := fold_left (sample_update K step_size) (sample_indices l1) s).
    assert (epoch_loop K (shuffle j) step_size j tol trace (e :: its) (s, l)
            = if stop_flag (fst (role_action K step_size j tol trace s1 l1))
              then role_action K step_size j tol trace s1 l1
              else epoch_loop K (shuffle j) step_size j tol trace its
                     (role_action K step_size j tol trace s1 l1)) as -> by done.
    cbv zeta.
    (* loop header *)
    eapply rtc_l; [eapply (pool_step_at s ws k _ _ _ Hk); reflexivity|]. simpl.
    fold l1.
    (* sample loop *)
    etrans.
    { apply (solo_samples (sample_indices l1) its s _ k j l1).
      by apply list_lookup_insert_eq. }
    rewrite list_insert_insert_eq. fold s1.
    (* role *)
    destruct (role_action K step_size j tol trace s1 l1) as [s2 l2] eqn:Erole.
    eapply rtc_l.
    { apply (pool_step_at s1 _ k (mk_worker j (Sample [] its) l1)).
      - by apply list_lookup_insert_eq.
      - unfold worker_step. simpl. rewrite Erole. reflexivity. }
    rewrite list_insert_insert_eq. simpl.
    (* stop test *)
    destruct (stop_flag s2) eqn:Estop.
    + apply rtc_once.
      replace (<[k := mk_worker j (Returned (it l2) (cert l2)) l2]> ws)
        with (<[k := mk_worker j (Returned (it l2) (cert l2)) l2]>
                (<[k := mk_worker j (Check its) l2]> ws))
        by apply list_insert_insert_eq.
      apply (pool_step_at s2 _ k (mk_worker j (Check its) l2));
        [by apply list_lookup_insert_eq|].
      unfold worker_step. simpl. by rewrite Estop.
    + eapply rtc_l.
      { apply (pool_step_at s2 _ k (mk_worker j (Check its) l2)).
        - by apply list_lookup_insert_eq.
        - unfold worker_step. simpl. rewrite Estop. reflexivity. }
      rewrite list_insert_insert_eq.
      pose proof (IH s2 (<[k := mk_worker j (Head its) l2]> ws) k j l2
                    (list_lookup_insert_eq _ _ _ Hlt)) as IH'.
      cbv zeta in IH'. by rewrite list_insert_insert_eq in IH'.
Qed.

(** A submitted job that runs alone to its end leaves the buffers as
    [kernel_run] does and returns what [epoch_iteration_template] returns. *)
Lemma solo_run s ws k j l :
  ws !! k = Some (mk_worker j Start l) ->
  let st' := kernel_run K (shuffle j) step_size max_iter j tol trace s in
  rtc pstep (mk_pool s ws)
      (mk_pool (fst st')
               (<[k := mk_worker j (Returned (it (snd st')) (cert (snd st'))) (snd st')]> ws)).
Proof.
  intros Hk st'. assert (k < length ws) as Hlt by (by apply lookup_lt_Some in Hk).
  eapply rtc_l; [eapply (pool_step_at s ws k _ _ _ Hk); reflexivity|]. simpl.
  pose proof (solo_loop (epoch_range max_iter)
                (fst (kernel_entry K j trace s))
                (<[k := mk_worker j (Head (epoch_range max_iter))
                                  (snd (kernel_entry K j trace s))]> ws)
                k j (snd (kernel_entry K j trace s))
                (list_lookup_insert_eq _ _ _ Hlt)) as Hloop.
  cbv zeta in Hloop. by rewrite list_insert_insert_eq in Hloop.
Qed.

(** Submitted jobs can all run to their end, one after the other. *)
Lemma pool_can_finish ws : forall n s,
  n <= length ws ->
  (forall k w, ws !! k = Some w -> w_pc w = Start) ->
  exists p', rtc pstep (mk_pool s ws) p'
    /\ length (p_workers p') = length ws
    /\ (forall k w, k < n -> p_workers p' !! k = Some w -> is_returned w = true)
    /\ (forall k, n <= k -> p_workers p' !! k = ws !! k).
Proof.
  induction n as [|n IH]; intros s Hn Hstart.
  - exists (mk_pool s ws). repeat split; try done. intros; lia.
  - destruct (IH s ltac:(lia) Hstart) as (p1 & Hrun & Hlen & Hdone & Hrest).
    destruct (lookup_lt_is_Some_2 ws n ltac:(lia)) as [w Hw].
    pose proof (Hstart n w Hw) as Hpc. destruct w as [j c l]. simpl in Hpc. subst c.
    destruct p1 as [s1 ws1]. simpl in *.
    assert (ws1 !! n = Some (mk_worker j Start l)) as Hw1 by (by rewrite Hrest).
    eexists. split; [etrans; [exact Hrun|apply (solo_run s1 ws1 n j l Hw1)]|].
    simpl. rewrite length_insert. repeat split; [done| |].
    + intros k w Hk. destruct (decide (k = n)) as [->|Hne].
      * rewrite list_lookup_insert_eq by lia. by intros [= <-].
      * rewrite list_lookup_insert_ne by done. apply Hdone. lia.
    + intros k Hk. rewrite list_lookup_insert_ne by lia. apply Hrest. lia.
Qed.

Lemma pool_finishes s ws :
  (forall k w, ws !! k = Some w -> w_pc w = Start) ->
  exists p', rtc pstep (mk_pool s ws) p'
    /\ length (p_workers p') = length ws
    /\ all_returned p' = true.
Proof.
  intros Hstart.
  destruct (pool_can_finish ws (length ws) s ltac:(done) Hstart)
    as (p' & Hrun & Hlen & Hdone & _).
  exists p'. repeat split; try done.
  unfold all_returned. apply forallb_forall. intros w Hw.
  apply list_elem_of_In, list_elem_of_lookup in Hw as [k Hk].
  apply (Hdone k w); [|done]. apply lookup_lt_Some in Hk. lia.
Qed.
End AsyncProofs.

(** ** The orchestrator *)

Section OrchestratorProofs.
Context `{FloatOps F}.
Variable linspace : F -> nat -> list F.
Variable delta : F.
Variable shuffle : nat -> nat -> list nat -> list nat.
Variables (f : Loss F) (g : option (Penalty F)) (x0 : option (list F)).
Variables (step_size : F) (n_jobs max_iter : Z) (tol : F) (trace : bool).

Local Abbreviation the_setup := (setup f g x0 step_size n_jobs max_iter trace).
Local Abbreviation solve :=
  (minimize_SAGA linspace delta shuffle f g x0 step_size n_jobs max_iter tol trace).

(** A penalty that is not separable stops the orchestrator in the
    factory, when only [x] has been allocated. *)
Lemma setup_not_separable g' :
  g = Some g' -> is_separable g' = false ->
  the_setup = ([Alloc Buf_x], inl NotImplementedError).
Proof.
  intros Hg Hsep. unfold setup, bind, tell, ret, lift. rewrite Hg. simpl.
  unfold _factory_sparse_SAGA. destruct (shape (loss_A f)). by rewrite Hsep.
Qed.

(** What the orchestrator has built when it submits the jobs. *)
Lemma setup_submits log L :
  the_setup = (log, inr L) ->
  log = [Alloc Buf_x; Alloc Buf_memory_gradient; Alloc Buf_gradient_average;
         Alloc Buf_trace_x; Alloc Buf_stop_flag]
        ++ map Submit (seq 0 (Z.to_nat n_jobs))
  /\ x (p_shared (l_pool L)) = initial_point f x0
  /\ memory_gradient (p_shared (l_pool L)) = replicate (fst (shape (loss_A f))) fzero
  /\ gradient_average (p_shared (l_pool L)) = replicate (snd (shape (loss_A f))) fzero
  /\ stop_flag (p_shared (l_pool L)) = false
  /\ p_workers (l_pool L)
     = map (fun j => mk_worker j Start (mk_locals 0 finf [] [] 0))
           (seq 0 (Z.to_nat n_jobs)).
Proof.
  unfold setup, bind, tell, ret, lift, raise, initial_point. simpl.
  destruct (_factory_sparse_SAGA f _) as [e|Kf]; [discriminate|].
  destruct (shape (loss_A f)) as [n m]. simpl.
  destruct trace; [destruct (max_iter <? 0)%Z; [discriminate|]|];
    simpl; intros [= <- <-]; simpl; repeat split; done.
Qed.

(** The orchestrator reaches the submission of the jobs when the penalty
    is separable and the trace buffer has a size. *)
Lemma setup_ok :
  (forall g', g = Some g' -> is_separable g' = true) ->
  trace = false \/ (0 <= max_iter)%Z ->
  exists L, the_setup
            = ([Alloc Buf_x; Alloc Buf_memory_gradient; Alloc Buf_gradient_average;
                Alloc Buf_trace_x; Alloc Buf_stop_flag]
               ++ map Submit (seq 0 (Z.to_nat n_jobs)), inr L).
Proof.
  intros Hsep Hok. unfold setup, bind, tell, ret, lift, raise. simpl.
  assert (exists Kf, _factory_sparse_SAGA f (match g with
                                             | Some g0 => g0
                                             | None => DummyProx
                                             end) = inr Kf) as [Kf ->].
  { unfold _factory_sparse_SAGA. destruct (shape (loss_A f)).
    assert (is_separable (match g with Some g0 => g0 | None => DummyProx end) = true)
      as ->.
    { destruct g as [g0|]; [by apply Hsep|done]. }
    rewrite remove_dups_seq, length_seq, bool_decide_eq_true_2 by done. eauto. }
  destruct (shape (loss_A f)). simpl. destruct trace.
  - destruct Hok as [|Hpos]; [done|].
    rewrite (proj2 (Z.ltb_ge _ _) Hpos). simpl. eauto.
  - simpl. eauto.
Qed.

(** The trace buffer has [max_iter] rows when tracing is on, none
    otherwise. *)
Lemma setup_trace_rows log L :
  the_setup = (log, inr L) ->
  length (trace_x (p_shared (l_pool L))) = if trace then Z.to_nat max_iter else 0.
Proof.
  unfold setup, bind, tell, ret, lift, raise. simpl.
  destruct (_factory_sparse_SAGA f _) as [e|Kf]; [discriminate|].
  destruct (shape (loss_A f)) as [n m]. simpl.
  destruct trace; [destruct (max_iter <? 0)%Z; [discriminate|]|];
    simpl; intros [= <- <-]; simpl; [|done].
  by rewrite length_replicate.
Qed.

Lemma setup_pool_start log L :
  the_setup = (log, inr L) ->
  length (p_workers (l_pool L)) = Z.to_nat n_jobs
  /\ jobs_by_index (l_pool L)
  /\ (forall k w, p_workers (l_pool L) !! k = Some w -> w_pc w = Start)
  /\ (forall k w, p_workers (l_pool L) !! k = Some w -> epochs_run (w_locals w) = 0).
Proof.
  intros Hs. destruct (setup_submits log L Hs) as (_ & _ & _ & _ & _ & Hws).
  unfold jobs_by_index. rewrite Hws, length_map, length_seq.
  change (map ?h ?l) with (h <$> l).
  repeat split; intros k w Hk; apply list_lookup_fmap_Some in Hk as (j & -> & Hj);
    try done.
  apply lookup_seq in Hj as [-> _]. done.
Qed.

Local Abbreviation pstep L :=
  (pool_step (l_kernel L) shuffle (l_step_size L) max_iter tol trace).

Lemma pool_step_length K st p p' :
  pool_step K shuffle st max_iter tol trace p p' ->
  length (p_workers p') = length (p_workers p).
Proof. intros [k w s' w' Hk Hw]. simpl. apply length_insert. Qed.

Lemma pool_run_length K st p p' :
  rtc (pool_step K shuffle st max_iter tol trace) p p' ->
  length (p_workers p') = length (p_workers p).
Proof.
  induction 1 as [|p p1 p2 Hstep _ IH]; [done|].
  rewrite IH. by apply (pool_step_length K st).
Qed.

(** After the join, [futures[0]] holds the result of the worker that ran
    job 0, and the orchestrator builds its result from it. *)
Lemma collect_result log L p :
  the_setup = (log, inr L) -> (0 < n_jobs)%Z ->
  pool_run shuffle max_iter tol trace L p ->
  exists w n c,
    p_workers p !! 0 = Some w /\ w_job_id w = 0 /\ w_pc w = Returned n c
    /\ collect linspace delta f tol trace L p
       = inr {| res_x := x (p_shared p);
                success := if flt c tol then true else false;
                nit := n;
                trace_func :=
                  if trace then
                    map (fun i => fadd (loss_call f (trace_x (p_shared p) !!! i))
                                       (penalty_call (l_penalty L)
                                          (trace_x (p_shared p) !!! i)))
                        (range 0 n)
                  else [];
                trace_time := if trace then linspace delta n else [];
                certificate := c |}.
Proof.
  intros Hs Hjobs [Hrun Hall].
  destruct (setup_pool_start log L Hs) as (Hlen & Hidx & _).
  pose proof (pool_run_length _ _ _ _ Hrun) as Hlen'.
  pose proof (pool_run_jobs _ _ _ _ _ _ _ _ Hrun Hidx) as Hidx'.
  destruct (lookup_lt_is_Some_2 (p_workers p) 0 ltac:(lia)) as [w Hw].
  unfold all_returned in Hall. rewrite forallb_forall in Hall.
  pose proof (Hall w ltac:(apply list_elem_of_In; by eapply list_elem_of_lookup_2)) as Hret.
  pose proof (Hidx' 0 w Hw) as Hj.
  destruct w as [j c l]. simpl in *. destruct c; try discriminate.
  eexists _, _, _. split; [done|]. split; [done|]. split; [reflexivity|].
  unfold collect. by rewrite Hw.
Qed.

(** The submitted jobs can run to their end. *)
Lemma pool_run_exists log L :
  the_setup = (log, inr L) -> exists p, pool_run shuffle max_iter tol trace L p.
Proof.
  intros Hs. destruct (setup_pool_start log L Hs) as (_ & _ & Hstart & _).
  destruct (l_pool L) as [s ws] eqn:E. simpl in *.
  destruct (pool_finishes (l_kernel L) shuffle (l_step_size L) max_iter tol trace
              s ws Hstart) as (p & Hrun & _ & Hall).
  exists p. unfold pool_run. by rewrite E.
Qed.

Lemma solve_inv_ok log L out :
  the_setup = (log, inr L) -> solve out ->
  exists p, pool_run shuffle max_iter tol trace L p
            /\ out = (log, collect linspace delta f tol trace L p).
Proof.
  intros Hs Hout. inversion Hout as [log' e Hs'|log' L' p Hs' Hrun]; subst.
  - rewrite Hs in Hs'. discriminate.
  - rewrite Hs in Hs'. injection Hs' as <- <-. by exists p.
Qed.
End OrchestratorProofs.

(** ** Theorems on the orchestrator and the workers *)

(** C5, as stated, fails: with a penalty that is not separable the call
    raises when the shared buffer [x] has already been allocated. *)
Lemma not_separable_raises_before_any_allocation_fails :
  ~ (forall log e,
       minimize_SAGA (fun _ _ => []) (QFloat.q 1 1) (fun _ => QFloat.keep)
         QFloat.f23 (Some QFloat.group_penalty) None (QFloat.q 1 10) 2 3
         (QFloat.q 1 100) false (log, inl e) ->
       forall buf, Alloc buf ∉ log).
Proof.
  intros Hc.
  apply (Hc [Alloc Buf_x] NotImplementedError) with (buf := Buf_x).
  - apply solve_raises. reflexivity.
  - left.
Qed.

(** C5, amended. With a penalty whose [is_separable] flag is false, every
    call raises the unsupported-configuration error, and does so before any
    job is submitted and before [memory_gradient], [gradient_average], the
    trace buffer and the stop flag are allocated; the decision vector [x]
    is the only shared buffer allocated by then. *)
Theorem not_separable_raises_before_launch `{FloatOps F}
    (linspace : F -> nat -> list F) (delta : F)
    (shuffle : nat -> nat -> list nat -> list nat)
    (f : Loss F) (g : Penalty F) (x0 : option (list F))
    (step_size : F) (n_jobs max_iter : Z) (tol : F) (trace : bool) :
  is_separable g = false ->
  minimize_SAGA linspace delta shuffle f (Some g) x0 step_size n_jobs max_iter tol trace
    ([Alloc Buf_x], inl NotImplementedError)
  /\ forall log out,
       minimize_SAGA linspace delta shuffle f (Some g) x0 step_size n_jobs max_iter
         tol trace (log, out) ->
       out = inl NotImplementedError
       /\ (forall j, Submit j ∉ log)
       /\ (forall buf, Alloc buf ∈ log <-> buf = Buf_x).
Proof.
  intros Hsep.
  pose proof (setup_not_separable f (Some g) x0 step_size n_jobs max_iter trace g
                eq_refl Hsep) as Hs.
  split; [by apply solve_raises|].
  intros log out Hout.
  assert (log = [Alloc Buf_x] /\ out = inl NotImplementedError) as [-> ->].
  { inversion Hout as [log' e Hs'|log' L' p Hs' Hrun]; subst; rewrite Hs in Hs'.
    - by injection Hs' as <- <-.
    - discriminate. }
  split; [done|]. split.
  - intros j Hin. apply list_elem_of_singleton in Hin. discriminate.
  - intros buf. rewrite list_elem_of_singleton. split; [by intros [= ->]|by intros ->].
Qed.


Section Latch.
Context `{FloatOps F}.
Variable K : closure F.
Variable shuffle : nat -> nat -> list nat -> list nat.
Variables (step_size : F) (max_iter : Z) (tol : F) (trace : bool).

Local Abbreviation wstep := (worker_step K shuffle step_size max_iter tol trace).
Local Abbreviation pstep := (pool_step K shuffle step_size max_iter tol trace).

Lemma pool_run_returned p p' k w n c :
  rtc pstep p p' -> p_workers p !! k = Some w -> w_pc w = Returned n c ->
  p_workers p' !! k = Some w.
Proof.
  induction 1 as [|p p1 p2 Hstep _ IH]; [done|]. intros Hk Hpc.
  apply IH; [|done]. by apply (pool_step_returned K shuffle step_size max_iter tol trace
                                 p p1 k w n c).
Qed.

(** The worker whose step sets the flag is the one that runs job 0, at
    the end of its sample loop, with a certificate below [tol]. *)
Lemma pool_step_sets_flag p p' :
  jobs_by_index p -> pstep p p' ->
  stop_flag (p_shared p) = false -> stop_flag (p_shared p') = true ->
  exists w w' rest,
    p_workers p !! 0 = Some w /\ p_workers p' !! 0 = Some w'
    /\ w_job_id w = 0 /\ w_pc w = Sample [] rest /\ w_pc w' = Check rest
    /\ flt (cert (w_locals w')) tol = true.
Proof.
  intros Hjobs [k w s' w' Hk Hw] Hoff Hon. simpl in *.
  destruct (worker_step_flag K shuffle step_size max_iter tol trace _ _ _ _ Hw)
    as (_ & _ & Hwho).
  destruct (Hwho Hoff Hon) as (Hj & (rest & Hpc & Hpc') & Hcert).
  pose proof (Hjobs k w Hk) as Hkj. rewrite Hj in Hkj. subst k.
  exists w, w', rest. repeat split; try done.
  apply list_lookup_insert_eq. by apply lookup_lt_Some in Hk.
Qed.

(** The end-of-epoch bookkeeping of the worker that runs job 0: it
    computes the certificate and sets the flag when it is below [tol]. *)
Lemma monitor_bookkeeping_step p w rest :
  p_workers p !! 0 = Some w -> w_job_id w = 0 -> w_pc w = Sample [] rest ->
  let c := fdiv (norm (zip_with fsub (x (p_shared p)) (x_old (w_locals w)))) step_size in
  let q := schedule_step K shuffle step_size max_iter tol trace p 0 in
  pstep p q
  /\ stop_flag (p_shared q) = (if flt c tol then true else stop_flag (p_shared p))
  /\ exists w', p_workers q !! 0 = Some w' /\ w_pc w' = Check rest
                /\ cert (w_locals w') = c.
Proof.
  intros Hk Hj Hpc c q.
  assert (wstep (p_shared p) w
          = Some (fst (check_convergence step_size tol trace (p_shared p) (w_locals w)),
                  mk_worker 0 (Check rest)
                    (snd (check_convergence step_size tol trace (p_shared p)
                            (w_locals w))))) as Hw.
  { destruct w as [j c0 l]. simpl in *. subst. unfold worker_step. simpl.
    unfold role_action. simpl. done. }
  assert (q = mk_pool (fst (check_convergence step_size tol trace (p_shared p)
                              (w_locals w)))
                (<[0 := mk_worker 0 (Check rest)
                          (snd (check_convergence step_size tol trace (p_shared p)
                                  (w_locals w)))]> (p_workers p))) as ->.
  { unfold q, schedule_step. by rewrite Hk, Hw. }
  split; [by apply (step_worker _ _ _ _ _ _ p 0 w)|]. simpl. split; [done|].
  eexists. split; [apply list_lookup_insert_eq; by apply lookup_lt_Some in Hk|]. done.
Qed.

Lemma check_with_flag_returns s w rest :
  w_pc w = Check rest -> stop_flag s = true ->
  wstep s w = Some (s, mk_worker (w_job_id w)
                         (Returned (it (w_locals w)) (cert (w_locals w)))
                         (w_locals w)).
Proof. intros Hpc Hstop. unfold worker_step. by rewrite Hpc, Hstop. Qed.

(** With [max_iter <= 1] a worker that has executed no epoch never
    executes one, and its steps leave [x], [memory_gradient] and
    [gradient_average] as they are. *)
Lemma idle_step s w s' w' :
  (max_iter <= 1)%Z -> idle w -> wstep s w = Some (s', w') ->
  idle w' /\ x s' = x s /\ memory_gradient s' = memory_gradient s
  /\ gradient_average s' = gradient_average s.
Proof.
  intros Hmax [Hruns Hpc]. destruct w as [j c l]. unfold worker_step, idle. simpl in *.
  assert (epoch_range max_iter = []) as Hrange.
  { unfold epoch_range. by replace (Z.to_nat (max_iter - 1)) with 0 by lia. }
  destruct Hpc as [->|[(-> & Hit & Hcert)| ->]].
  - rewrite Hrange. intros [= <- <-]. simpl. repeat split; try done. right. by left.
  - intros [= <- <-]. simpl. rewrite Hit, Hcert. repeat split; try done. right. by right.
  - discriminate.
Qed.

Lemma idle_pool_step p p' :
  (max_iter <= 1)%Z -> pstep p p' ->
  (forall k w, p_workers p !! k = Some w -> idle w) ->
  (forall k w, p_workers p' !! k = Some w -> idle w)
  /\ x (p_shared p') = x (p_shared p)
  /\ memory_gradient (p_shared p') = memory_gradient (p_shared p)
  /\ gradient_average (p_shared p') = gradient_average (p_shared p).
Proof.
  intros Hmax [k w s' w' Hk Hw] Hidle. simpl.
  destruct (idle_step _ _ _ _ Hmax (Hidle k w Hk) Hw) as (Hw' & Hx & Hm & Hg).
  split; [|done]. intros k' wk.
  destruct (decide (k = k')) as [<-|Hne].
  - rewrite list_lookup_insert_eq by (by apply lookup_lt_Some in Hk). by intros [= <-].
  - rewrite list_lookup_insert_ne by done. apply Hidle.
Qed.

Lemma idle_pool_run p p' :
  (max_iter <= 1)%Z -> rtc pstep p p' ->
  (forall k w, p_workers p !! k = Some w -> idle w) ->
  (forall k w, p_workers p' !! k = Some w -> idle w)
  /\ x (p_shared p') = x (p_shared p)
  /\ memory_gradient (p_shared p') = memory_gradient (p_shared p)
  /\ gradient_average (p_shared p') = gradient_average (p_shared p).
Proof.
  intros Hmax. induction 1 as [|p p1 p2 Hstep _ IH]; [done|]. intros Hidle.
  destruct (idle_pool_step p p1 Hmax Hstep Hidle) as (Hidle1 & Hx & Hm & Hg).
  destruct (IH Hidle1) as (Hidle2 & -> & -> & ->). done.
Qed.
End Latch.

(** C9. In every run of the workers of a call: the stop flag is false
    when the jobs are submitted; once true it is true in every later state
    (no step resets it); the only step that turns it from false to true is
    the end-of-epoch bookkeeping of the worker running job 0, with a
    certificate strictly below [tol]; and that bookkeeping does set it: it
    computes the certificate [norm(x - x_old) / step_size] and leaves the
    flag true when the certificate is below [tol], as it was otherwise; a
    worker that reads the flag true at its end-of-epoch test returns, and a
    worker that has returned takes no further step, so it starts no other
    epoch. *)
Theorem stop_flag_is_one_way_latch `{FloatOps F}
    (shuffle : nat -> nat -> list nat -> list nat)
    (f : Loss F) (g : option (Penalty F)) (x0 : option (list F))
    (step_size : F) (n_jobs max_iter : Z) (tol : F) (trace : bool)
    (log : list event) (L : launch F) (p p' : pool F) :
  setup f g x0 step_size n_jobs max_iter trace = (log, inr L) ->
  rtc (pool_step (l_kernel L) shuffle (l_step_size L) max_iter tol trace) (l_pool L) p ->
  pool_step (l_kernel L) shuffle (l_step_size L) max_iter tol trace p p' ->
  stop_flag (p_shared (l_pool L)) = false
  /\ (forall q,
        rtc (pool_step (l_kernel L) shuffle (l_step_size L) max_iter tol trace) p q ->
        stop_flag (p_shared q) = true ->
        forall q', rtc (pool_step (l_kernel L) shuffle (l_step_size L) max_iter tol trace)
                       q q' ->
                   stop_flag (p_shared q') = true)
  /\ (stop_flag (p_shared p) = false -> stop_flag (p_shared p') = true ->
      exists w w' rest,
        p_workers p !! 0 = Some w /\ p_workers p' !! 0 = Some w'
        /\ w_job_id w = 0 /\ w_pc w = Sample [] rest /\ w_pc w' = Check rest
        /\ flt (cert (w_locals w')) tol = true)
  /\ (forall w rest,
        p_workers p !! 0 = Some w -> w_pc w = Sample [] rest ->
        let c := fdiv (norm (zip_with fsub (x (p_shared p)) (x_old (w_locals w))))
                      (l_step_size L) in
        let q := schedule_step (l_kernel L) shuffle (l_step_size L) max_iter tol trace
                   p 0 in
        pool_step (l_kernel L) shuffle (l_step_size L) max_iter tol trace p q
        /\ stop_flag (p_shared q) = (if flt c tol then true else stop_flag (p_shared p))
        /\ exists w', p_workers q !! 0 = Some w' /\ w_pc w' = Check rest
                      /\ cert (w_locals w') = c)
  /\ (forall q,
        rtc (pool_step (l_kernel L) shuffle (l_step_size L) max_iter tol trace) p q ->
        forall k w rest,
          p_workers q !! k = Some w -> w_pc w = Check rest ->
          stop_flag (p_shared q) = true ->
          worker_step (l_kernel L) shuffle (l_step_size L) max_iter tol trace
                      (p_shared q) w
          = Some (p_shared q,
                  mk_worker (w_job_id w)
                            (Returned (it (w_locals w)) (cert (w_locals w)))
                            (w_locals w)))
  /\ (forall q,
        rtc (pool_step (l_kernel L) shuffle (l_step_size L) max_iter tol trace) p q ->
        forall k w n c,
          p_workers q !! k = Some w -> w_pc w = Returned n c ->
          forall q', rtc (pool_step (l_kernel L) shuffle (l_step_size L) max_iter tol trace)
                         q q' ->
                     p_workers q' !! k = Some w).
Proof.
  intros Hs Hrun Hstep.
  destruct (setup_submits f g x0 step_size n_jobs max_iter trace log L Hs)
    as (_ & _ & _ & _ & Hoff & _).
  destruct (setup_pool_start f g x0 step_size n_jobs max_iter trace log L Hs)
    as (_ & Hjobs & _).
  pose proof (pool_run_jobs _ _ _ _ _ _ _ _ Hrun Hjobs) as Hjobs'.
  split; [done|]. split; [|split; [|split; [|split]]].
  - intros q _ Hon q' Hrun'. by apply (pool_run_flag _ _ _ _ _ _ _ _ Hrun').
  - intros Hoff' Hon. by apply (pool_step_sets_flag (l_kernel L) shuffle (l_step_size L)
                                 max_iter tol trace p p').
  - intros w rest Hk Hpc.
    apply (monitor_bookkeeping_step (l_kernel L) shuffle (l_step_size L) max_iter tol
             trace p w rest Hk (Hjobs' 0 w Hk) Hpc).
  - intros q _ k w rest _ Hpc Hon.
    by apply (check_with_flag_returns _ _ _ _ _ _ _ w rest).
  - intros q _ k w n c Hk Hpc q' Hrun'.
    by apply (pool_run_returned (l_kernel L) shuffle (l_step_size L) max_iter tol trace
                q q' k w n c).
Qed.

(** C10, as stated, fails: a call with [max_iter <= 1] need not return a
    result.  With [n_jobs = 0] it raises the index error of [futures[0]],
    and with tracing on and a negative [max_iter] the value error of the
    trace buffer. *)
Lemma no_epoch_result_for_every_call_fails :
  minimize_SAGA (fun _ _ => []) (QFloat.q 1 1) (fun _ => QFloat.keep)
    QFloat.f23 None None (QFloat.q 1 10) 0 1 (QFloat.q 1 100) false
    ([Alloc Buf_x; Alloc Buf_memory_gradient; Alloc Buf_gradient_average;
      Alloc Buf_trace_x; Alloc Buf_stop_flag], inl IndexError)
  /\ minimize_SAGA (fun _ _ => []) (QFloat.q 1 1) (fun _ => QFloat.keep)
       QFloat.f23 None None (QFloat.q 1 10) 2 (-1) (QFloat.q 1 100) true
       ([Alloc Buf_x; Alloc Buf_memory_gradient; Alloc Buf_gradient_average],
        inl ValueError)
  /\ ~ (forall (n_jobs max_iter : Z) (trace : bool) out,
          (max_iter <= 1)%Z ->
          minimize_SAGA (fun _ _ => []) (QFloat.q 1 1) (fun _ => QFloat.keep)
            QFloat.f23 None None (QFloat.q 1 10) n_jobs max_iter (QFloat.q 1 100)
            trace out ->
          exists r, snd out = inr r
                    /\ nit r = 0 /\ certificate r = finf /\ success r = false
                    /\ res_x r = initial_point QFloat.f23 None).
Proof.
  assert (minimize_SAGA (fun _ _ => []) (QFloat.q 1 1) (fun _ => QFloat.keep)
            QFloat.f23 None None (QFloat.q 1 10) 0 1 (QFloat.q 1 100) false
            ([Alloc Buf_x; Alloc Buf_memory_gradient; Alloc Buf_gradient_average;
              Alloc Buf_trace_x; Alloc Buf_stop_flag], inl IndexError)) as Hindex.
  { exact (solve_joins (fun _ _ => []) (QFloat.q 1 1) (fun _ => QFloat.keep)
             QFloat.f23 None None (QFloat.q 1 10) 0 1 (QFloat.q 1 100) false
             _ (QFloat.call_launch None 0 1 false)
             (l_pool (QFloat.call_launch None 0 1 false))
             eq_refl (conj (rtc_refl _ _) eq_refl)). }
  split; [exact Hindex|]. split.
  - apply solve_raises. reflexivity.
  - intros Hc.
    destruct (Hc 0%Z 1%Z false _ ltac:(lia) Hindex) as (r & Hr & _). discriminate.
Qed.

(** C10, amended. For a call with [max_iter <= 1], a separable penalty (or
    none), at least one job, and tracing off or [max_iter = 1]: the
    orchestrator submits the jobs, on buffers for which the store of trace
    row 0 is in bounds; the kernel, called on such buffers, executes no
    epoch and returns [(0, inf)] leaving [x], [memory_gradient] and
    [gradient_average] as they are; the call returns, and every result it
    can return has iteration count 0, certificate [inf], [success = false]
    and [x] equal to the initial point ([x0] when given, the zero vector
    otherwise); in every state of the run [x], [memory_gradient] and
    [gradient_average] are as allocated and no worker has executed an
    epoch. *)
Theorem no_epoch_when_max_iter_at_most_one `{InfLaws F}
    (linspace : F -> nat -> list F) (delta : F)
    (shuffle : nat -> nat -> list nat -> list nat)
    (f : Loss F) (g : option (Penalty F)) (x0 : option (list F))
    (step_size : F) (n_jobs max_iter : Z) (tol : F) (trace : bool) :
  (max_iter <= 1)%Z ->
  (forall g', g = Some g' -> is_separable g' = true) ->
  (0 < n_jobs)%Z ->
  (trace = true -> (0 < max_iter)%Z) ->
  let log := [Alloc Buf_x; Alloc Buf_memory_gradient; Alloc Buf_gradient_average;
              Alloc Buf_trace_x; Alloc Buf_stop_flag]
             ++ map Submit (seq 0 (Z.to_nat n_jobs)) in
  exists L,
    setup f g x0 step_size n_jobs max_iter trace = (log, inr L)
    /\ (forall job_id, entry_store_in_bounds job_id trace (p_shared (l_pool L)) = true)
    /\ (forall job_id s,
          entry_store_in_bounds job_id trace s = true ->
          let r := epoch_iteration_template (l_kernel L) (shuffle job_id) (l_step_size L)
                     max_iter job_id tol trace s in
          snd r = (0, finf)
          /\ x (fst r) = x s /\ memory_gradient (fst r) = memory_gradient s
          /\ gradient_average (fst r) = gradient_average s)
    /\ (exists r, minimize_SAGA linspace delta shuffle f g x0 step_size n_jobs max_iter
                    tol trace (log, inr r))
    /\ (forall out,
          minimize_SAGA linspace delta shuffle f g x0 step_size n_jobs max_iter tol trace
            out ->
          exists r, out = (log, inr r)
                    /\ nit r = 0 /\ certificate r = finf /\ success r = false
                    /\ res_x r = initial_point f x0)
    /\ (forall p,
          rtc (pool_step (l_kernel L) shuffle (l_step_size L) max_iter tol trace)
              (l_pool L) p ->
          x (p_shared p) = initial_point f x0
          /\ memory_gradient (p_shared p) = replicate (fst (shape (loss_A f))) fzero
          /\ gradient_average (p_shared p) = replicate (snd (shape (loss_A f))) fzero
          /\ forall k w, p_workers p !! k = Some w -> idle w).
Proof.
  intros Hmax Hsep Hjobs Htrace log.
  assert (trace = false \/ (0 <= max_iter)%Z) as Hok.
  { destruct trace; [right|by left]. specialize (Htrace eq_refl). lia. }
  destruct (setup_ok f g x0 step_size n_jobs max_iter trace Hsep Hok) as [L Hs].
  fold log in Hs. exists L. split; [exact Hs|].
  destruct (setup_submits f g x0 step_size n_jobs max_iter trace log L Hs)
    as (_ & Hx & Hm & Hg & _ & _).
  destruct (setup_pool_start f g x0 step_size n_jobs max_iter trace log L Hs)
    as (_ & _ & Hstart & Hruns).
  assert (forall p,
            rtc (pool_step (l_kernel L) shuffle (l_step_size L) max_iter tol trace)
                (l_pool L) p ->
            x (p_shared p) = initial_point f x0
            /\ memory_gradient (p_shared p) = replicate (fst (shape (loss_A f))) fzero
            /\ gradient_average (p_shared p) = replicate (snd (shape (loss_A f))) fzero
            /\ forall k w, p_workers p !! k = Some w -> idle w) as Hquiet.
  { intros p Hrun.
    destruct (idle_pool_run (l_kernel L) shuffle (l_step_size L) max_iter tol trace
                (l_pool L) p Hmax Hrun) as (Hidle & -> & -> & ->).
    - intros k w Hk. split; [by apply (Hruns k)|]. left. by apply (Hstart k).
    - done. }
  assert (forall p, pool_run shuffle max_iter tol trace L p ->
            exists r, collect linspace delta f tol trace L p = inr r
                      /\ nit r = 0 /\ certificate r = finf /\ success r = false
                      /\ res_x r = initial_point f x0) as Hcollect.
  { intros p Hrun.
    destruct (collect_result linspace delta shuffle f g x0 step_size n_jobs max_iter
                tol trace log L p Hs Hjobs Hrun) as (w & n & c & Hw & _ & Hpc & ->).
    destruct Hrun as [Hrun _].
    destruct (Hquiet p Hrun) as (Hxp & _ & _ & Hidle).
    destruct (Hidle 0 w Hw) as (_ & [Hc|[[Hc _]|Hc]]); rewrite Hpc in Hc; try discriminate.
    injection Hc as -> ->. eexists. split; [reflexivity|]. simpl.
    by rewrite flt_inf. }
  split; [|split; [|split; [|split; [|done]]]].
  - intros job_id. unfold entry_store_in_bounds.
    rewrite (setup_trace_rows f g x0 step_size n_jobs max_iter trace log L Hs).
    destruct trace.
    + specialize (Htrace eq_refl). apply orb_true_iff. right. apply Nat.ltb_lt. lia.
    + by rewrite andb_false_r.
  - intros job_id s _. unfold epoch_iteration_template, kernel_run, epoch_range.
    replace (Z.to_nat (max_iter - 1)) with 0 by lia. done.
  - destruct (pool_run_exists shuffle f g x0 step_size n_jobs max_iter tol trace log L Hs)
      as [p Hrun].
    destruct (Hcollect p Hrun) as (r & Hr & _).
    exists r. rewrite <- Hr. by apply solve_joins.
  - intros out Hout.
    destruct (solve_inv_ok linspace delta shuffle f g x0 step_size n_jobs max_iter tol
                trace log L out Hs Hout) as (p & Hrun & ->).
    destruct (Hcollect p Hrun) as (r & -> & Hrest).
    by exists r.
Qed.

(** ** The rational instance satisfies the laws *)

Lemma QFloat_ratio_nonzero (n c : nat) :
  0 < c -> c <= n ->
  Qeq_bool (inject_Z (Z.of_nat n) / inject_Z (Z.of_nat c)) 0 = false.
Proof.
  intros Hc Hn. destruct (Qeq_bool _ 0) eqn:E; [|reflexivity].
  apply Qeq_bool_eq in E. exfalso.
  assert (~ inject_Z (Z.of_nat c) == 0)%Q as Hc0.
  { unfold Qeq. simpl. lia. }
  assert (inject_Z (Z.of_nat n) == 0)%Q as Hn0.
  { rewrite <- (Qmult_div_r (inject_Z (Z.of_nat n)) (inject_Z (Z.of_nat c)) Hc0).
    rewrite E. apply Qmult_0_r. }
  unfold Qeq in Hn0. simpl in Hn0. lia.
Qed.

#[global] Instance QFloat_count_laws : CountLaws QFloat.t.
Proof.
  split.
  - reflexivity.
  - intros k. simpl. unfold Qplus, inject_Z. simpl. f_equal. f_equal. lia.
  - reflexivity.
  - intros k. simpl. unfold Qeq_bool. simpl. reflexivity.
  - intros n c Hc Hn. simpl. unfold QFloat.qdiv.
    assert (Qeq_bool (inject_Z (Z.of_nat c)) 0 = false) as ->.
    { unfold Qeq_bool. simpl. apply Z.eqb_neq. lia. }
    simpl. by rewrite QFloat_ratio_nonzero.
Qed.

#[global] Instance QFloat_inf_laws : InfLaws QFloat.t.
Proof. split. reflexivity. Qed.

(** ** Worked instances

    The theorems above applied to the 2 x 3 least-squares instance of
    [QFloat], and to a CSR structure with a repeated column. *)

Lemma support_matrix_identity_rows_witness :
  csr_wfb [0; 2; 2; 0; 1] [0; 3; 5] 2 3 = true
  /\ let '(BS_data, BS_indices, BS_indptr) :=
       _support_matrix (F:=QFloat.t) [0; 2; 2; 0; 1] [0; 3; 5] (seq 0 3) 3 in
     BS_data = replicate (length BS_indices) fone
     /\ length BS_indptr = 2 + 1
     /\ BS_indptr !!! 0 = 0
     /\ BS_indptr !!! 2 = length BS_indices
     /\ forall i, i < 2 ->
          BS_indptr !!! i <= BS_indptr !!! (i + 1)
          /\ csr_row BS_indices BS_indptr i = dedup_first (csr_row [0; 2; 2; 0; 1] [0; 3; 5] i)
          /\ NoDup (csr_row BS_indices BS_indptr i)
          /\ forall c, c ∈ csr_row BS_indices BS_indptr i
                       <-> c ∈ csr_row [0; 2; 2; 0; 1] [0; 3; 5] i.
Proof.
  split; [reflexivity|].
  apply (support_matrix_identity_rows (F:=QFloat.t) [0; 2; 2; 0; 1] [0; 3; 5] 2 3).
  reflexivity.
Defined.

Lemma seen_blocks_restored_witness :
  csr_wfb [0; 2; 2; 0; 1] [0; 3; 5] 2 3 = true
  /\ blocks_wfb [0; 0; 1] 3 2 = true
  /\ Support.seen_blocks (Support.final [0; 2; 2; 0; 1] [0; 3; 5] [0; 0; 1] 2)
       = replicate 2 0
  /\ (forall k, k <= 2 ->
        Support.seen_blocks (Support.after_rows [0; 2; 2; 0; 1] [0; 3; 5] [0; 0; 1] 2 k)
          = replicate 2 0)
  /\ (forall k, k < 2 ->
        let st := Support.scan_row [0; 2; 2; 0; 1] [0; 3; 5] [0; 0; 1]
                    (Support.after_rows [0; 2; 2; 0; 1] [0; 3; 5] [0; 0; 1] 2 k) k in
        length (range (Support.BS_indptr st !!! k) (Support.counter_indptr st))
          = length (block_row [0; 2; 2; 0; 1] [0; 3; 5] [0; 0; 1] k)
        /\ length (block_row [0; 2; 2; 0; 1] [0; 3; 5] [0; 0; 1] k)
             <= length (csr_row [0; 2; 2; 0; 1] [0; 3; 5] k)).
Proof.
  split; [reflexivity|]. split; [reflexivity|].
  apply (seen_blocks_restored [0; 2; 2; 0; 1] [0; 3; 5] [0; 0; 1] 2 3 2); reflexivity.
Defined.

Lemma factory_degree_vector_witness :
  shape (loss_A QFloat.f23) = (2, 3)
  /\ csr_wfb (indices (loss_A QFloat.f23)) (indptr (loss_A QFloat.f23)) 2 3 = true
  /\ is_separable (DummyProx (F:=QFloat.t)) = true
  /\ exists K, _factory_sparse_SAGA QFloat.f23 DummyProx = inr K
       /\ length (d K) = 3
       /\ forall j, j < 3 ->
            let touching :=
              length (samples_touching (indices (loss_A QFloat.f23))
                                       (indptr (loss_A QFloat.f23)) 2 j) in
            (fne (d K !!! j) fzero = false <-> touching = 0)
            /\ (touching <> 0 -> d K !!! j = fdiv (of_nat 2) (of_nat touching)).
Proof.
  split; [reflexivity|]. split; [reflexivity|]. split; [reflexivity|].
  apply (factory_degree_vector QFloat.f23 DummyProx 2 3); reflexivity.
Defined.

Lemma epoch_sample_update_witness :
  kernel_wfb QFloat.K23 = true
  /\ buffers_okb QFloat.K23 QFloat.s23 = true
  /\ 0 < n_samples QFloat.K23
  /\ NoDup (csr_row (A_indices QFloat.K23) (A_indptr QFloat.K23) 0)
  /\ let K := QFloat.K23 in
     let step_size := QFloat.q 1 10 in
     let s := fold_left (sample_update K step_size) [1] QFloat.s23 in
     let s' := fold_left (sample_update K step_size) ([1] ++ [0]) QFloat.s23 in
     let p := row_dot K (x s) 0 in
     let grad_i := partial_gradient K p (b K !!! 0) in
     let mem_i := memory_gradient s !!! 0 in
     (forall j a, (j, a) ∈ row_entries K 0 ->
        let incr := fadd (fmul (fsub grad_i mem_i) a)
                         (fmul (d K !!! j)
                               (fadd (gradient_average s !!! j)
                                     (fmul (f_alpha K) (x s !!! j)))) in
        x s' !!! j = prox K (fsub (x s !!! j) (fmul step_size incr))
                            (fmul step_size (d K !!! j))
        /\ gradient_average s' !!! j =
             fadd (gradient_average s !!! j)
                  (fdiv (fmul (fsub grad_i mem_i) a) (of_nat (n_samples K))))
     /\ (forall j, j ∉ csr_row (A_indices K) (A_indptr K) 0 ->
           x s' !!! j = x s !!! j /\ gradient_average s' !!! j = gradient_average s !!! j)
     /\ memory_gradient s' !!! 0 = grad_i
     /\ (forall i', i' <> 0 -> memory_gradient s' !!! i' = memory_gradient s !!! i').
Proof.
  assert (NoDup (csr_row (A_indices QFloat.K23) (A_indptr QFloat.K23) 0)) as Hnd.
  { apply (bool_decide_unpack _). vm_compute. exact I. }
  split; [reflexivity|]. split; [reflexivity|]. split; [vm_compute; lia|].
  split; [exact Hnd|].
  apply (epoch_sample_update QFloat.K23 (QFloat.q 1 10) [1] 0 QFloat.s23);
    try reflexivity; [vm_compute; lia|exact Hnd].
Defined.

Lemma resynchronizer_recomputes_average_witness :
  kernel_wfb QFloat.K23 = true
  /\ (forall k order, QFloat.keep k order ≡ₚ order)
  /\ [1; 0] ≡ₚ seq 0 (n_samples QFloat.K23)
  /\ let K := QFloat.K23 in
     let l := mk_locals 0 finf [] [1; 0] 0 in
     let order := QFloat.keep 1 (sample_indices l) in
     let s1 := fold_left (sample_update K (QFloat.q 1 10)) order QFloat.s23 in
     let s' := fst (epoch_body K QFloat.keep (QFloat.q 1 10) 1 (QFloat.q 1 100) false 1
                               (QFloat.s23, l)) in
     order ≡ₚ seq 0 (n_samples K)
     /\ length (gradient_average s') = n_features K
     /\ (forall j, j < n_features K ->
           gradient_average s' !!! j
           = fold_left fadd (average_terms K (memory_gradient s') order j) fzero)
     /\ x s' = x s1 /\ memory_gradient s' = memory_gradient s1
     /\ stop_flag s' = stop_flag QFloat.s23.
Proof.
  assert ([1; 0] ≡ₚ seq 0 (n_samples QFloat.K23)) as Hperm.
  { change (seq 0 (n_samples QFloat.K23)) with [0; 1]. apply Permutation_swap. }
  split; [reflexivity|]. split; [reflexivity|]. split; [exact Hperm|].
  apply (resynchronizer_recomputes_average QFloat.K23 QFloat.keep (QFloat.q 1 10)
           (QFloat.q 1 100) false 1 QFloat.s23 (mk_locals 0 finf [] [1; 0] 0)).
  - reflexivity.
  - reflexivity.
  - exact Hperm.
Defined.

Lemma not_separable_raises_before_launch_witness :
  is_separable QFloat.group_penalty = false
  /\ minimize_SAGA (fun _ _ => []) (QFloat.q 1 1) (fun _ => QFloat.keep)
       QFloat.f23 (Some QFloat.group_penalty) None (QFloat.q 1 10) 2 3 (QFloat.q 1 100)
       false ([Alloc Buf_x], inl NotImplementedError)
  /\ forall log out,
       minimize_SAGA (fun _ _ => []) (QFloat.q 1 1) (fun _ => QFloat.keep)
         QFloat.f23 (Some QFloat.group_penalty) None (QFloat.q 1 10) 2 3 (QFloat.q 1 100)
         false (log, out) ->
       out = inl NotImplementedError
       /\ (forall j, Submit j ∉ log)
       /\ (forall buf, Alloc buf ∈ log <-> buf = Buf_x).
Proof.
  split; [reflexivity|].
  apply (not_separable_raises_before_launch (fun _ _ => []) (QFloat.q 1 1)
           (fun _ => QFloat.keep) QFloat.f23 QFloat.group_penalty None (QFloat.q 1 10)
           2 3 (QFloat.q 1 100) false).
  reflexivity.
Defined.

Lemma schedule_step_enabled `{FloatOps F} (K : closure F)
    (shuffle : nat -> nat -> list nat -> list nat) (step_size : F) (max_iter : Z)
    (tol : F) (trace : bool) (p : pool F) (k : nat) :
  enabled p k = true ->
  pool_step K shuffle step_size max_iter tol trace p
            (schedule_step K shuffle step_size max_iter tol trace p k).
Proof.
  unfold enabled, schedule_step. destruct (p_workers p !! k) as [w|] eqn:Hk; [|done].
  intros Hen.
  destruct (worker_step K shuffle step_size max_iter tol trace (p_shared p) w)
    as [[s' w']|] eqn:Hw.
  - by apply (step_worker _ _ _ _ _ _ p k w s' w').
  - exfalso. destruct w as [j c l]. unfold worker_step, is_returned in *. simpl in *.
    destruct c as [|[|e rest]|[|i pending] rest|rest|n cf]; try discriminate.
    + by destruct (role_action K step_size j tol trace (p_shared p) l).
    + by destruct (stop_flag (p_shared p)).
Qed.


Lemma stop_flag_is_one_way_latch_witness :
  let L := QFloat.demo_launch 3 in
  let p := QFloat.demo_pool_tol 3 (QFloat.q 1000 1) [0; 0; 0; 0] in
  let p' := schedule_step (l_kernel L) (fun _ => QFloat.keep) (l_step_size L) 3
              (QFloat.q 1000 1) false p 0 in
  let p2 := schedule_step (l_kernel L) (fun _ => QFloat.keep) (l_step_size L) 3
              (QFloat.q 1000 1) false p' 0 in
  (setup QFloat.f23 None None (QFloat.q 1 10) 2 3 false
     = (fst (QFloat.demo_setup 3), inr L)
   /\ rtc (pool_step (l_kernel L) (fun _ => QFloat.keep) (l_step_size L) 3
                     (QFloat.q 1000 1) false) (l_pool L) p
   /\ pool_step (l_kernel L) (fun _ => QFloat.keep) (l_step_size L) 3
                (QFloat.q 1000 1) false p p')
  /\ (stop_flag (p_shared p) = false
      /\ stop_flag (p_shared p') = true
      /\ w_pc <$> p_workers p !! 0 = Some (Sample [] [2])
      /\ w_pc <$> p_workers p' !! 0 = Some (Check [2])
      /\ is_returned <$> p_workers p2 !! 0 = Some true
      /\ epochs_run <$> (w_locals <$> p_workers p2 !! 0) = Some 1)
  /\ stop_flag (p_shared (l_pool L)) = false
  /\ (forall q,
        rtc (pool_step (l_kernel L) (fun _ => QFloat.keep) (l_step_size L) 3
                       (QFloat.q 1000 1) false) p q ->
        stop_flag (p_shared q) = true ->
        forall q', rtc (pool_step (l_kernel L) (fun _ => QFloat.keep) (l_step_size L) 3
                                  (QFloat.q 1000 1) false) q q' ->
                   stop_flag (p_shared q') = true)
  /\ (stop_flag (p_shared p) = false -> stop_flag (p_shared p') = true ->
      exists w w' rest,
        p_workers p !! 0 = Some w /\ p_workers p' !! 0 = Some w'
        /\ w_job_id w = 0 /\ w_pc w = Sample [] rest /\ w_pc w' = Check rest
        /\ flt (cert (w_locals w')) (QFloat.q 1000 1) = true)
  /\ (forall w rest,
        p_workers p !! 0 = Some w -> w_pc w = Sample [] rest ->
        let c := fdiv (norm (zip_with fsub (x (p_shared p)) (x_old (w_locals w))))
                      (l_step_size L) in
        let q := schedule_step (l_kernel L) (fun _ => QFloat.keep) (l_step_size L) 3
                   (QFloat.q 1000 1) false p 0 in
        pool_step (l_kernel L) (fun _ => QFloat.keep) (l_step_size L) 3
                  (QFloat.q 1000 1) false p q
        /\ stop_flag (p_shared q)
           = (if flt c (QFloat.q 1000 1) then true else stop_flag (p_shared p))
        /\ exists w', p_workers q !! 0 = Some w' /\ w_pc w' = Check rest
                      /\ cert (w_locals w') = c)
  /\ (forall q,
        rtc (pool_step (l_kernel L) (fun _ => QFloat.keep) (l_step_size L) 3
                       (QFloat.q 1000 1) false) p q ->
        forall k w rest,
          p_workers q !! k = Some w -> w_pc w = Check rest ->
          stop_flag (p_shared q) = true ->
          worker_step (l_kernel L) (fun _ => QFloat.keep) (l_step_size L) 3
                      (QFloat.q 1000 1) false (p_shared q) w
          = Some (p_shared q,
                  mk_worker (w_job_id w)
                            (Returned (it (w_locals w)) (cert (w_locals w)))
                            (w_locals w)))
  /\ (forall q,
        rtc (pool_step (l_kernel L) (fun _ => QFloat.keep) (l_step_size L) 3
                       (QFloat.q 1000 1) false) p q ->
        forall k w n c,
          p_workers q !! k = Some w -> w_pc w = Returned n c ->
          forall q', rtc (pool_step (l_kernel L) (fun _ => QFloat.keep) (l_step_size L) 3
                                    (QFloat.q 1000 1) false) q q' ->
                     p_workers q' !! k = Some w).
Proof.
  intros L p p' p2.
  assert (setup QFloat.f23 None None (QFloat.q 1 10) 2 3 false
          = (fst (QFloat.demo_setup 3), inr L)) as Hs by reflexivity.
  assert (rtc (pool_step (l_kernel L) (fun _ => QFloat.keep) (l_step_size L) 3
                         (QFloat.q 1000 1) false) (l_pool L) p) as Hrun.
  { apply run_schedule_rtc. }
  assert (pool_step (l_kernel L) (fun _ => QFloat.keep) (l_step_size L) 3
                    (QFloat.q 1000 1) false p p') as Hstep.
  { apply schedule_step_enabled. vm_compute. reflexivity. }
  split; [split; [exact Hs|split; [exact Hrun|exact Hstep]]|].
  split; [repeat split; vm_compute; reflexivity|].
  exact (stop_flag_is_one_way_latch (fun _ => QFloat.keep) QFloat.f23 None None
           (QFloat.q 1 10) 2 3 (QFloat.q 1000 1) false (fst (QFloat.demo_setup 3))
           L p p' Hs Hrun Hstep).
Defined.

Lemma no_epoch_when_max_iter_at_most_one_witness :
  let log := [Alloc Buf_x; Alloc Buf_memory_gradient; Alloc Buf_gradient_average;
              Alloc Buf_trace_x; Alloc Buf_stop_flag]
             ++ map Submit (seq 0 (Z.to_nat 2)) in
  ((1 <= 1)%Z
   /\ (forall g', Some (DummyProx (F:=QFloat.t)) = Some g' -> is_separable g' = true)
   /\ (0 < 2)%Z
   /\ (true = true -> (0 < 1)%Z))
  /\ exists L,
       setup QFloat.f23 (Some DummyProx) None (QFloat.q 1 10) 2 1 true = (log, inr L)
       /\ (forall job_id, entry_store_in_bounds job_id true (p_shared (l_pool L)) = true)
       /\ (forall job_id s,
             entry_store_in_bounds job_id true s = true ->
             let r := epoch_iteration_template (l_kernel L) QFloat.keep (l_step_size L)
                        1 job_id (QFloat.q 1 100) true s in
             snd r = (0, finf)
             /\ x (fst r) = x s /\ memory_gradient (fst r) = memory_gradient s
             /\ gradient_average (fst r) = gradient_average s)
       /\ (exists r, minimize_SAGA (fun _ _ => []) (QFloat.q 1 1) (fun _ => QFloat.keep)
                       QFloat.f23 (Some DummyProx) None (QFloat.q 1 10) 2 1
                       (QFloat.q 1 100) true (log, inr r))
       /\ (forall out,
             minimize_SAGA (fun _ _ => []) (QFloat.q 1 1) (fun _ => QFloat.keep)
               QFloat.f23 (Some DummyProx) None (QFloat.q 1 10) 2 1 (QFloat.q 1 100)
               true out ->
             exists r, out = (log, inr r)
                       /\ nit r = 0 /\ certificate r = finf /\ success r = false
                       /\ res_x r = initial_point QFloat.f23 None)
       /\ (forall p,
             rtc (pool_step (l_kernel L) (fun _ => QFloat.keep) (l_step_size L) 1
                            (QFloat.q 1 100) true) (l_pool L) p ->
             x (p_shared p) = initial_point QFloat.f23 None
             /\ memory_gradient (p_shared p)
                = replicate (fst (shape (loss_A QFloat.f23))) fzero
             /\ gradient_average (p_shared p)
                = replicate (snd (shape (loss_A QFloat.f23))) fzero
             /\ forall k w, p_workers p !! k = Some w -> idle w).
Proof.
  intros log.
  assert (forall g', Some (DummyProx (F:=QFloat.t)) = Some g' -> is_separable g' = true)
    as Hsep.
  { intros g' Hg. injection Hg as <-. reflexivity. }
  assert (true = true -> (0 < 1)%Z) as Htrace by (intros _; lia).
  split; [split; [lia|split; [exact Hsep|split; [lia|exact Htrace]]]|].
  apply (no_epoch_when_max_iter_at_most_one (fun _ _ => []) (QFloat.q 1 1)
           (fun _ => QFloat.keep) QFloat.f23 (Some DummyProx) None (QFloat.q 1 10) 2 1
           (QFloat.q 1 100) true).
  - lia.
  - exact Hsep.
  - lia.
  - exact Htrace.
Defined.

(** * Further properties of the code *)

(** ** The block-support builder, for any block mapping *)

Lemma csr_wfb_intro indices indptr n_rows n_cols :
  length indptr = n_rows + 1 ->
  (forall i, i < n_rows -> indptr !!! i <= indptr !!! (i + 1)) ->
  indptr !!! n_rows <= length indices ->
  Forall (fun c => c < n_cols) indices ->
  csr_wfb indices indptr n_rows n_cols = true.
Proof.
  intros Hlen Hmono Hlast Hcols. unfold csr_wfb.
  rewrite !andb_true_iff, !forallb_forall, Nat.eqb_eq, Nat.leb_le.
  repeat split; try done.
  - intros i Hi. apply list_elem_of_In, elem_of_range in Hi. apply Nat.leb_le, Hmono. lia.
  - intros c Hc. apply Nat.ltb_lt. rewrite Forall_forall in Hcols.
    by apply Hcols, list_elem_of_In.
Qed.

Lemma block_row_bound indices indptr g_blocks n_rows n_cols n_blocks i blk :
  csr_wfb indices indptr n_rows n_cols = true ->
  blocks_wfb g_blocks n_cols n_blocks = true ->
  i < n_rows -> blk ∈ block_row indices indptr g_blocks i -> blk < n_blocks.
Proof.
  intros Hwf Hg Hi Hin. unfold block_row in Hin.
  apply elem_of_dedup_first, list_elem_of_In, in_map_iff in Hin as (c & <- & Hc).
  apply (blocks_wfb_spec _ _ _ Hg), (csr_row_bound _ _ _ _ Hwf i); [done|].
  by apply list_elem_of_In.
Qed.

(** X1. For any block mapping of the features into [n_blocks] blocks and any
    well-formed CSR index structure, row [i] of the structure the builder
    returns lists the blocks of the columns stored in row [i] of [A]: each
    block once, in order of first occurrence. *)
Theorem support_matrix_block_rows `{FloatOps F}
    (A_indices A_indptr g_blocks : list nat) (n_rows n_cols n_blocks : nat) :
  csr_wfb A_indices A_indptr n_rows n_cols = true ->
  blocks_wfb g_blocks n_cols n_blocks = true ->
  let '(BS_data, BS_indices, BS_indptr) :=
    _support_matrix (F:=F) A_indices A_indptr g_blocks n_blocks in
  BS_data = replicate (length BS_indices) fone
  /\ forall i, i < n_rows ->
       csr_row BS_indices BS_indptr i
       = dedup_first (map (fun c => g_blocks !!! c) (csr_row A_indices A_indptr i))
       /\ NoDup (csr_row BS_indices BS_indptr i)
       /\ forall blk, blk ∈ csr_row BS_indices BS_indptr i
                      <-> exists c, c ∈ csr_row A_indices A_indptr i /\ g_blocks !!! c = blk.
Proof.
  intros Hwf Hg. unfold _support_matrix.
  destruct (final_spec _ _ _ _ _ _ Hwf Hg) as (Hlen & _ & _ & _ & Hrows).
  split; [by rewrite Hlen|]. intros i Hi.
  destruct (Hrows i Hi) as (_ & _ & ->). unfold block_row.
  split; [done|]. split; [apply NoDup_dedup_first|].
  intros blk. rewrite elem_of_dedup_first, list_elem_of_In, in_map_iff.
  split; intros (c & Hc & Hin); exists c.
  - split; [by apply list_elem_of_In|done].
  - split; [done|by apply list_elem_of_In].
Qed.

Lemma final_well_formed (A_indices A_indptr g_blocks : list nat)
    (n_rows n_cols n_blocks : nat) :
  csr_wfb A_indices A_indptr n_rows n_cols = true ->
  blocks_wfb g_blocks n_cols n_blocks = true ->
  let st := Support.final A_indices A_indptr g_blocks n_blocks in
  let BS_indices := take (Support.counter_indptr st) (Support.BS_indices st) in
  csr_wfb BS_indices (Support.BS_indptr st) n_rows n_blocks = true
  /\ length BS_indices <= length A_indices.
Proof.
  intros Hwf Hg st BS_indices.
  destruct (final_spec _ _ _ _ _ _ Hwf Hg) as (Hlen & Hlptr & Hzero & Hlast & Hrows).
  pose proof (blocks_wfb_spec _ _ _ Hg) as Hg'.
  destruct (after_rows_inv _ _ _ _ _ _ Hwf Hg' n_rows ltac:(done))
    as (_ & Hlbs & _ & Hc & _).
  rewrite <- (final_after_rows _ _ _ _ _ _ Hwf) in Hlbs, Hc.
  fold st in Hlen, Hlptr, Hzero, Hlast, Hrows, Hlbs, Hc.
  fold BS_indices in Hlen, Hlast, Hrows.
  pose proof (indptr_bound _ _ _ _ Hwf n_rows ltac:(done)) as Hb.
  split; [|lia].
  apply csr_wfb_intro; try done.
  - intros i Hi. by apply Hrows.
  - lia.
  - rewrite <- (take_ge BS_indices (Support.BS_indptr st !!! n_rows)) by lia.
    rewrite (rows_concat _ _ n_rows) by (try done; intros; by apply Hrows).
    apply Forall_forall. intros blk Hin.
    apply list_elem_of_In, in_concat in Hin as (row & Hrow & Hin).
    apply in_map_iff in Hrow as (i & <- & Hi). apply in_seq in Hi.
    destruct (Hrows i ltac:(lia)) as (_ & _ & Hrow). rewrite Hrow in Hin.
    apply (block_row_bound A_indices A_indptr g_blocks n_rows n_cols n_blocks i);
      try done; [lia|by apply list_elem_of_In].
Qed.

(** X2. The structure the builder returns is itself a well-formed CSR index
    structure with the rows of [A] and [n_blocks] columns; it never holds
    more entries than [A], and no row of it is longer than the row of [A]
    it comes from. *)
Theorem support_matrix_well_formed `{FloatOps F}
    (A_indices A_indptr g_blocks : list nat) (n_rows n_cols n_blocks : nat) :
  csr_wfb A_indices A_indptr n_rows n_cols = true ->
  blocks_wfb g_blocks n_cols n_blocks = true ->
  let '(BS_data, BS_indices, BS_indptr) :=
    _support_matrix (F:=F) A_indices A_indptr g_blocks n_blocks in
  csr_wfb BS_indices BS_indptr n_rows n_blocks = true
  /\ BS_indptr !!! 0 = 0
  /\ BS_indptr !!! n_rows = length BS_indices
  /\ length BS_data = length BS_indices
  /\ length BS_indices <= length A_indices
  /\ forall i, i < n_rows ->
       length (csr_row BS_indices BS_indptr i) <= length (csr_row A_indices A_indptr i).
Proof.
  intros Hwf Hg. unfold _support_matrix.
  destruct (final_spec _ _ _ _ _ _ Hwf Hg) as (Hlen & Hlptr & Hzero & Hlast & Hrows).
  destruct (final_well_formed _ _ _ _ _ _ Hwf Hg) as [Hwf' Hle].
  repeat split; try done.
  - by rewrite length_replicate.
  - intros i Hi. destruct (Hrows i Hi) as (_ & _ & ->).
    unfold block_row. etrans; [apply dedup_first_length|]. by rewrite length_map.
Qed.

Lemma dedup_first_NoDup l : NoDup l -> dedup_first l = l.
Proof.
  induction 1 as [|c l Hnin Hnd IH]; simpl; [reflexivity|].
  rewrite IH. f_equal. clear IH Hnd.
  induction l as [|e l IH]; [reflexivity|].
  rewrite not_elem_of_cons in Hnin. destruct Hnin.
  rewrite filter_cons_True by congruence. f_equal. by apply IH.
Qed.

(** Two CSR index structures with the same rows are equal. *)
Lemma csr_same_rows (idx idx' ptr ptr' : list nat) (n_rows n_cols : nat) :
  csr_wfb idx ptr n_rows n_cols = true -> csr_wfb idx' ptr' n_rows n_cols = true ->
  ptr !!! 0 = 0 -> ptr' !!! 0 = 0 ->
  ptr !!! n_rows = length idx -> ptr' !!! n_rows = length idx' ->
  (forall i, i < n_rows -> csr_row idx ptr i = csr_row idx' ptr' i) ->
  idx = idx' /\ ptr = ptr'.
Proof.
  intros Hwf Hwf' Hz Hz' Hlast Hlast' Hrows.
  destruct (csr_wfb_spec _ _ _ _ Hwf) as (Hlen & Hmono & _).
  destruct (csr_wfb_spec _ _ _ _ Hwf') as (Hlen' & Hmono' & _).
  assert (forall k, k <= n_rows -> take (ptr !!! k) idx = take (ptr' !!! k) idx') as Htake.
  { intros k Hk. rewrite (rows_concat idx ptr n_rows), (rows_concat idx' ptr' n_rows) by done.
    f_equal. apply map_ext_in. intros i Hi. apply in_seq in Hi. apply Hrows. lia. }
  assert (forall k, k <= n_rows -> ptr !!! k = ptr' !!! k) as Hptr.
  { intros k Hk. pose proof (f_equal length (Htake k Hk)) as Hl.
    rewrite !length_take in Hl.
    pose proof (indptr_bound _ _ _ _ Hwf k Hk).
    pose proof (indptr_bound _ _ _ _ Hwf' k Hk). lia. }
  split.
  - rewrite <- (take_ge idx (ptr !!! n_rows)), <- (take_ge idx' (ptr' !!! n_rows)) by lia.
    by apply Htake.
  - apply (list_eq_same_length _ _ (n_rows + 1)); try done.
    intros i a c Hi Ha Hc.
    rewrite <- (list_lookup_total_correct _ _ _ Ha), <- (list_lookup_total_correct _ _ _ Hc).
    apply Hptr. lia.
Qed.

(** X3. The builder is idempotent: run on the structure it has returned,
    with the identity mapping over the blocks, it returns the same data,
    indices and row pointers. *)
Theorem support_matrix_idempotent `{FloatOps F}
    (A_indices A_indptr g_blocks : list nat) (n_rows n_cols n_blocks : nat) :
  csr_wfb A_indices A_indptr n_rows n_cols = true ->
  blocks_wfb g_blocks n_cols n_blocks = true ->
  let '(BS_data, BS_indices, BS_indptr) :=
    _support_matrix (F:=F) A_indices A_indptr g_blocks n_blocks in
  _support_matrix (F:=F) BS_indices BS_indptr (seq 0 n_blocks) n_blocks
  = (BS_data, BS_indices, BS_indptr).
Proof.
  intros Hwf Hg. unfold _support_matrix.
  destruct (final_spec _ _ _ _ _ _ Hwf Hg) as (Hlen & Hlptr & Hzero & Hlast & Hrows).
  destruct (final_well_formed _ _ _ _ _ _ Hwf Hg) as [Hwf1 _].
  set (st := Support.final A_indices A_indptr g_blocks n_blocks) in *.
  set (idx := take (Support.counter_indptr st) (Support.BS_indices st)) in *.
  set (ptr := Support.BS_indptr st) in *.
  destruct (final_spec _ _ _ _ _ _ Hwf1 (blocks_wfb_identity n_blocks))
    as (Hlen2 & Hlptr2 & Hzero2 & Hlast2 & Hrows2).
  destruct (final_well_formed _ _ _ _ _ _ Hwf1 (blocks_wfb_identity n_blocks)) as [Hwf2 _].
  set (st2 := Support.final idx ptr (seq 0 n_blocks) n_blocks) in *.
  set (idx2 := take (Support.counter_indptr st2) (Support.BS_indices st2)) in *.
  destruct (csr_same_rows idx2 idx (Support.BS_indptr st2) ptr n_rows n_blocks)
    as [Hidx Hptr]; try done.
  { intros i Hi. destruct (Hrows2 i Hi) as (_ & _ & ->).
    unfold block_row.
    rewrite (map_ext_in _ id), map_id.
    - apply dedup_first_NoDup. destruct (Hrows i Hi) as (_ & _ & ->).
      apply NoDup_dedup_first.
    - intros c Hc. apply lookup_total_seq_lt.
      apply (csr_row_bound _ _ _ _ Hwf1 i); [done|]. by apply list_elem_of_In. }
  rewrite <- Hlen2, <- Hlen. fold idx2 idx. by rewrite Hidx, Hptr.
Qed.

Lemma filter_out_constant (l : list nat) (a : nat) :
  Forall (fun c => c = a) l -> filter (fun c => c ≠ a) l = [].
Proof.
  induction 1 as [|c l -> _ IH]; [reflexivity|].
  rewrite filter_cons_False; [exact IH|]. intros Hc. by apply Hc.
Qed.

Lemma dedup_first_constant (l : list nat) (a : nat) :
  Forall (fun c => c = a) l -> dedup_first l = match l with [] => [] | _ => [a] end.
Proof.
  intros Hall. destruct l as [|c l]; [reflexivity|]. simpl.
  apply Forall_cons in Hall as [-> Hall]. f_equal.
  apply filter_out_constant, Forall_forall. intros c Hc.
  rewrite elem_of_dedup_first in Hc. rewrite Forall_forall in Hall. exact (Hall c Hc).
Qed.

(** X4. With a single block ([n_blocks == 1], the case the source marks
    FIXME) the builder does nothing special: a row of [A] with a stored
    entry gives the row [[0]], a row without stored entries an empty row. *)
Theorem support_matrix_single_block `{FloatOps F}
    (A_indices A_indptr g_blocks : list nat) (n_rows n_cols : nat) :
  csr_wfb A_indices A_indptr n_rows n_cols = true ->
  blocks_wfb g_blocks n_cols 1 = true ->
  let '(BS_data, BS_indices, BS_indptr) :=
    _support_matrix (F:=F) A_indices A_indptr g_blocks 1 in
  forall i, i < n_rows ->
    csr_row BS_indices BS_indptr i
    = match csr_row A_indices A_indptr i with [] => [] | _ => [0] end.
Proof.
  intros Hwf Hg. unfold _support_matrix.
  destruct (final_spec _ _ _ _ _ _ Hwf Hg) as (_ & _ & _ & _ & Hrows).
  intros i Hi. destruct (Hrows i Hi) as (_ & _ & ->). unfold block_row.
  rewrite (dedup_first_constant _ 0).
  - by destruct (csr_row A_indices A_indptr i).
  - apply Forall_forall. intros blk Hin.
    apply list_elem_of_In, in_map_iff in Hin as (c & <- & Hc).
    pose proof (blocks_wfb_spec _ _ _ Hg c) as Hb.
    pose proof (csr_row_bound _ _ _ _ Hwf i c Hi) as Hcb.
    rewrite list_elem_of_In in Hcb. specialize (Hb (Hcb Hc)). lia.
Qed.

(** ** The degree vector and the factory *)

(** X5. Lines 160-167 for any block mapping: the degree vector has one
    entry per block, [d[j] == 0] exactly when no row has a stored column
    mapped to block [j], and [d[j]] is the number of rows divided by the
    number of rows touching block [j] otherwise (floats counting
    exactly). *)
Theorem degree_vector_blocks `{CountLaws F} (A : csr_matrix F) (g_blocks : list nat)
    (n_rows n_cols n_blocks : nat) :
  shape A = (n_rows, n_cols) ->
  csr_wfb (indices A) (indptr A) n_rows n_cols = true ->
  blocks_wfb g_blocks n_cols n_blocks = true ->
  length (degree_vector A g_blocks n_blocks) = n_blocks
  /\ forall j, j < n_blocks ->
       let touching := touch_count (indices A) (indptr A) g_blocks n_rows j in
       touching <= n_rows
       /\ (fne (degree_vector A g_blocks n_blocks !!! j) fzero = false <-> touching = 0)
       /\ (touching <> 0 ->
           degree_vector A g_blocks n_blocks !!! j
           = fdiv (of_nat n_rows) (of_nat touching)).
Proof.
  intros Hshape Hwf Hg.
  destruct (degree_vector_lookup A g_blocks n_rows n_cols n_blocks Hshape Hwf Hg)
    as [Hlen Hd].
  split; [done|]. intros j Hj. cbv zeta.
  pose proof (touch_count_le A g_blocks n_rows j) as Hle.
  rewrite (Hd j Hj). split; [done|].
  destruct (touch_count _ _ _ _ _) as [|k].
  - split; [|done]. split; [done|]. intros _. apply fne_zero.
  - split; [|done]. rewrite fne_ratio by lia. split; [done|lia].
Qed.

Lemma csr_sum0_length `{FloatOps F} (n_cols : nat) (dat : list F) (ind : list nat) :
  length (csr_sum0 n_cols dat ind) = n_cols.
Proof.
  unfold csr_sum0. rewrite fold_left_length; [apply length_replicate|].
  intros l k. apply length_insert.
Qed.

Lemma degree_vector_length `{FloatOps F} (A : csr_matrix F) (g_blocks : list nat)
    (n_blocks : nat) :
  length (degree_vector A g_blocks n_blocks) = n_blocks.
Proof.
  unfold degree_vector, _support_matrix, degree.
  by rewrite length_map, csr_sum0_length.
Qed.

(** X6. The factory raises exactly when the penalty is not separable; the
    assertion of line 158 never fails.  For a separable penalty it returns
    a kernel that holds the arrays and the shape of [A], [b], [alpha], the
    two oracles, and a degree vector with one entry per feature, for any
    CSR arrays. *)
Theorem factory_outcome `{FloatOps F} (f : Loss F) (g : Penalty F) :
  _factory_sparse_SAGA f g <> inl AssertionError
  /\ (_factory_sparse_SAGA f g = inl NotImplementedError <-> is_separable g = false)
  /\ (is_separable g = true ->
      exists K, _factory_sparse_SAGA f g = inr K
        /\ A_data K = data (loss_A f) /\ A_indices K = indices (loss_A f)
        /\ A_indptr K = indptr (loss_A f)
        /\ (n_samples K, n_features K) = shape (loss_A f)
        /\ b K = loss_b f /\ f_alpha K = loss_alpha f
        /\ partial_gradient K = partial_gradient_factory f
        /\ prox K = prox_factory g
        /\ length (d K) = n_features K).
Proof.
  unfold _factory_sparse_SAGA. destruct (shape (loss_A f)) as [n m] eqn:Hshape.
  rewrite remove_dups_seq, length_seq, bool_decide_eq_true_2 by done.
  destruct (is_separable g); repeat split; try done.
  eexists. split; [reflexivity|]. simpl. repeat split; try done.
  apply degree_vector_length.
Qed.

(** ** The epoch kernel, one call *)

Lemma recompute_average_length `{FloatOps F} (K : closure F) (mem : list F)
    (order : list nat) :
  length (recompute_average K mem order) = n_features K.
Proof.
  unfold recompute_average. rewrite fold_left_length; [apply length_replicate|].
  intros l i. apply fold_left_length. intros l' j. apply length_insert.
Qed.

Section KernelExtras.
Context `{FloatOps F}.
Variable K : closure F.
Variable shuffle : nat -> list nat -> list nat.
Variables (step_size : F) (max_iter : Z) (job_id : nat) (tol : F) (trace : bool).

Local Abbreviation body := (epoch_body K shuffle step_size job_id tol trace).
Local Abbreviation loop := (epoch_loop K shuffle step_size job_id tol trace).
Local Abbreviation run := (kernel_run K shuffle step_size max_iter job_id tol trace).

Lemma role_action_sizes s l :
  buffers_okb K s = true ->
  buffers_okb K (fst (role_action K step_size job_id tol trace s l)) = true
  /\ length (trace_x (fst (role_action K step_size job_id tol trace s l)))
     = length (trace_x s).
Proof.
  rewrite !buffers_okb_spec. intros (Hx & Hg & Hm). unfold role_action.
  destruct (Nat.eqb job_id 0); [|destruct (Nat.eqb job_id 1)]; simpl;
    rewrite ?recompute_average_length; repeat split; try done.
  destruct trace; [apply length_insert|done].
Qed.

Lemma epoch_body_sizes k st :
  buffers_okb K (fst st) = true ->
  buffers_okb K (fst (body k st)) = true
  /\ length (trace_x (fst (body k st))) = length (trace_x (fst st)).
Proof.
  intros Hbuf. unfold epoch_body.
  set (l1 := begin_epoch shuffle k (snd st)).
  pose proof (sample_updates_buffers K step_size (sample_indices l1) (fst st) Hbuf) as Hb1.
  destruct (sample_updates_flag K step_size (sample_indices l1) (fst st)) as [_ Htr].
  destruct (role_action_sizes _ l1 Hb1) as [Hb2 Hl2]. split; [done|]. by rewrite Hl2, Htr.
Qed.

Lemma epoch_loop_sizes its : forall st,
  buffers_okb K (fst st) = true ->
  buffers_okb K (fst (loop its st)) = true
  /\ length (trace_x (fst (loop its st))) = length (trace_x (fst st)).
Proof.
  induction its as [|k its IH]; intros st Hbuf; simpl; [done|].
  destruct (epoch_body_sizes k st Hbuf) as [Hb Hl].
  destruct (stop_flag (fst (body k st))); [done|].
  destruct (IH _ Hb) as [Hb' Hl']. split; [done|]. by rewrite Hl', Hl.
Qed.

Lemma kernel_entry_sizes s :
  buffers_okb K s = true ->
  buffers_okb K (fst (kernel_entry K job_id trace s)) = true
  /\ length (trace_x (fst (kernel_entry K job_id trace s))) = length (trace_x s).
Proof.
  intros Hbuf. split; [done|]. simpl.
  destruct (Nat.eqb job_id 0 && trace); [apply length_insert|done].
Qed.

Lemma epoch_body_keeps_flag k st :
  stop_flag (fst st) = true -> stop_flag (fst (body k st)) = true.
Proof.
  intros Hset. unfold epoch_body.
  set (l1 := begin_epoch shuffle k (snd st)).
  destruct (sample_updates_flag K step_size (sample_indices l1) (fst st)) as [Hflag _].
  destruct (role_action_locals K step_size job_id tol trace
              (fold_left (sample_update K step_size) (sample_indices l1) (fst st)) l1)
    as (_ & _ & _ & Hkeep & _).
  apply Hkeep. by rewrite Hflag.
Qed.

(** For worker 0 an epoch entered with the flag unset leaves the flag equal
    to the test [cert < tol]. *)
Lemma epoch_body_flag_test k st :
  job_id = 0 -> stop_flag (fst st) = false ->
  stop_flag (fst (body k st)) = flt (cert (snd (body k st))) tol.
Proof.
  intros Hj Hoff. unfold epoch_body.
  set (l1 := begin_epoch shuffle k (snd st)).
  destruct (sample_updates_flag K step_size (sample_indices l1) (fst st)) as [Hflag _].
  rewrite Hoff in Hflag.
  set (s1 := fold_left (sample_update K step_size) (sample_indices l1) (fst st)) in *.
  unfold role_action. rewrite Hj. simpl. rewrite Hflag. by destruct (flt _ _).
Qed.

Lemma epoch_loop_flag_test k its : forall st,
  job_id = 0 -> stop_flag (fst st) = false ->
  stop_flag (fst (loop (k :: its) st)) = flt (cert (snd (loop (k :: its) st))) tol.
Proof.
  revert k. induction its as [|k' its IH]; intros k st Hj Hoff.
  - assert (loop [k] st = body k st) as ->.
    { change (loop [k] st)
        with (if stop_flag (fst (body k st)) then body k st else body k st).
      by destruct (stop_flag (fst (body k st))). }
    by apply epoch_body_flag_test.
  - change (loop (k :: k' :: its) st)
      with (if stop_flag (fst (body k st)) then body k st
            else loop (k' :: its) (body k st)).
    destruct (stop_flag (fst (body k st))) eqn:Hstop.
    + by apply epoch_body_flag_test.
    + by apply IH.
Qed.
Lemma epoch_loop_runs_mono its : forall st,
  epochs_run (snd st) <= epochs_run (snd (loop its st)).
Proof.
  induction its as [|k its IH]; intros st; [done|].
  change (loop (k :: its) st)
    with (if stop_flag (fst (body k st)) then body k st else loop its (body k st)).
  destruct (epoch_body_locals K shuffle step_size job_id tol trace k st) as (_ & Hr & _).
  destruct (stop_flag (fst (body k st))); [lia|].
  etrans; [|apply IH]. lia.
Qed.

Lemma epoch_loop_runs_cons k its st :
  S (epochs_run (snd st)) <= epochs_run (snd (loop (k :: its) st)).
Proof.
  change (loop (k :: its) st)
    with (if stop_flag (fst (body k st)) then body k st else loop its (body k st)).
  destruct (epoch_body_locals K shuffle step_size job_id tol trace k st) as (_ & Hr & _).
  destruct (stop_flag (fst (body k st))); [lia|].
  etrans; [|apply epoch_loop_runs_mono]. lia.
Qed.
End KernelExtras.

(** X7. A call of the kernel keeps the sizes of the shared buffers: [x] and
    [gradient_average] keep one entry per feature, [memory_gradient] one
    per sample, and the trace buffer its number of rows, whatever the CSR
    arrays, the shuffles and the role of the worker are. *)
Theorem kernel_keeps_buffer_sizes `{FloatOps F} (K : closure F)
    (shuffle : nat -> list nat -> list nat) (step_size : F) (max_iter : Z)
    (job_id : nat) (tol : F) (trace : bool) (s : shared F) :
  buffers_okb K s = true ->
  let s' := fst (kernel_run K shuffle step_size max_iter job_id tol trace s) in
  length (x s') = n_features K
  /\ length (gradient_average s') = n_features K
  /\ length (memory_gradient s') = n_samples K
  /\ length (trace_x s') = length (trace_x s).
Proof.
  intros Hbuf s'. unfold s', kernel_run.
  destruct (kernel_entry_sizes K job_id trace s Hbuf) as [Hb0 Hl0].
  destruct (epoch_loop_sizes K shuffle step_size job_id tol trace (epoch_range max_iter)
              _ Hb0) as [Hb Hl].
  apply buffers_okb_spec in Hb as (Hx & Hg & Hm).
  repeat split; try done. by rewrite Hl, Hl0.
Qed.

(** X8. The flag is tested only at the end of an epoch: a call that finds
    the stop flag already set still executes one full epoch (none when
    [max_iter <= 1]), returns that count and leaves the flag set. *)
Theorem kernel_runs_one_epoch_when_flag_set `{FloatOps F} (K : closure F)
    (shuffle : nat -> list nat -> list nat) (step_size : F) (max_iter : Z)
    (job_id : nat) (tol : F) (trace : bool) (s : shared F) :
  stop_flag s = true ->
  let st' := kernel_run K shuffle step_size max_iter job_id tol trace s in
  stop_flag (fst st') = true
  /\ epochs_run (snd st') = (if (1 <? max_iter)%Z then 1 else 0)
  /\ fst (snd (epoch_iteration_template K shuffle step_size max_iter job_id tol trace s))
     = (if (1 <? max_iter)%Z then 1 else 0).
Proof.
  intros Hset st'. unfold st', epoch_iteration_template, kernel_run, epoch_range.
  destruct (Z.ltb_spec 1 max_iter) as [Hlt|Hge].
  - destruct (Z.to_nat (max_iter - 1)) as [|m] eqn:Em; [lia|]. simpl.
    pose proof (epoch_body_keeps_flag K shuffle step_size job_id tol trace 1
                  (kernel_entry K job_id trace s) Hset) as Hkeep.
    destruct (epoch_body_locals K shuffle step_size job_id tol trace 1
                (kernel_entry K job_id trace s)) as (Hit & Hruns & _).
    rewrite Hkeep.
    destruct (epoch_body K shuffle step_size job_id tol trace 1
                (kernel_entry K job_id trace s)) as [s1 l1]. simpl in *.
    by rewrite Hit, Hruns.
  - replace (Z.to_nat (max_iter - 1)) with 0 by lia. simpl. done.
Qed.

(** X9. For worker 0 called with the flag unset and [max_iter > 1], the
    flag on return is the outcome of the last test [cert < tol]; the call
    returns before [max_iter - 1] epochs only with a certificate below
    [tol]. *)
Theorem monitor_flag_is_certificate_test `{FloatOps F} (K : closure F)
    (shuffle : nat -> list nat -> list nat) (step_size : F) (max_iter : Z)
    (tol : F) (trace : bool) (s : shared F) :
  stop_flag s = false -> (1 < max_iter)%Z ->
  let st' := kernel_run K shuffle step_size max_iter 0 tol trace s in
  stop_flag (fst st') = flt (cert (snd st')) tol
  /\ (1 <= epochs_run (snd st'))
  /\ ((Z.of_nat (epochs_run (snd st')) < max_iter - 1)%Z ->
      flt (cert (snd st')) tol = true).
Proof.
  intros Hoff Hmax st'. unfold st', kernel_run, epoch_range.
  destruct (epoch_loop_count K shuffle step_size 0 tol trace
              (Z.to_nat (max_iter - 1)) 1 (kernel_entry K 0 trace s))
    as (_ & Hrange & Hfull & _); [done|done|].
  destruct (Z.to_nat (max_iter - 1)) as [|m] eqn:Em; [lia|].
  pose proof (epoch_loop_flag_test K shuffle step_size 0 tol trace 1 (seq 2 m)
                (kernel_entry K 0 trace s) eq_refl Hoff) as Htest.
  change (1 :: seq 2 m) with (seq 1 (S m)) in Htest.
  set (st1 := epoch_loop K shuffle step_size 0 tol trace (seq 1 (S m)) _) in *.
  split; [done|]. split.
  - apply (epoch_loop_runs_cons K shuffle step_size 0 tol trace 1 (seq 2 m)
             (kernel_entry K 0 trace s)).
  - intros Hearly. rewrite <- Htest.
    destruct (stop_flag (fst st1)) eqn:E; [done|]. specialize (Hfull eq_refl). lia.
Qed.

Section TraceRows.
Context `{FloatOps F}.
Variable K : closure F.
Variable shuffle : nat -> list nat -> list nat.
Variables (step_size : F) (job_id : nat) (tol : F) (trace : bool).

Local Abbreviation body := (epoch_body K shuffle step_size job_id tol trace).
Local Abbreviation loop := (epoch_loop K shuffle step_size job_id tol trace).

Lemma epoch_body_trace_row k st :
  job_id = 0 -> trace = true -> k <> 0 -> k < length (trace_x (fst st)) ->
  trace_x (fst (body k st)) !!! k = x (fst (body k st))
  /\ trace_x (fst (body k st)) !!! 0 = trace_x (fst st) !!! 0
  /\ length (trace_x (fst (body k st))) = length (trace_x (fst st))
  /\ it (snd (body k st)) = k.
Proof.
  intros Hj Htr Hk Hlt. unfold epoch_body.
  set (l1 := begin_epoch shuffle k (snd st)).
  destruct (sample_updates_flag K step_size (sample_indices l1) (fst st)) as [_ Htrace].
  set (s1 := fold_left (sample_update K step_size) (sample_indices l1) (fst st)) in *.
  unfold role_action. rewrite Hj, Htr. simpl. rewrite Htrace.
  repeat split.
  - by apply list_lookup_total_insert_eq.
  - by apply list_lookup_total_insert_ne.
  - apply length_insert.
Qed.

Lemma epoch_loop_trace_rows m : forall a st,
  job_id = 0 -> trace = true -> 1 <= a -> a + m <= length (trace_x (fst st)) ->
  trace_x (fst st) !!! it (snd st) = x (fst st) ->
  trace_x (fst (loop (seq a m) st)) !!! 0 = trace_x (fst st) !!! 0
  /\ trace_x (fst (loop (seq a m) st)) !!! it (snd (loop (seq a m) st))
     = x (fst (loop (seq a m) st))
  /\ length (trace_x (fst (loop (seq a m) st))) = length (trace_x (fst st)).
Proof.
  induction m as [|m IH]; intros a st Hj Htr Ha Hlen Hrow; [done|].
  change (loop (seq a (S m)) st)
    with (if stop_flag (fst (body a st)) then body a st else loop (seq (S a) m) (body a st)).
  destruct (epoch_body_trace_row a st Hj Htr ltac:(lia) ltac:(lia))
    as (Hrow' & Hzero & Hlen' & Hit).
  destruct (stop_flag (fst (body a st))).
  - by rewrite Hit.
  - destruct (IH (S a) (body a st) Hj Htr ltac:(lia)) as (Hz & Hr & Hl).
    + rewrite Hlen'. lia.
    + by rewrite Hit.
    + by rewrite Hz, Hr, Hl, Hzero, Hlen'.
Qed.

Lemma epoch_body_trace_untouched k st :
  job_id <> 0 \/ trace = false ->
  trace_x (fst (body k st)) = trace_x (fst st).
Proof.
  intros Hoff. unfold epoch_body.
  set (l1 := begin_epoch shuffle k (snd st)).
  destruct (sample_updates_flag K step_size (sample_indices l1) (fst st)) as [_ Htrace].
  set (s1 := fold_left (sample_update K step_size) (sample_indices l1) (fst st)) in *.
  unfold role_action.
  destruct (Nat.eqb_spec job_id 0) as [Hj|Hj].
  - destruct Hoff as [Hne| ->]; [done|]. done.
  - by destruct (Nat.eqb job_id 1).
Qed.

Lemma epoch_loop_trace_untouched its : forall st,
  job_id <> 0 \/ trace = false ->
  trace_x (fst (loop its st)) = trace_x (fst st).
Proof.
  induction its as [|k its IH]; intros st Hoff; [done|].
  change (loop (k :: its) st)
    with (if stop_flag (fst (body k st)) then body k st else loop its (body k st)).
  pose proof (epoch_body_trace_untouched k st Hoff) as Hb.
  destruct (stop_flag (fst (body k st))); [done|]. by rewrite IH.
Qed.
End TraceRows.

(** X10. Worker 0 with tracing on, called with a trace buffer of [max_iter]
    rows: on return row 0 holds the [x] found at entry, row [it] (the
    returned count) holds the [x] left by the call, and the buffer has
    kept its rows. *)
Theorem trace_rows_of_monitor `{FloatOps F} (K : closure F)
    (shuffle : nat -> list nat -> list nat) (step_size : F) (max_iter : Z)
    (tol : F) (s : shared F) :
  (0 < max_iter)%Z ->
  length (trace_x s) = Z.to_nat max_iter ->
  let st' := kernel_run K shuffle step_size max_iter 0 tol true s in
  trace_x (fst st') !!! 0 = x s
  /\ trace_x (fst st') !!! it (snd st') = x (fst st')
  /\ it (snd st') < length (trace_x (fst st'))
  /\ length (trace_x (fst st')) = length (trace_x s).
Proof.
  intros Hmax Hlen st'. unfold st', kernel_run, epoch_range.
  assert (length (trace_x (fst (kernel_entry K 0 true s))) = Z.to_nat max_iter) as Hlen0.
  { simpl. by rewrite length_insert. }
  assert (trace_x (fst (kernel_entry K 0 true s)) !!! 0 = x s) as Hrow0.
  { simpl. apply list_lookup_total_insert_eq. lia. }
  destruct (epoch_loop_trace_rows K shuffle step_size 0 tol true
              (Z.to_nat (max_iter - 1)) 1 (kernel_entry K 0 true s))
    as (Hz & Hr & Hl); try done.
  { rewrite Hlen0. lia. }
  destruct (epoch_loop_count K shuffle step_size 0 tol true
              (Z.to_nat (max_iter - 1)) 1 (kernel_entry K 0 true s))
    as (Hit & Hrange & _); [done|done|].
  repeat split.
  - by rewrite Hz.
  - done.
  - rewrite Hl, Hlen0, Hit. lia.
  - by rewrite Hl, Hlen0.
Qed.

(** X11. Only worker 0 with tracing on writes the trace buffer: a call
    with another [job_id], or with tracing off, returns it unchanged. *)
Theorem trace_untouched_by_other_workers `{FloatOps F} (K : closure F)
    (shuffle : nat -> list nat -> list nat) (step_size : F) (max_iter : Z)
    (job_id : nat) (tol : F) (trace : bool) (s : shared F) :
  job_id <> 0 \/ trace = false ->
  trace_x (fst (kernel_run K shuffle step_size max_iter job_id tol trace s)) = trace_x s.
Proof.
  intros Hoff. unfold kernel_run.
  rewrite (epoch_loop_trace_untouched K shuffle step_size job_id tol trace) by done.
  simpl. destruct (Nat.eqb_spec job_id 0) as [Hj|Hj]; [|done].
  destruct Hoff as [Hne| ->]; [done|]. done.
Qed.

(** ** The pool of workers: progress and termination *)

Lemma sum_list_insert_lt {A} (f : A -> nat) (l : list A) (k : nat) (a c : A) :
  l !! k = Some a -> f c < f a ->
  sum_list (map f (<[k := c]> l)) < sum_list (map f l).
Proof.
  revert k. induction l as [|e l IH]; intros k Hk Hlt; [done|].
  destruct k as [|k]; simpl in *.
  - injection Hk as ->. lia.
  - specialize (IH k Hk Hlt). lia.
Qed.

Lemma sum_list_constant {A B} (f : A -> nat) (h : B -> A) (l : list B) (v : nat) :
  (forall e, f (h e) = v) -> sum_list (map f (map h l)) = length l * v.
Proof.
  intros Hv. induction l as [|e l IH]; simpl; [done|]. rewrite IH, Hv. lia.
Qed.

Section PoolProgress.
Context `{FloatOps F}.
Variable K : closure F.
Variable shuffle : nat -> nat -> list nat -> list nat.
Variables (step_size : F) (max_iter : Z) (tol : F) (trace : bool).

Local Abbreviation wstep := (worker_step K shuffle step_size max_iter tol trace).
Local Abbreviation pstep := (pool_step K shuffle step_size max_iter tol trace).


Hypothesis Hshuffle : forall j k l, length (shuffle j k l) = length l.

Lemma worker_step_fuel s w s' w' :
  wstep s w = Some (s', w') ->
  worker_fuel K max_iter w' < worker_fuel K max_iter w.
Proof.
  destruct w as [j c l]. unfold worker_step, worker_fuel. simpl.
  destruct c as [|[|k rest]|[|i pending] rest|rest|n cf]; simpl.
  - intros [= <- <-]. simpl. rewrite length_seq. lia.
  - intros [= <- <-]. simpl. lia.
  - intros [= <- <-]. simpl. rewrite Hshuffle. lia.
  - destruct (role_action K step_size j tol trace s l) as [s1 l1] eqn:E.
    intros [= <- <-]. simpl.
    destruct (role_action_locals K step_size j tol trace s l) as (_ & _ & Hsi & _).
    rewrite E in Hsi. simpl in Hsi. rewrite Hsi. lia.
  - intros [= <- <-]. simpl. lia.
  - destruct (stop_flag s); intros [= <- <-]; simpl; lia.
  - discriminate.
Qed.

Lemma pool_step_fuel p p' :
  pstep p p' -> pool_fuel K max_iter p' < pool_fuel K max_iter p.
Proof.
  intros [k w s' w' Hk Hw]. unfold pool_fuel. simpl.
  apply (sum_list_insert_lt _ _ _ w); [done|]. by apply (worker_step_fuel _ _ _ _ Hw).
Qed.

Lemma pool_nsteps_fuel n p p' :
  nsteps pstep n p p' -> n + pool_fuel K max_iter p' <= pool_fuel K max_iter p.
Proof.
  induction 1 as [|n p p1 p2 Hstep _ IH]; [done|].
  pose proof (pool_step_fuel _ _ Hstep). lia.
Qed.
End PoolProgress.

(** X13. Every run of the workers is finite: when the shuffles keep the
    number of samples, a run of the jobs submitted by a call takes at most
    [n_jobs * ((max_iter - 1) * (n_samples + 3) + 2)] steps. *)
Theorem pool_runs_are_bounded `{FloatOps F}
    (shuffle : nat -> nat -> list nat -> list nat)
    (f : Loss F) (g : option (Penalty F)) (x0 : option (list F))
    (step_size : F) (n_jobs max_iter : Z) (tol : F) (trace : bool)
    (log : list event) (L : launch F) (n : nat) (p : pool F) :
  setup f g x0 step_size n_jobs max_iter trace = (log, inr L) ->
  (forall j k l, length (shuffle j k l) = length l) ->
  nsteps (pool_step (l_kernel L) shuffle (l_step_size L) max_iter tol trace) n (l_pool L) p ->
  n <= Z.to_nat n_jobs
       * (Z.to_nat (max_iter - 1) * (n_samples (l_kernel L) + 3) + 2).
Proof.
  intros Hs Hshuffle Hrun.
  pose proof (pool_nsteps_fuel (l_kernel L) shuffle (l_step_size L) max_iter tol trace
                Hshuffle n _ _ Hrun) as Hfuel.
  destruct (setup_submits f g x0 step_size n_jobs max_iter trace log L Hs)
    as (_ & _ & _ & _ & _ & Hws).
  assert (pool_fuel (l_kernel L) max_iter (l_pool L)
          = Z.to_nat n_jobs
            * (Z.to_nat (max_iter - 1) * (n_samples (l_kernel L) + 3) + 2)) as Hinit.
  { unfold pool_fuel. rewrite Hws.
    rewrite (sum_list_constant _ _ _
               (Z.to_nat (max_iter - 1) * (n_samples (l_kernel L) + 3) + 2)).
    - by rewrite length_seq.
    - intros j. unfold worker_fuel, epoch_range. simpl. by rewrite length_seq. }
  lia.
Qed.

(** ** The pool of workers: what holds in every state of a run *)

Section PoolInvariants.
Context `{FloatOps F}.
Variable K : closure F.
Variable shuffle : nat -> nat -> list nat -> list nat.
Variables (step_size : F) (max_iter : Z) (tol : F) (trace : bool).

Local Abbreviation wstep := (worker_step K shuffle step_size max_iter tol trace).
Local Abbreviation pstep := (pool_step K shuffle step_size max_iter tol trace).
Local Abbreviation m := (Z.to_nat (max_iter - 1)).

Lemma worker_step_counted s w s' w' :
  counted max_iter w -> wstep s w = Some (s', w') ->
  counted max_iter w'
  /\ (forall n c, w_pc w' = Returned n c -> n < m -> stop_flag s' = true).
Proof.
  destruct w as [j c l]. unfold worker_step, counted. simpl.
  destruct c as [|[|k rest]|[|i pending] rest|rest|n cf]; simpl.
  - intros _ [= <- <-]. simpl. rewrite Nat.sub_0_r.
    split; [|intros ? ? ?; discriminate]. repeat split; try done. lia.
  - intros (Hit & Hle & Hrest & Hcert) [= <- <-]. simpl.
    split; [rewrite Hit; repeat split; done|].
    intros n c [= <- <-] Hlt. rewrite Hit in Hlt.
    destruct (m - epochs_run l) eqn:E; [lia|discriminate].
  - intros (Hit & Hle & Hrest & Hcert) [= <- <-]. simpl.
    destruct (m - epochs_run l) as [|q] eqn:E; [discriminate|].
    simpl in Hrest. injection Hrest as -> ->.
    split; [|intros ? ? ?; discriminate]. repeat split; try done; try lia.
    f_equal. lia.
  - intros [(Hit & Hle & Hrest & Hcert) Hone].
    destruct (role_action K step_size j tol trace s l) as [s1 l1] eqn:E.
    intros [= <- <-]. simpl.
    destruct (role_action_locals K step_size j tol trace s l)
      as (Hit' & Hruns' & _ & _ & Hother & _).
    rewrite E in Hit', Hruns', Hother. simpl in Hit', Hruns', Hother.
    rewrite Hit', Hruns'. split; [|intros ? ? ?; discriminate].
    repeat split; try done.
    intros Hj. destruct (Hother Hj) as [-> _]. by apply Hcert.
  - intros [Hok Hone] [= <- <-]. simpl. split; [done|intros ? ? ?; discriminate].
  - intros [(Hit & Hle & Hrest & Hcert) Hone].
    destruct (stop_flag s) eqn:Hstop; intros [= <- <-]; simpl.
    + split; [rewrite Hit; repeat split; done|]. done.
    + split; [repeat split; done|intros ? ? ?; discriminate].
  - discriminate.
Qed.

Lemma pool_step_counted p p' :
  pstep p p' ->
  (forall k w, p_workers p !! k = Some w ->
     counted max_iter w
     /\ (forall n c, w_pc w = Returned n c -> n < m -> stop_flag (p_shared p) = true)) ->
  (forall k w, p_workers p' !! k = Some w ->
     counted max_iter w
     /\ (forall n c, w_pc w = Returned n c -> n < m -> stop_flag (p_shared p') = true)).
Proof.
  intros [k w s' w' Hk Hw] Hinv k' wk. simpl.
  destruct (Hinv k w Hk) as [Hc _].
  destruct (worker_step_counted _ _ _ _ Hc Hw) as [Hc' Hret'].
  destruct (worker_step_flag K shuffle step_size max_iter tol trace _ _ _ _ Hw)
    as (_ & Hkeep & _).
  destruct (decide (k = k')) as [<-|Hne].
  - rewrite list_lookup_insert_eq by (by apply lookup_lt_Some in Hk).
    by intros [= <-].
  - rewrite list_lookup_insert_ne by done. intros Hk'.
    destruct (Hinv k' wk Hk') as [Hck Hretk]. split; [done|].
    intros n c Hpc Hlt. apply Hkeep. by apply (Hretk n c).
Qed.

Lemma pool_run_counted p p' :
  rtc pstep p p' ->
  (forall k w, p_workers p !! k = Some w ->
     counted max_iter w
     /\ (forall n c, w_pc w = Returned n c -> n < m -> stop_flag (p_shared p) = true)) ->
  (forall k w, p_workers p' !! k = Some w ->
     counted max_iter w
     /\ (forall n c, w_pc w = Returned n c -> n < m -> stop_flag (p_shared p') = true)).
Proof. induction 1; eauto using pool_step_counted. Qed.

(** The sizes of the buffers under the steps of the workers. *)
Lemma worker_step_sizes s w s' w' :
  length (gradient_average s) = n_features K ->
  wstep s w = Some (s', w') ->
  length (x s') = length (x s)
  /\ length (memory_gradient s') = length (memory_gradient s)
  /\ length (gradient_average s') = n_features K.
Proof.
  intros Hg. destruct w as [j c l]. unfold worker_step. simpl.
  destruct c as [|[|k rest]|[|i pending] rest|rest|n cf]; simpl.
  - by intros [= <- <-].
  - by intros [= <- <-].
  - by intros [= <- <-].
  - unfold role_action.
    destruct (Nat.eqb j 0); [|destruct (Nat.eqb j 1)]; intros [= <- <-]; simpl;
      rewrite ?recompute_average_length; done.
  - intros [= <- <-].
    destruct (sample_update_lengths K step_size s i) as (-> & -> & ->). done.
  - by destruct (stop_flag s); intros [= <- <-].
  - discriminate.
Qed.

Lemma pool_run_sizes p p' :
  rtc pstep p p' ->
  length (gradient_average (p_shared p)) = n_features K ->
  length (x (p_shared p')) = length (x (p_shared p))
  /\ length (memory_gradient (p_shared p')) = length (memory_gradient (p_shared p))
  /\ length (gradient_average (p_shared p')) = n_features K.
Proof.
  induction 1 as [p|p p1 p2 Hstep _ IH]; intros Hg; [done|].
  destruct Hstep as [k w s' w' Hk Hw].
  destruct (worker_step_sizes _ _ _ _ Hg Hw) as (Hx & Hm & Hg').
  destruct (IH Hg') as (-> & -> & ->). done.
Qed.
End PoolInvariants.

Lemma setup_kernel `{FloatOps F} (f : Loss F) (g : option (Penalty F))
    (x0 : option (list F)) (step_size : F) (n_jobs max_iter : Z) (trace : bool)
    (log : list event) (L : launch F) :
  setup f g x0 step_size n_jobs max_iter trace = (log, inr L) ->
  n_samples (l_kernel L) = fst (shape (loss_A f))
  /\ n_features (l_kernel L) = snd (shape (loss_A f)).
Proof.
  unfold setup, bind, tell, ret, lift, raise. simpl.
  destruct (_factory_sparse_SAGA f _) as [e|Kf] eqn:Efac; [discriminate|].
  assert (n_samples Kf = fst (shape (loss_A f))
          /\ n_features Kf = snd (shape (loss_A f))) as HK.
  { unfold _factory_sparse_SAGA in Efac. destruct (shape (loss_A f)) as [n q].
    destruct (is_separable _); [|discriminate].
    destruct (bool_decide _); [|discriminate]. by injection Efac as <-. }
  destruct (shape (loss_A f)) as [n q]. simpl.
  destruct trace; [destruct (max_iter <? 0)%Z; [discriminate|]|];
    simpl; by intros [= <- <-].
Qed.

(** X14. In every state of a run of the workers of a call, a worker that
    has returned reports exactly the number of epochs it has executed; this
    number is at most [max_iter - 1], it is smaller only when the stop flag
    is set, and the certificate a worker other than worker 0 returns is
    [inf]. *)
Theorem returned_count_in_any_run `{FloatOps F}
    (shuffle : nat -> nat -> list nat -> list nat)
    (f : Loss F) (g : option (Penalty F)) (x0 : option (list F))
    (step_size : F) (n_jobs max_iter : Z) (tol : F) (trace : bool)
    (log : list event) (L : launch F) (p : pool F) (k : nat) (w : worker F)
    (n : nat) (c : F) :
  setup f g x0 step_size n_jobs max_iter trace = (log, inr L) ->
  rtc (pool_step (l_kernel L) shuffle (l_step_size L) max_iter tol trace) (l_pool L) p ->
  p_workers p !! k = Some w ->
  w_pc w = Returned n c ->
  n = epochs_run (w_locals w)
  /\ (Z.of_nat n <= Z.max 0 (max_iter - 1))%Z
  /\ ((Z.of_nat n < max_iter - 1)%Z -> stop_flag (p_shared p) = true)
  /\ (k <> 0 -> c = finf).
Proof.
  intros Hs Hrun Hk Hpc.
  destruct (setup_pool_start f g x0 step_size n_jobs max_iter trace log L Hs)
    as (_ & Hjobs & Hstart & _).
  pose proof (pool_run_jobs _ _ _ _ _ _ _ _ Hrun Hjobs k w Hk) as Hj.
  destruct (pool_run_counted (l_kernel L) shuffle (l_step_size L) max_iter tol trace
              _ _ Hrun) with (k := k) (w := w) as [Hc Hflag]; [|done|].
  { intros k' w' Hk'. unfold counted. rewrite (Hstart k' w' Hk'). split; [done|].
    intros n' c' Hpc'. discriminate. }
  unfold counted in Hc. rewrite Hpc in Hc. destruct Hc as (Hn & Hle & Hcert & Hinf).
  repeat split.
  - done.
  - lia.
  - intros Hlt. apply (Hflag n c Hpc). lia.
  - intros Hne. apply Hinf. by rewrite Hj.
Qed.

(** X15. In every state of a run of the workers of a call there are exactly
    [n_jobs] workers, worker [k] running job [k], and the shared buffers
    keep the sizes they were allocated with: [x] that of the initial
    point, [memory_gradient] one entry per sample, [gradient_average] one
    per feature. *)
Theorem pool_keeps_workers_and_sizes `{FloatOps F}
    (shuffle : nat -> nat -> list nat -> list nat)
    (f : Loss F) (g : option (Penalty F)) (x0 : option (list F))
    (step_size : F) (n_jobs max_iter : Z) (tol : F) (trace : bool)
    (log : list event) (L : launch F) (p : pool F) :
  setup f g x0 step_size n_jobs max_iter trace = (log, inr L) ->
  rtc (pool_step (l_kernel L) shuffle (l_step_size L) max_iter tol trace) (l_pool L) p ->
  length (p_workers p) = Z.to_nat n_jobs
  /\ (forall k w, p_workers p !! k = Some w -> w_job_id w = k)
  /\ length (x (p_shared p)) = length (initial_point f x0)
  /\ length (memory_gradient (p_shared p)) = fst (shape (loss_A f))
  /\ length (gradient_average (p_shared p)) = snd (shape (loss_A f)).
Proof.
  intros Hs Hrun.
  destruct (setup_pool_start f g x0 step_size n_jobs max_iter trace log L Hs)
    as (Hlen & Hjobs & _).
  destruct (setup_submits f g x0 step_size n_jobs max_iter trace log L Hs)
    as (_ & Hx & Hm & Hg & _).
  destruct (setup_kernel f g x0 step_size n_jobs max_iter trace log L Hs) as [_ Hnf].
  destruct (pool_run_sizes (l_kernel L) shuffle (l_step_size L) max_iter tol trace
              _ _ Hrun) as (Hx' & Hm' & Hg').
  { by rewrite Hg, length_replicate, Hnf. }
  repeat split.
  - by rewrite (pool_run_length shuffle max_iter tol trace _ _ _ _ Hrun).
  - apply (pool_run_jobs _ _ _ _ _ _ _ _ Hrun Hjobs).
  - by rewrite Hx', Hx.
  - by rewrite Hm', Hm, length_replicate.
  - by rewrite Hg', Hnf.
Qed.

(** ** The orchestrator: a single job, and the kinds of outcome *)

Section SingleJob.
Context `{FloatOps F}.
Variable K : closure F.
Variable shuffle : nat -> nat -> list nat -> list nat.
Variables (step_size : F) (max_iter : Z) (tol : F) (trace : bool).

Local Abbreviation pstep := (pool_step K shuffle step_size max_iter tol trace).


End SingleJob.


Section Outcomes.
Context `{FloatOps F}.
Variable linspace : F -> nat -> list F.
Variable delta : F.
Variable shuffle : nat -> nat -> list nat -> list nat.
Variables (f : Loss F) (g : Penalty F) (x0 : option (list F)).
Variables (step_size : F) (n_jobs max_iter : Z) (tol : F) (trace : bool).

Local Abbreviation the_setup := (setup f (Some g) x0 step_size n_jobs max_iter trace).



End Outcomes.


(** ** After the flag is set *)

Section AfterFlag.
Context `{FloatOps F}.
Variable K : closure F.
Variable shuffle : nat -> nat -> list nat -> list nat.
Variables (step_size : F) (max_iter : Z) (tol : F) (trace : bool).

Local Abbreviation wstep := (worker_step K shuffle step_size max_iter tol trace).
Local Abbreviation pstep := (pool_step K shuffle step_size max_iter tol trace).

(** With the flag set, a worker that has begun one more epoch than [r0]
    is past the loop header, and begins no other. *)
Lemma worker_step_after_flag s w s' w' r0 :
  stop_flag s = true -> wstep s w = Some (s', w') ->
  epochs_run (w_locals w) <= r0 + 1 ->
  (epochs_run (w_locals w) = r0 + 1 ->
   w_pc w <> Start /\ forall rest, w_pc w <> Head rest) ->
  epochs_run (w_locals w') <= r0 + 1
  /\ (epochs_run (w_locals w') = r0 + 1 ->
      w_pc w' <> Start /\ forall rest, w_pc w' <> Head rest).
Proof.
  intros Hset. destruct w as [j c l]. unfold worker_step. simpl.
  destruct c as [|[|k rest]|[|i pending] rest|rest|n cf]; simpl.
  - intros [= <- <-] Hle Hlate. simpl. split; [lia|]. intros Heq. lia.
  - intros [= <- <-] Hle Hlate. simpl. split; [done|]. by intros _.
  - intros [= <- <-] Hle Hlate. simpl.
    assert (epochs_run l <> r0 + 1) as Hne.
    { intros Heq. destruct (Hlate Heq) as [_ Hh]. by apply (Hh (k :: rest)). }
    split; [lia|]. by intros _.
  - destruct (role_action K step_size j tol trace s l) as [s1 l1] eqn:E.
    intros [= <- <-] Hle Hlate. simpl.
    destruct (role_action_locals K step_size j tol trace s l) as (_ & Hruns & _).
    rewrite E in Hruns. simpl in Hruns. rewrite Hruns. split; [done|]. by intros _.
  - intros [= <- <-] Hle Hlate. simpl. split; [done|]. by intros _.
  - rewrite Hset. intros [= <- <-] Hle Hlate. simpl. split; [done|]. by intros _.
  - discriminate.
Qed.

Lemma pool_run_after_flag p p' :
  rtc pstep p p' -> stop_flag (p_shared p) = true ->
  forall k w0 w, p_workers p !! k = Some w0 -> p_workers p' !! k = Some w ->
    epochs_run (w_locals w) <= epochs_run (w_locals w0) + 1
    /\ (epochs_run (w_locals w) = epochs_run (w_locals w0) + 1 ->
        w_pc w <> Start /\ forall rest, w_pc w <> Head rest).
Proof.
  intros Hrun Hset. revert p' Hrun.
  refine (rtc_ind_r (fun q => forall k w0 w, p_workers p !! k = Some w0 ->
            p_workers q !! k = Some w ->
            epochs_run (w_locals w) <= epochs_run (w_locals w0) + 1
            /\ (epochs_run (w_locals w) = epochs_run (w_locals w0) + 1 ->
                w_pc w <> Start /\ forall rest, w_pc w <> Head rest)) p _ _).
  - intros k w0 w Hk Hk'. rewrite Hk in Hk'. injection Hk' as <-. split; [lia|]. lia.
  - intros q q' Hrun Hstep IH.
    pose proof (pool_run_flag K shuffle step_size max_iter tol trace _ _ Hrun Hset) as Hq.
    destruct Hstep as [k' wq s' w' Hk' Hw]. simpl.
    intros k w0 w Hk. destruct (decide (k' = k)) as [->|Hne].
    + rewrite list_lookup_insert_eq by (by apply lookup_lt_Some in Hk').
      intros [= <-]. destruct (IH k w0 wq Hk Hk') as [Hle Hlate].
      by apply (worker_step_after_flag _ _ _ _ _ Hq Hw).
    + rewrite list_lookup_insert_ne by done. by apply IH.
Qed.
End AfterFlag.

(** X18. Once the stop flag is set, no worker begins more than one further
    epoch, in any continuation of the run. *)
Theorem flag_stops_workers_within_one_epoch `{FloatOps F} (K : closure F)
    (shuffle : nat -> nat -> list nat -> list nat) (step_size : F) (max_iter : Z)
    (tol : F) (trace : bool) (p p' : pool F) (k : nat) (w0 w : worker F) :
  stop_flag (p_shared p) = true ->
  rtc (pool_step K shuffle step_size max_iter tol trace) p p' ->
  p_workers p !! k = Some w0 -> p_workers p' !! k = Some w ->
  epochs_run (w_locals w) <= epochs_run (w_locals w0) + 1.
Proof.
  intros Hset Hrun Hk Hk'.
  by destruct (pool_run_after_flag K shuffle step_size max_iter tol trace p p' Hrun Hset
                 k w0 w Hk Hk').
Qed.

(** ** Coordinates no sample stores *)

Lemma fold_insert_frame {V B} `{Inhabited V} (pos : B -> nat) (val : list V -> B -> V)
    (ks : list B) (l : list V) (j : nat) :
  (forall k, k ∈ ks -> pos k <> j) ->
  fold_left (fun l k => <[pos k := val l k]> l) ks l !!! j = l !!! j.
Proof.
  revert l. induction ks as [|k ks IH]; intros l Hne; simpl; [done|].
  rewrite IH by (intros; apply Hne; by right).
  apply list_lookup_total_insert_ne, Hne. by left.
Qed.

Section Untouched.
Context `{FloatOps F}.
Variable K : closure F.
Hypothesis HK : kernel_wfb K = true.
Variable step_size : F.
Variable j : nat.
Hypothesis Hfree : forall i, i < n_samples K -> j ∉ csr_row (A_indices K) (A_indptr K) i.

Lemma row_positions_avoid i k :
  i < n_samples K -> k ∈ row_positions K i -> A_indices K !!! k <> j.
Proof.
  destruct (kernel_wfb_spec K HK) as [Hwf _]. intros Hi Hk Heq.
  apply (Hfree i Hi). rewrite (csr_row_lookups _ _ _ _ Hwf) by done.
  apply list_elem_of_In, in_map_iff. exists k. split; [done|]. by apply list_elem_of_In.
Qed.

Lemma sample_update_untouched s i :
  i < n_samples K ->
  x (sample_update K step_size s i) !!! j = x s !!! j
  /\ gradient_average (sample_update K step_size s i) !!! j = gradient_average s !!! j.
Proof.
  intros Hi. unfold sample_update. simpl. split.
  - apply (fold_insert_frame (fun k => A_indices K !!! k)).
    intros k Hk. by apply (row_positions_avoid i).
  - apply (fold_insert_frame (fun k => A_indices K !!! k)).
    intros k Hk. by apply (row_positions_avoid i).
Qed.

Lemma sample_updates_untouched order s :
  Forall (fun i => i < n_samples K) order ->
  x (fold_left (sample_update K step_size) order s) !!! j = x s !!! j
  /\ gradient_average (fold_left (sample_update K step_size) order s) !!! j
     = gradient_average s !!! j.
Proof.
  intros Horder. revert s. induction Horder as [|i order Hi _ IH]; intros s; [done|].
  simpl. destruct (IH (sample_update K step_size s i)) as [-> ->].
  by apply sample_update_untouched.
Qed.

Variable shuffle : nat -> list nat -> list nat.
Hypothesis Hshuffle : forall k order, shuffle k order ≡ₚ order.
Variables (job_id : nat) (tol : F) (trace : bool).

Lemma epoch_body_untouched k st :
  sample_indices (snd st) ≡ₚ seq 0 (n_samples K) ->
  x (fst (epoch_body K shuffle step_size job_id tol trace k st)) !!! j = x (fst st) !!! j
  /\ sample_indices (snd (epoch_body K shuffle step_size job_id tol trace k st))
     ≡ₚ seq 0 (n_samples K).
Proof.
  intros Hperm. unfold epoch_body.
  set (l1 := begin_epoch shuffle k (snd st)).
  assert (sample_indices l1 ≡ₚ seq 0 (n_samples K)) as Hp1.
  { unfold l1. simpl. by rewrite Hshuffle. }
  destruct (sample_updates_untouched (sample_indices l1) (fst st)
              (Permutation_range_bound _ _ Hp1)) as [Hx _].
  destruct (role_action_locals K step_size job_id tol trace
              (fold_left (sample_update K step_size) (sample_indices l1) (fst st)) l1)
    as (_ & _ & Hsi & _).
  rewrite Hsi. split; [|done]. rewrite <- Hx. unfold role_action.
  destruct (Nat.eqb job_id 0); [done|]. by destruct (Nat.eqb job_id 1).
Qed.

Lemma epoch_loop_untouched its : forall st,
  sample_indices (snd st) ≡ₚ seq 0 (n_samples K) ->
  x (fst (epoch_loop K shuffle step_size job_id tol trace its st)) !!! j = x (fst st) !!! j.
Proof.
  induction its as [|k its IH]; intros st Hperm; [done|].
  change (epoch_loop K shuffle step_size job_id tol trace (k :: its) st)
    with (if stop_flag (fst (epoch_body K shuffle step_size job_id tol trace k st))
          then epoch_body K shuffle step_size job_id tol trace k st
          else epoch_loop K shuffle step_size job_id tol trace its
                 (epoch_body K shuffle step_size job_id tol trace k st)).
  destruct (epoch_body_untouched k st Hperm) as [Hx Hp].
  destruct (stop_flag _); [done|]. by rewrite IH.
Qed.
End Untouched.

(** X19. A feature that no sample stores is never updated: for a
    well-formed CSR matrix and shuffles that permute the samples, a call of
    the kernel leaves [x[j]] as it found it for every column [j] that
    occurs in no row. *)
Theorem unused_feature_is_never_updated `{FloatOps F} (K : closure F)
    (shuffle : nat -> list nat -> list nat) (step_size : F) (max_iter : Z)
    (job_id : nat) (tol : F) (trace : bool) (s : shared F) (j : nat) :
  kernel_wfb K = true ->
  (forall k order, shuffle k order ≡ₚ order) ->
  (forall i, i < n_samples K -> j ∉ csr_row (A_indices K) (A_indptr K) i) ->
  x (fst (kernel_run K shuffle step_size max_iter job_id tol trace s)) !!! j = x s !!! j.
Proof.
  intros HK Hshuffle Hfree. unfold kernel_run.
  by rewrite (epoch_loop_untouched K HK step_size j Hfree shuffle Hshuffle job_id tol trace).
Qed.

(** ** Worked instances of the properties above *)

Lemma support_matrix_block_rows_witness :
  csr_wfb [0; 2; 2; 0; 1] [0; 3; 5] 2 3 = true
  /\ blocks_wfb [0; 0; 1] 3 2 = true
  /\ let '(BS_data, BS_indices, BS_indptr) :=
       _support_matrix (F:=QFloat.t) [0; 2; 2; 0; 1] [0; 3; 5] [0; 0; 1] 2 in
     BS_data = replicate (length BS_indices) fone
     /\ forall i, i < 2 ->
          csr_row BS_indices BS_indptr i
          = dedup_first (map (fun c => [0; 0; 1] !!! c) (csr_row [0; 2; 2; 0; 1] [0; 3; 5] i))
          /\ NoDup (csr_row BS_indices BS_indptr i)
          /\ forall blk, blk ∈ csr_row BS_indices BS_indptr i
               <-> exists c, c ∈ csr_row [0; 2; 2; 0; 1] [0; 3; 5] i /\ [0; 0; 1] !!! c = blk.
Proof.
  split; [reflexivity|]. split; [reflexivity|].
  apply (support_matrix_block_rows (F:=QFloat.t) [0; 2; 2; 0; 1] [0; 3; 5] [0; 0; 1] 2 3 2);
    reflexivity.
Defined.

Lemma support_matrix_well_formed_witness :
  csr_wfb [0; 2; 2; 0; 1] [0; 3; 5] 2 3 = true
  /\ blocks_wfb [0; 0; 1] 3 2 = true
  /\ let '(BS_data, BS_indices, BS_indptr) :=
       _support_matrix (F:=QFloat.t) [0; 2; 2; 0; 1] [0; 3; 5] [0; 0; 1] 2 in
     csr_wfb BS_indices BS_indptr 2 2 = true
     /\ BS_indptr !!! 0 = 0
     /\ BS_indptr !!! 2 = length BS_indices
     /\ length BS_data = length BS_indices
     /\ length BS_indices <= length [0; 2; 2; 0; 1]
     /\ forall i, i < 2 ->
          length (csr_row BS_indices BS_indptr i)
          <= length (csr_row [0; 2; 2; 0; 1] [0; 3; 5] i).
Proof.
  split; [reflexivity|]. split; [reflexivity|].
  apply (support_matrix_well_formed (F:=QFloat.t) [0; 2; 2; 0; 1] [0; 3; 5] [0; 0; 1] 2 3 2);
    reflexivity.
Defined.

Lemma support_matrix_idempotent_witness :
  csr_wfb [0; 2; 2; 0; 1] [0; 3; 5] 2 3 = true
  /\ blocks_wfb [0; 0; 1] 3 2 = true
  /\ let '(BS_data, BS_indices, BS_indptr) :=
       _support_matrix (F:=QFloat.t) [0; 2; 2; 0; 1] [0; 3; 5] [0; 0; 1] 2 in
     _support_matrix (F:=QFloat.t) BS_indices BS_indptr (seq 0 2) 2
     = (BS_data, BS_indices, BS_indptr).
Proof.
  split; [reflexivity|]. split; [reflexivity|].
  apply (support_matrix_idempotent (F:=QFloat.t) [0; 2; 2; 0; 1] [0; 3; 5] [0; 0; 1] 2 3 2);
    reflexivity.
Defined.

Lemma support_matrix_single_block_witness :
  csr_wfb [0; 2; 1] [0; 2; 2; 3] 3 3 = true
  /\ blocks_wfb [0; 0; 0] 3 1 = true
  /\ let '(BS_data, BS_indices, BS_indptr) :=
       _support_matrix (F:=QFloat.t) [0; 2; 1] [0; 2; 2; 3] [0; 0; 0] 1 in
     forall i, i < 3 ->
       csr_row BS_indices BS_indptr i
       = match csr_row [0; 2; 1] [0; 2; 2; 3] i with [] => [] | _ => [0] end.
Proof.
  split; [reflexivity|]. split; [reflexivity|].
  apply (support_matrix_single_block (F:=QFloat.t) [0; 2; 1] [0; 2; 2; 3] [0; 0; 0] 3 3);
    reflexivity.
Defined.

Lemma degree_vector_blocks_witness :
  shape QFloat.A23 = (2, 3)
  /\ csr_wfb (indices QFloat.A23) (indptr QFloat.A23) 2 3 = true
  /\ blocks_wfb [0; 0; 1] 3 2 = true
  /\ length (degree_vector QFloat.A23 [0; 0; 1] 2) = 2
  /\ forall j, j < 2 ->
       let touching :=
         touch_count (indices QFloat.A23) (indptr QFloat.A23) [0; 0; 1] 2 j in
       touching <= 2
       /\ (fne (degree_vector QFloat.A23 [0; 0; 1] 2 !!! j) fzero = false <-> touching = 0)
       /\ (touching <> 0 ->
           degree_vector QFloat.A23 [0; 0; 1] 2 !!! j
           = fdiv (of_nat 2) (of_nat touching)).
Proof.
  split; [reflexivity|]. split; [reflexivity|]. split; [reflexivity|].
  apply (degree_vector_blocks QFloat.A23 [0; 0; 1] 2 3 2); reflexivity.
Defined.

Lemma kernel_keeps_buffer_sizes_witness :
  buffers_okb QFloat.K23 QFloat.s23 = true
  /\ let s' := fst (kernel_run QFloat.K23 QFloat.keep (QFloat.q 1 10) 3 1
                      (QFloat.q 1 100) false QFloat.s23) in
     length (x s') = n_features QFloat.K23
     /\ length (gradient_average s') = n_features QFloat.K23
     /\ length (memory_gradient s') = n_samples QFloat.K23
     /\ length (trace_x s') = length (trace_x QFloat.s23).
Proof.
  split; [reflexivity|].
  apply (kernel_keeps_buffer_sizes QFloat.K23 QFloat.keep (QFloat.q 1 10) 3 1
           (QFloat.q 1 100) false QFloat.s23).
  reflexivity.
Defined.

Lemma kernel_runs_one_epoch_when_flag_set_witness :
  stop_flag QFloat.s23_stopped = true
  /\ let st' := kernel_run QFloat.K23 QFloat.keep (QFloat.q 1 10) 3 1
                  (QFloat.q 1 100) false QFloat.s23_stopped in
     stop_flag (fst st') = true
     /\ epochs_run (snd st') = (if (1 <? 3)%Z then 1 else 0)
     /\ fst (snd (epoch_iteration_template QFloat.K23 QFloat.keep (QFloat.q 1 10) 3 1
                    (QFloat.q 1 100) false QFloat.s23_stopped))
        = (if (1 <? 3)%Z then 1 else 0).
Proof.
  split; [reflexivity|].
  apply (kernel_runs_one_epoch_when_flag_set QFloat.K23 QFloat.keep (QFloat.q 1 10) 3 1
           (QFloat.q 1 100) false QFloat.s23_stopped).
  reflexivity.
Defined.

Lemma monitor_flag_is_certificate_test_witness :
  stop_flag QFloat.s23 = false
  /\ (1 < 3)%Z
  /\ let st' := kernel_run QFloat.K23 QFloat.keep (QFloat.q 1 10) 3 0
                  (QFloat.q 1000 1) false QFloat.s23 in
     stop_flag (fst st') = flt (cert (snd st')) (QFloat.q 1000 1)
     /\ (1 <= epochs_run (snd st'))
     /\ ((Z.of_nat (epochs_run (snd st')) < 3 - 1)%Z ->
         flt (cert (snd st')) (QFloat.q 1000 1) = true).
Proof.
  split; [reflexivity|]. split; [lia|].
  apply (monitor_flag_is_certificate_test QFloat.K23 QFloat.keep (QFloat.q 1 10) 3
           (QFloat.q 1000 1) false QFloat.s23).
  - reflexivity.
  - lia.
Defined.

Lemma trace_rows_of_monitor_witness :
  (0 < 3)%Z
  /\ length (trace_x QFloat.s23_traced) = Z.to_nat 3
  /\ let st' := kernel_run QFloat.K23 QFloat.keep (QFloat.q 1 10) 3 0
                  (QFloat.q 1 100) true QFloat.s23_traced in
     trace_x (fst st') !!! 0 = x QFloat.s23_traced
     /\ trace_x (fst st') !!! it (snd st') = x (fst st')
     /\ it (snd st') < length (trace_x (fst st'))
     /\ length (trace_x (fst st')) = length (trace_x QFloat.s23_traced).
Proof.
  split; [lia|]. split; [reflexivity|].
  apply (trace_rows_of_monitor QFloat.K23 QFloat.keep (QFloat.q 1 10) 3
           (QFloat.q 1 100) QFloat.s23_traced).
  - lia.
  - reflexivity.
Defined.

Lemma trace_untouched_by_other_workers_witness :
  (1 <> 0 \/ true = false)
  /\ trace_x (fst (kernel_run QFloat.K23 QFloat.keep (QFloat.q 1 10) 3 1
                     (QFloat.q 1 100) true QFloat.s23_traced))
     = trace_x QFloat.s23_traced.
Proof.
  split; [left; lia|].
  apply (trace_untouched_by_other_workers QFloat.K23 QFloat.keep (QFloat.q 1 10) 3 1
           (QFloat.q 1 100) true QFloat.s23_traced).
  left. lia.
Defined.

Lemma pool_runs_are_bounded_witness :
  let L := QFloat.demo_launch 3 in
  let p := schedule_step (l_kernel L) (fun _ => QFloat.keep) (l_step_size L) 3
             (QFloat.q 1 100) false (l_pool L) 1 in
  setup QFloat.f23 None None (QFloat.q 1 10) 2 3 false
    = (fst (QFloat.demo_setup 3), inr L)
  /\ (forall (j k : nat) (l : list nat), length (QFloat.keep k l) = length l)
  /\ nsteps (pool_step (l_kernel L) (fun _ => QFloat.keep) (l_step_size L) 3
                       (QFloat.q 1 100) false) 1 (l_pool L) p
  /\ 1 <= Z.to_nat 2 * (Z.to_nat (3 - 1) * (n_samples (l_kernel L) + 3) + 2).
Proof.
  intros L p.
  assert (setup QFloat.f23 None None (QFloat.q 1 10) 2 3 false
          = (fst (QFloat.demo_setup 3), inr L)) as Hs by reflexivity.
  assert (forall (j k : nat) (l : list nat), length (QFloat.keep k l) = length l) as Hlen.
  { intros j k l. reflexivity. }
  assert (nsteps (pool_step (l_kernel L) (fun _ => QFloat.keep) (l_step_size L) 3
                            (QFloat.q 1 100) false) 1 (l_pool L) p) as Hrun.
  { apply nsteps_once, schedule_step_enabled. vm_compute. reflexivity. }
  split; [exact Hs|]. split; [exact Hlen|]. split; [exact Hrun|].
  exact (pool_runs_are_bounded (fun _ => QFloat.keep) QFloat.f23 None None
           (QFloat.q 1 10) 2 3 (QFloat.q 1 100) false (fst (QFloat.demo_setup 3))
           L 1 p Hs Hlen Hrun).
Defined.

Lemma returned_count_in_any_run_witness :
  let L := QFloat.demo_launch 3 in
  let p := QFloat.demo_pool_tol 3 (QFloat.q 1000 1) [0; 0; 0; 0; 0; 1; 1; 1; 1; 1; 1] in
  setup QFloat.f23 None None (QFloat.q 1 10) 2 3 false
    = (fst (QFloat.demo_setup 3), inr L)
  /\ rtc (pool_step (l_kernel L) (fun _ => QFloat.keep) (l_step_size L) 3
                    (QFloat.q 1000 1) false) (l_pool L) p
  /\ exists w,
       p_workers p !! 1 = Some w
       /\ w_pc w = Returned 1 finf
       /\ 1 = epochs_run (w_locals w)
       /\ (Z.of_nat 1 <= Z.max 0 (3 - 1))%Z
       /\ ((Z.of_nat 1 < 3 - 1)%Z -> stop_flag (p_shared p) = true)
       /\ (1 <> 0 -> finf = finf).
Proof.
  intros L p.
  assert (setup QFloat.f23 None None (QFloat.q 1 10) 2 3 false
          = (fst (QFloat.demo_setup 3), inr L)) as Hs by reflexivity.
  assert (rtc (pool_step (l_kernel L) (fun _ => QFloat.keep) (l_step_size L) 3
                         (QFloat.q 1000 1) false) (l_pool L) p) as Hrun.
  { apply run_schedule_rtc. }
  split; [exact Hs|]. split; [exact Hrun|].
  eexists. split; [vm_compute; reflexivity|]. split; [reflexivity|].
  eapply (returned_count_in_any_run (fun _ => QFloat.keep) QFloat.f23 None None
            (QFloat.q 1 10) 2 3 (QFloat.q 1000 1) false (fst (QFloat.demo_setup 3))
            L p 1 _ 1 finf Hs Hrun).
  - vm_compute. reflexivity.
  - reflexivity.
Defined.

Lemma pool_keeps_workers_and_sizes_witness :
  let L := QFloat.demo_launch 3 in
  let p := QFloat.demo_pool 3 [0; 0; 1; 0] in
  setup QFloat.f23 None None (QFloat.q 1 10) 2 3 false
    = (fst (QFloat.demo_setup 3), inr L)
  /\ rtc (pool_step (l_kernel L) (fun _ => QFloat.keep) (l_step_size L) 3
                    (QFloat.q 1 100) false) (l_pool L) p
  /\ length (p_workers p) = Z.to_nat 2
  /\ (forall k w, p_workers p !! k = Some w -> w_job_id w = k)
  /\ length (x (p_shared p)) = length (initial_point QFloat.f23 None)
  /\ length (memory_gradient (p_shared p)) = fst (shape (loss_A QFloat.f23))
  /\ length (gradient_average (p_shared p)) = snd (shape (loss_A QFloat.f23)).
Proof.
  intros L p.
  assert (setup QFloat.f23 None None (QFloat.q 1 10) 2 3 false
          = (fst (QFloat.demo_setup 3), inr L)) as Hs by reflexivity.
  assert (rtc (pool_step (l_kernel L) (fun _ => QFloat.keep) (l_step_size L) 3
                         (QFloat.q 1 100) false) (l_pool L) p) as Hrun.
  { apply run_schedule_rtc. }
  split; [exact Hs|]. split; [exact Hrun|].
  exact (pool_keeps_workers_and_sizes (fun _ => QFloat.keep) QFloat.f23 None None
           (QFloat.q 1 10) 2 3 (QFloat.q 1 100) false (fst (QFloat.demo_setup 3))
           L p Hs Hrun).
Defined.


Lemma flag_stops_workers_within_one_epoch_witness :
  let L := QFloat.demo_launch 3 in
  let p := QFloat.demo_pool_tol 3 (QFloat.q 1000 1) [0; 0; 0; 0; 0] in
  let p' := run_schedule (l_kernel L) (fun _ => QFloat.keep) (l_step_size L) 3
              (QFloat.q 1000 1) false [1; 1; 1; 1; 1; 1; 0] p in
  stop_flag (p_shared p) = true
  /\ rtc (pool_step (l_kernel L) (fun _ => QFloat.keep) (l_step_size L) 3
                    (QFloat.q 1000 1) false) p p'
  /\ exists w0 w,
       p_workers p !! 1 = Some w0 /\ p_workers p' !! 1 = Some w
       /\ epochs_run (w_locals w) <= epochs_run (w_locals w0) + 1.
Proof.
  intros L p p'.
  assert (stop_flag (p_shared p) = true) as Hset by (vm_compute; reflexivity).
  assert (rtc (pool_step (l_kernel L) (fun _ => QFloat.keep) (l_step_size L) 3
                         (QFloat.q 1000 1) false) p p') as Hrun.
  { apply run_schedule_rtc. }
  split; [exact Hset|]. split; [exact Hrun|].
  eexists _, _. split; [vm_compute; reflexivity|]. split; [vm_compute; reflexivity|].
  eapply (flag_stops_workers_within_one_epoch (l_kernel L) (fun _ => QFloat.keep)
            (l_step_size L) 3 (QFloat.q 1000 1) false p p' 1 _ _ Hset Hrun).
  - vm_compute. reflexivity.
  - vm_compute. reflexivity.
Defined.

Lemma unused_feature_is_never_updated_witness :
  kernel_wfb QFloat.K24 = true
  /\ (forall (k : nat) (order : list nat), QFloat.keep k order ≡ₚ order)
  /\ (forall i, i < n_samples QFloat.K24 ->
        3 ∉ csr_row (A_indices QFloat.K24) (A_indptr QFloat.K24) i)
  /\ x (fst (kernel_run QFloat.K24 QFloat.keep (QFloat.q 1 10) 3 0 (QFloat.q 1 100)
               false QFloat.s24)) !!! 3
     = x QFloat.s24 !!! 3.
Proof.
  assert (forall (k : nat) (order : list nat), QFloat.keep k order ≡ₚ order) as Hkeep.
  { intros k order. reflexivity. }
  assert (forall i, i < n_samples QFloat.K24 ->
            3 ∉ csr_row (A_indices QFloat.K24) (A_indptr QFloat.K24) i) as Hfree.
  { intros i Hi. change (n_samples QFloat.K24) with 2 in Hi.
    destruct i as [|[|i]]; [| |lia].
    - change (csr_row (A_indices QFloat.K24) (A_indptr QFloat.K24) 0) with [0; 2].
      intros Hin. apply list_elem_of_In in Hin. simpl in Hin. lia.
    - change (csr_row (A_indices QFloat.K24) (A_indptr QFloat.K24) 1) with [1].
      intros Hin. apply list_elem_of_In in Hin. simpl in Hin. lia. }
  split; [reflexivity|]. split; [exact Hkeep|]. split; [exact Hfree|].
  exact (unused_feature_is_never_updated QFloat.K24 QFloat.keep (QFloat.q 1 10) 3 0
           (QFloat.q 1 100) false QFloat.s24 3 eq_refl Hkeep Hfree).
Defined.

